(** * primes.c: a fixed pool of threads counting the primes below a bound

    The program splits the range [0, N) between THREAD_COUNT threads by
    stride: thread [k] tests [k], [k + THREAD_COUNT], [k + 2 * THREAD_COUNT],
    ... with a trial division up to [i / 2] and counts the primes it finds
    in its own slot [prime_count[k]].  [main] prints [sizeof(short)], reads
    the clock, creates the threads, joins them, adds the slots up and prints
    the total and the elapsed time.

    The embedding is shallow.  C [int] values are integers of [Z]; an [int]
    operation whose mathematical result leaves the range of [int], and an
    array access outside the array, are undefined behaviour in C and give
    [Fault] here.  Loops take fuel, one unit per execution of the loop body,
    and give [Timeout] when it runs out.  The two macros [N] and
    [THREAD_COUNT] are the parameters of the development.

    [calculate_primes] is first embedded as the function it is, run from
    entry to return.  The program as a whole is a machine driven by a
    schedule: at each step the scheduler picks [main] or one of the
    threads, which then runs up to its next access to the memory the
    threads share.  What the platform decides (the size of [short], the
    clock, whether a thread can be created) is a parameter, and what
    [main] does to the outside world is recorded as a trace of events.

    The other programs of the repository follow, each in a module of its
    own: [reverse], [reversewords] and [main] of Reversals.c,
    [reverse_array] and [shuffle_array] of Array Bobbins.c, [dumpbits] of
    dump_bits.c and [diskUsage] of disk_info.c.  What the C library and
    the operating system answer ([malloc], [calloc], ["/dev/random"],
    [rand], [statvfs]) is a parameter there too, and what the C standard
    leaves undefined is [Fault] as above. *)

From Stdlib Require Import ZArith Lia.
From stdpp Require Import base list strings.

Local Open Scope Z_scope.

(** ** Results of running C code *)

Inductive outcome (A : Type) : Type :=
  | Done (a : A)
  | Timeout
  | Fault.

Arguments Done {A} a.
Arguments Timeout {A}.
Arguments Fault {A}.

#[global] Instance outcome_ret : MRet outcome := fun A a => Done a.

#[global] Instance outcome_bind : MBind outcome := fun A B f x =>
  match x with
  | Done a => f a
  | Timeout => Timeout
  | Fault => Fault
  end.

(** ** The type [int] and arrays indexed by an [int] *)

Definition INT_MIN : Z := -2147483648.
Definition INT_MAX : Z := 2147483647.

Definition is_int (z : Z) : Prop := INT_MIN <= z <= INT_MAX.

(** [a + b] on [int]: signed overflow is undefined. *)
Definition int_add (a b : Z) : outcome Z :=
  if (INT_MIN <=? a + b) && (a + b <=? INT_MAX) then Done (a + b) else Fault.

(** [a[i]] as an rvalue. *)
Definition array_get {A : Type} (a : list A) (i : Z) : outcome A :=
  if i <? 0 then Fault
  else match a !! Z.to_nat i with
       | Some x => Done x
       | None => Fault
       end.

(** [a[i] = x]. *)
Definition array_set {A : Type} (a : list A) (i : Z) (x : A) : outcome (list A) :=
  if (0 <=? i) && (i <? Z.of_nat (length a)) then Done (<[Z.to_nat i := x]> a)
  else Fault.

(** ** What [main] does to the outside world *)

(** The three format strings of [main]; [LF] is the newline character. *)
Definition newline : Ascii.ascii := Ascii.ascii_of_nat 10.
Definition LF : string := String newline EmptyString.
Definition format_sizeof : string := "%lu" +:+ LF.
Definition format_count : string := "%d primes found" +:+ LF.
Definition format_took : string := "took %f sec" +:+ LF.

Record timeval : Type := { tv_sec : Z; tv_usec : Z }.

(** The argument of a conversion of [printf].  The [double] of line 57 is
    the quotient of two integers and is kept as that pair: floating point
    is not part of the model. *)
Inductive printf_arg : Type :=
  | ArgULong (z : Z)
  | ArgInt (z : Z)
  | ArgDouble (num den : Z).

Inductive event : Type :=
  | Printf (format : string) (a : printf_arg)
  | Gettimeofday (tv : timeval)
  | Pthread_create (i : Z) (started : bool)
  | Pthread_join (i : Z).

(** What the platform answers: the size of [short], whether the [i]-th
    [pthread_create] starts a thread, whether [pthread_join] returns (with
    an error) when the thread it is given was never started, and the two
    readings of the clock. *)
Record platform : Type := {
  sizeof_short : Z;
  creates : Z -> bool;
  joins_unstarted : bool;
  start : timeval;
  stop : timeval
}.

(** The thread behind [t_array[i]]: not started; at the head of the
    [while] loop with its locals [i] and [thread_number]; inside
    [prime_count[thread_number]++] of line 25, having read the value [c] of
    the slot and about to write [c + 1]; or returned. *)
Inductive thread : Type :=
  | Unstarted
  | Running (i thread_number : Z)
  | Incrementing (i thread_number c : Z)
  | Returned.

(** A thread that has been started and has not returned. *)
Definition active (th : thread) : bool :=
  match th with
  | Running _ _ | Incrementing _ _ _ => true
  | _ => false
  end.

Definition started (th : thread) : bool :=
  match th with
  | Unstarted => false
  | _ => true
  end.

(** Where [main] stands: before line 34, at the head of one of its three
    loops with the loop counter (and [primes_counted] in the last), or
    after [return]. *)
Inductive main_pc : Type :=
  | Line34
  | Line42 (i : Z)
  | Line46 (i : Z)
  | Line50 (i primes_counted : Z)
  | Exited (status : Z).

Record machine : Type := {
  pc : main_pc;
  t_array : list thread;
  prime_count : list Z;
  trace : list event
}.

(** The scheduler's choice for the next step. *)
Inductive pick : Type :=
  | Main
  | Worker (k : Z).

Section Primes.

(** [#define N] and [#define THREAD_COUNT]; 1000000 and 8 in the source. *)
Variables (N THREAD_COUNT : Z).

(** ** [calculate_primes] *)

(** Lines 17-22, entered with [flag = 0] and the current value of [j]:
    [for (...; j <= i/2; j++) { if (i % j == 0) { flag = 1; break; } }].
    The result is the pair of [flag] and [j] when the loop is left. *)
Fixpoint for_loop (fuel : nat) (i j : Z) : outcome (Z * Z) :=
  if j <=? Z.quot i 2 then
    match fuel with
    | O => Timeout
    | S fuel' =>
        if Z.rem i j =? 0 then Done (1, j)
        else j' ← int_add j 1; for_loop fuel' i j'
    end
  else Done (0, j).

(** Lines 16-24: the test that decides whether [i] is counted,
    [flag = 0; for (j = 2; ...) ...; flag == 0 && i > 1]. *)
Definition prime_test (fuel : nat) (i : Z) : outcome bool :=
  '(flag, _) ← for_loop fuel i 2;
  Done ((flag =? 0) && (1 <? i)).

(** Lines 16-26, one execution of the body of the [while] loop up to the
    increment of [i]: [if (flag == 0 && i > 1) prime_count[thread_number]++]. *)
Definition loop_body (fuel : nat) (i thread_number : Z) (prime_count : list Z)
  : outcome (list Z) :=
  b ← prime_test fuel i;
  if b : bool then
    c ← array_get prime_count thread_number;
    c' ← int_add c 1;
    array_set prime_count thread_number c'
  else Done prime_count.

(** Lines 15-28: [while (i < N) { ...; i += THREAD_COUNT; }].  [fo] bounds
    the executions of the body, [fi] those of the inner loop at each [i]. *)
Fixpoint while_loop (fo fi : nat) (i thread_number : Z) (prime_count : list Z)
  : outcome (list Z) :=
  if i <? N then
    match fo with
    | O => Timeout
    | S fo' =>
        prime_count' ← loop_body fi i thread_number prime_count;
        i' ← int_add i THREAD_COUNT;
        while_loop fo' fi i' thread_number prime_count'
    end
  else Done prime_count.

(** The thread function, run from entry to [return NULL] on the global
    array.  [ptr] is the thread's number, which [main] passes through the
    pointer argument; the casts give it back unchanged. *)
Definition calculate_primes (fo fi : nat) (ptr : Z) (prime_count : list Z)
  : outcome (list Z) :=
  while_loop fo fi ptr ptr prime_count.

(** The values [i] takes at the head of the [while] loop of thread [ptr]
    while [i < N] holds: the same guard and the same increment, nothing
    else. *)
Fixpoint indices (fo : nat) (i : Z) : outcome (list Z) :=
  if i <? N then
    match fo with
    | O => Timeout
    | S fo' =>
        i' ← int_add i THREAD_COUNT;
        l ← indices fo' i';
        Done (i :: l)
    end
  else Done [].

(** ** The threads together *)

Variable (P : platform).

(** One step of thread [k].  At the head of the loop: the test of the
    [while], and when it holds the primality test of lines 16-24, after
    which the thread either reads its slot for the increment of line 25
    or goes on to line 27; [return NULL] when the test of the [while]
    fails.  Inside the increment: the write of line 25, then line 27.  The
    read and the write of [prime_count[thread_number]++] are two steps, so
    that other threads may run between them.  A thread that is not active
    has no step to take, and neither has a thread that does not exist. *)
Definition worker_step (fi : nat) (k : Z) (m : machine) : outcome machine :=
  if negb ((0 <=? k) && (k <? THREAD_COUNT)) then Done m else
  th ← array_get (t_array m) k;
  match th with
  | Running i thread_number =>
      if i <? N then
        b ← prime_test fi i;
        if b : bool then
          c ← array_get (prime_count m) thread_number;
          t_array' ← array_set (t_array m) k (Incrementing i thread_number c);
          Done {| pc := pc m; t_array := t_array'; prime_count := prime_count m;
                  trace := trace m |}
        else
          i' ← int_add i THREAD_COUNT;
          t_array' ← array_set (t_array m) k (Running i' thread_number);
          Done {| pc := pc m; t_array := t_array'; prime_count := prime_count m;
                  trace := trace m |}
      else
        t_array' ← array_set (t_array m) k Returned;
        Done {| pc := pc m; t_array := t_array'; prime_count := prime_count m;
                trace := trace m |}
  | Incrementing i thread_number c =>
      c' ← int_add c 1;
      prime_count' ← array_set (prime_count m) thread_number c';
      i' ← int_add i THREAD_COUNT;
      t_array' ← array_set (t_array m) k (Running i' thread_number);
      Done {| pc := pc m; t_array := t_array'; prime_count := prime_count';
              trace := trace m |}
  | _ => Done m
  end.

(** The integer that line 57 converts to [double] and divides by 1000000.
    It is computed in the type of [tv_sec], which is taken to be wide
    enough. *)
Definition elapsed_usec : Z :=
  (tv_sec (stop P) - tv_sec (start P)) * 1000000
  + tv_usec (stop P) - tv_usec (start P).

(** One step of [main].  The return value of [pthread_create] is not
    looked at: when no thread was started the slot of [t_array] keeps its
    initial value, and line 47 calls [pthread_join] on it.  POSIX leaves
    that call undefined; where the platform makes it return an error the
    error is not looked at either.  [pthread_join] on an active thread
    blocks: [main] does not move. *)
Definition main_step (m : machine) : outcome machine :=
  match pc m with
  | Line34 =>
      Done {| pc := Line42 0; t_array := t_array m; prime_count := prime_count m;
              trace := trace m ++ [Printf format_sizeof (ArgULong (sizeof_short P));
                                   Gettimeofday (start P)] |}
  | Line42 i =>
      if i <? THREAD_COUNT then
        t_array' ← (if creates P i
                    then array_set (t_array m) i (Running i i)
                    else _ ← array_get (t_array m) i; Done (t_array m));
        i' ← int_add i 1;
        Done {| pc := Line42 i'; t_array := t_array'; prime_count := prime_count m;
                trace := trace m ++ [Pthread_create i (creates P i)] |}
      else
        Done {| pc := Line46 0; t_array := t_array m; prime_count := prime_count m;
                trace := trace m |}
  | Line46 i =>
      if i <? THREAD_COUNT then
        th ← array_get (t_array m) i;
        if active th then Done m
        else if negb (joins_unstarted P) && negb (started th) then Fault
        else
          i' ← int_add i 1;
          Done {| pc := Line46 i'; t_array := t_array m;
                  prime_count := prime_count m;
                  trace := trace m ++ [Pthread_join i] |}
      else
        Done {| pc := Line50 0 0; t_array := t_array m; prime_count := prime_count m;
                trace := trace m |}
  | Line50 i primes_counted =>
      if i <? THREAD_COUNT then
        c ← array_get (prime_count m) i;
        primes_counted' ← int_add primes_counted c;
        i' ← int_add i 1;
        Done {| pc := Line50 i' primes_counted'; t_array := t_array m;
                prime_count := prime_count m; trace := trace m |}
      else
        Done {| pc := Exited 0; t_array := t_array m; prime_count := prime_count m;
                trace := trace m ++ [Printf format_count (ArgInt primes_counted);
                                     Gettimeofday (stop P);
                                     Printf format_took (ArgDouble elapsed_usec 1000000)] |}
  | Exited _ => Done m
  end.

Definition step (fi : nat) (p : pick) (m : machine) : outcome machine :=
  match p with
  | Main => main_step m
  | Worker k => worker_step fi k m
  end.

Fixpoint run (fi : nat) (schedule : list pick) (m : machine) : outcome machine :=
  match schedule with
  | [] => Done m
  | p :: schedule' => m' ← step fi p m; run fi schedule' m'
  end.

(** The state when the process starts: [int prime_count[THREAD_COUNT]={0}]
    and [pthread_t t_array[THREAD_COUNT] = {0}]. *)
Definition initial : machine :=
  {| pc := Line34;
     t_array := replicate (Z.to_nat THREAD_COUNT) Unstarted;
     prime_count := replicate (Z.to_nat THREAD_COUNT) 0;
     trace := [] |}.

(** A run of the program under a schedule. *)
Definition program (fi : nat) (schedule : list pick) : outcome machine :=
  run fi schedule initial.

(** What went to standard output: the calls of [printf], in order. *)
Definition printed (e : event) : option (string * printf_arg) :=
  match e with
  | Printf format a => Some (format, a)
  | _ => None
  end.

Definition stdout (m : machine) : list (string * printf_arg) :=
  omap printed (trace m).

(** The lines of the output.  A conversion of an integer or of a [double]
    prints no newline, so the newlines are those of the format strings. *)
Fixpoint newlines (s : string) : nat :=
  match s with
  | EmptyString => 0
  | String c s' => (if Ascii.eqb c newline then 1 else 0) + newlines s'
  end.

Definition line_count (out : list (string * printf_arg)) : nat :=
  sum_list ((fun fa => newlines (fst fa)) <$> out).

(** The body of the [while] loop executed at each value of a list in
    turn. *)
Fixpoint for_each (fi : nat) (thread_number : Z) (l : list Z) (prime_count : list Z)
  : outcome (list Z) :=
  match l with
  | [] => Done prime_count
  | i :: l' =>
      prime_count' ← loop_body fi i thread_number prime_count;
      for_each fi thread_number l' prime_count'
  end.

(** ** The specification side *)

(** The test of lines 16-24 as a total predicate: [prime_test] with the
    fuel it needs at [v]. *)
Definition isPrime (v : Z) : bool :=
  match prime_test (Z.to_nat (Z.quot v 2)) v with
  | Done b => b
  | _ => false
  end.

Definition count_primes (l : list Z) : Z :=
  Z.of_nat (length (filter (fun v => isPrime v = true) l)).

(** The naive sequential scan of [0, n): the predicate applied to every
    integer of the range, in order. *)
Definition sequential_count (n : Z) : Z := count_primes (seqZ 0 n).

(** The number of values below [N] in [i], [i + THREAD_COUNT], ...: the
    quotient of [N - i] by [THREAD_COUNT], rounded up. *)
Definition iterations (i : Z) : Z := (N - i + THREAD_COUNT - 1) / THREAD_COUNT.

(** Partition [k]: [k], [k + THREAD_COUNT], [k + 2 * THREAD_COUNT], ...
    clipped to the values below [N]. *)
Definition partition (k : Z) : list Z :=
  (fun n => k + n * THREAD_COUNT) <$> seqZ 0 (iterations k).

Definition sumZ (l : list Z) : Z := foldr Z.add 0 l.

(** What thread [k] has added to its slot when [main] reads it: the count
    of its partition when the thread was started, nothing otherwise. *)
Definition final_count (k : Z) : Z :=
  if creates P k then count_primes (partition k) else 0.

Definition final_counts : list Z := final_count <$> seqZ 0 THREAD_COUNT.

(** The events of [main], in the order of the program text. *)
Definition prologue : list event :=
  [Printf format_sizeof (ArgULong (sizeof_short P)); Gettimeofday (start P)].

Definition create_events (i : Z) : list event :=
  (fun k => Pthread_create k (creates P k)) <$> seqZ 0 i.

Definition join_events (i : Z) : list event := Pthread_join <$> seqZ 0 i.

Definition epilogue (primes_counted : Z) : list event :=
  [Printf format_count (ArgInt primes_counted); Gettimeofday (stop P);
   Printf format_took (ArgDouble elapsed_usec 1000000)].

(** ** The invariant of the machine *)

(** Thread [k] and its slot [c]: an active thread at [i] has counted the
    primes of its partition below [i], and between the read and the write
    of an increment the slot still holds the value that was read. *)
Definition thread_inv (k : Z) (th : thread) (c : Z) : Prop :=
  match th with
  | Unstarted => c = 0
  | Running i thread_number =>
      thread_number = k /\ 0 <= i <= INT_MAX /\ 0 <= c /\ creates P k = true /\
      c + count_primes (partition i) = count_primes (partition k)
  | Incrementing i thread_number c0 =>
      thread_number = k /\ 0 <= i < N /\ isPrime i = true /\ c0 = c /\
      0 <= c /\ creates P k = true /\
      c + count_primes (partition i) = count_primes (partition k)
  | Returned => creates P k = true /\ c = count_primes (partition k)
  end.

(** The steps an active thread has still to take: two for each value
    left in its partition at most, and one to return. *)
Definition thread_steps_left (th : thread) : nat :=
  match th with
  | Running i _ => Z.to_nat (2 * Z.max 0 (iterations i) + 1)
  | Incrementing i _ _ => Z.to_nat (2 * Z.max 0 (iterations i))
  | _ => O
  end.

(** The steps the threads of a list have still to take, the first of
    them being thread [k]; a thread that is not started counts as it will
    when it is. *)
Definition thread_potential (k : Z) (th : thread) : nat :=
  match th with
  | Unstarted => thread_steps_left (Running k k)
  | _ => thread_steps_left th
  end.

Fixpoint threads_steps_left (k : Z) (l : list thread) : nat :=
  match l with
  | [] => O
  | th :: l' => (thread_potential k th + threads_steps_left (k + 1) l')%nat
  end.

(** How many threads [main] has gone through in the loop of line 42 and
    in the loop of line 46. *)
Definition created_upto (l : main_pc) : Z :=
  match l with
  | Line34 => 0
  | Line42 i => i
  | _ => THREAD_COUNT
  end.

Definition joined_upto (l : main_pc) : Z :=
  match l with
  | Line34 | Line42 _ => 0
  | Line46 i => i
  | _ => THREAD_COUNT
  end.

Definition pc_inv (m : machine) : Prop :=
  match pc m with
  | Line34 => trace m = []
  | Line42 i =>
      0 <= i <= THREAD_COUNT /\ trace m = prologue ++ create_events i
  | Line46 i =>
      0 <= i <= THREAD_COUNT /\
      trace m = prologue ++ create_events THREAD_COUNT ++ join_events i
  | Line50 i primes_counted =>
      0 <= i <= THREAD_COUNT /\
      trace m = prologue ++ create_events THREAD_COUNT ++ join_events THREAD_COUNT /\
      primes_counted = sumZ (take (Z.to_nat i) (prime_count m))
  | Exited status =>
      status = 0 /\
      trace m = prologue ++ create_events THREAD_COUNT ++ join_events THREAD_COUNT
                ++ epilogue (sumZ (prime_count m))
  end.

(** The steps [main] has still to take. *)
Definition main_steps_left (l : main_pc) : nat :=
  match l with
  | Line34 => Z.to_nat (3 * THREAD_COUNT + 4)
  | Line42 i => Z.to_nat (3 * THREAD_COUNT + 3 - i)
  | Line46 i => Z.to_nat (2 * THREAD_COUNT + 2 - i)
  | Line50 i _ => Z.to_nat (THREAD_COUNT + 1 - i)
  | Exited _ => O
  end.

(** The steps the whole machine has still to take. *)
Definition steps_left (m : machine) : nat :=
  (main_steps_left (pc m) + threads_steps_left 0 (t_array m))%nat.

Record machine_inv (m : machine) : Prop := {
  inv_threads : length (t_array m) = Z.to_nat THREAD_COUNT;
  inv_counts : length (prime_count m) = Z.to_nat THREAD_COUNT;
  inv_slots : forall (k : nat) th c,
    t_array m !! k = Some th -> prime_count m !! k = Some c ->
    thread_inv (Z.of_nat k) th c;
  inv_unstarted : forall (k : nat),
    t_array m !! k = Some Unstarted ->
    created_upto (pc m) <= Z.of_nat k \/ creates P (Z.of_nat k) = false;
  inv_uncreated : forall (k : nat) th,
    t_array m !! k = Some th -> created_upto (pc m) <= Z.of_nat k -> th = Unstarted;
  inv_active : forall (k : nat) th,
    t_array m !! k = Some th -> active th = true ->
    joined_upto (pc m) <= Z.of_nat k;
  inv_pc : pc_inv m
}.

End Primes.

(** ** Sample platforms and schedules *)

(** A platform on which every thread starts, and one on which the second
    [pthread_create] fails and [pthread_join] on the missing thread returns
    an error. *)
Definition sample_platform : platform :=
  {| sizeof_short := 2;
     creates := fun _ => true;
     joins_unstarted := false;
     start := {| tv_sec := 10; tv_usec := 5 |};
     stop := {| tv_sec := 11; tv_usec := 7 |} |}.

Definition failing_platform : platform :=
  {| sizeof_short := 2;
     creates := fun i => negb (i =? 1);
     joins_unstarted := true;
     start := {| tv_sec := 10; tv_usec := 5 |};
     stop := {| tv_sec := 11; tv_usec := 7 |} |}.

(** [rounds] turns of [main] followed by each of the [threads] threads. *)
Definition round_robin (threads rounds : nat) : list pick :=
  mjoin (replicate rounds (Main :: ((fun k => Worker (Z.of_nat k)) <$> seq 0 threads))).

(** The threads one after the other, each run to its end before the next
    is created. *)
Definition one_by_one (threads steps : nat) : list pick :=
  Main :: mjoin ((fun k => Main :: replicate steps (Worker (Z.of_nat k))) <$> seq 0 threads)
  ++ replicate (2 * threads + 3) Main.

(** ** The stride of a thread *)

(** Where thread [k] can stand: at one of [k], [k + THREAD_COUNT],
    [k + 2 * THREAD_COUNT], ...; a thread that has returned has left its
    loop at a value of that progression which is an [int] and is not below
    [N]. *)
Definition thread_stride (N THREAD_COUNT k : Z) (th : thread) : Prop :=
  match th with
  | Unstarted => True
  | Running i _ | Incrementing i _ _ =>
      i mod THREAD_COUNT = k mod THREAD_COUNT /\ k <= i
  | Returned =>
      exists i, N <= i <= INT_MAX /\ i mod THREAD_COUNT = k mod THREAD_COUNT /\ k <= i
  end.

Definition stride_inv (N THREAD_COUNT : Z) (m : machine) : Prop :=
  forall (k : nat) th,
    t_array m !! k = Some th -> thread_stride N THREAD_COUNT (Z.of_nat k) th.

(** * What the other programs share *)

(** [a - b] on [int]. *)
Definition int_sub (a b : Z) : outcome Z :=
  if (INT_MIN <=? a - b) && (a - b <=? INT_MAX) then Done (a - b) else Fault.

(** [size_t] is taken to have 64 bits; its arithmetic, and the conversion
    of an integer to it, wrap around. *)
Definition SIZE_MAX : Z := 18446744073709551615.
Definition size_t (z : Z) : Z := z mod (SIZE_MAX + 1).

(** The string an array of [char] holds: the characters before the first
    null character.  Reading past the end of an array that holds none is
    undefined. *)
Fixpoint c_string (a : list Ascii.ascii) : outcome string :=
  match a with
  | [] => Fault
  | c :: a' =>
      if Ascii.eqb c Ascii.zero then Done EmptyString
      else s ← c_string a'; Done (String c s)
  end.

Definition strlen (a : list Ascii.ascii) : outcome Z :=
  s ← c_string a; Done (Z.of_nat (String.length s)).

(** The characters of [s] and a null character written to [a] from index
    [k] on, as [strcpy] and [sprintf] do. *)
Fixpoint write_string (a : list Ascii.ascii) (k : Z) (s : string)
  : outcome (list Ascii.ascii) :=
  match s with
  | EmptyString => array_set a k Ascii.zero
  | String c s' => a' ← array_set a k c; write_string a' (k + 1) s'
  end.

(** * Reversals.c: a string reversed in place, and its words *)

Module Reversals.

Import Stdlib.Strings.Ascii.

(** Lines 7-11, entered with the current values of [i] and [j]:
    [while (i > j) { char swap = input_string[i];
    input_string[i--] = input_string[j]; input_string[j++] = swap; }].
    [input_string] is the array of [char] the pointer points into, from
    the pointer on. *)
Fixpoint while_loop (fuel : nat) (input_string : list Ascii.ascii) (i j : Z)
  : outcome (list Ascii.ascii) :=
  if j <? i then
    match fuel with
    | O => Timeout
    | S fuel' =>
        swap ← array_get input_string i;
        c ← array_get input_string j;
        input_string' ← array_set input_string i c;
        i' ← int_sub i 1;
        input_string'' ← array_set input_string' j swap;
        j' ← int_add j 1;
        while_loop fuel' input_string'' i' j'
    end
  else Done input_string.

(** [void reverse(char* input_string, int length)], lines 5-12: the
    result is the array as the call leaves it. *)
Definition reverse (fuel : nat) (input_string : list Ascii.ascii) (length : Z)
  : outcome (list Ascii.ascii) :=
  i ← int_sub length 1;
  while_loop fuel input_string i 0.

(** What the C library answers.  [malloc_block bytes] is [None] when
    [malloc(bytes)] returns [NULL], and otherwise gives the character the
    fresh block happens to hold at each index.  [calloc_succeeds call n]
    tells whether, in call number [call] of [reversewords], [calloc]
    number [n] returns a block.  The C standard leaves undefined a call of
    [sprintf] whose destination is one of the strings it prints; whether
    the library still does what is expected when that string is empty is
    [empty_overlap_defined]. *)
Record libc : Type := {
  malloc_block : Z -> option (Z -> Ascii.ascii);
  calloc_succeeds : nat -> nat -> bool;
  empty_overlap_defined : bool
}.

(** A pointer to [char]: [None] is [NULL], [Some a] points to the first
    element of the array [a]. *)
Definition pointer : Type := option (list Ascii.ascii).

Definition malloc (L : libc) (bytes : Z) : pointer :=
  g ← malloc_block L bytes; Some (g <$> seqZ 0 bytes).

(** [calloc(n, sizeof(char))]: a block of null characters. *)
Definition calloc (succeeds : bool) (n : Z) : pointer :=
  if succeeds then Some (replicate (Z.to_nat (size_t n)) Ascii.zero) else None.

(** [strcpy(dst, src)]. *)
Definition strcpy (dst : pointer) (src : list Ascii.ascii)
  : outcome (list Ascii.ascii) :=
  match dst with
  | None => Fault
  | Some d => s ← c_string src; write_string d 0 s
  end.

(** [strncpy(dst, src + offset, n)]: characters are copied up to a null
    character, and null characters are written until [n] characters have
    been. *)
Fixpoint fill (n : nat) (dst : list Ascii.ascii) (d : Z) : outcome (list Ascii.ascii) :=
  match n with
  | O => Done dst
  | S n' => dst' ← array_set dst d Ascii.zero; fill n' dst' (d + 1)
  end.

Fixpoint strncpy_from (n : nat) (dst : list Ascii.ascii) (d : Z)
    (src : list Ascii.ascii) (s : Z) : outcome (list Ascii.ascii) :=
  match n with
  | O => Done dst
  | S n' =>
      c ← array_get src s;
      dst' ← array_set dst d c;
      if Ascii.eqb c Ascii.zero then fill n' dst' (d + 1)
      else strncpy_from n' dst' (d + 1) src (s + 1)
  end.

Definition strncpy (dst : pointer) (src : list Ascii.ascii) (offset n : Z)
  : outcome pointer :=
  match dst with
  | None => Fault
  | Some d =>
      d' ← strncpy_from (Z.to_nat (size_t n)) d 0 src offset; Done (Some d')
  end.

(** [sprintf(temp_string, "%s%s ", temp_string, test_string)], line 21. *)
Definition sprintf (L : libc) (temp_string test_string : pointer) : outcome pointer :=
  match temp_string, test_string with
  | Some t, Some s =>
      s1 ← c_string t;
      s2 ← c_string s;
      if String.eqb s1 "" && empty_overlap_defined L
      then t' ← write_string t 0 (s2 +:+ " "); Done (Some t')
      else Fault
  | _, _ => Fault
  end.

(** [memcpy(dst, src, n)] between arrays of [char]. *)
Definition memcpy (dst : list Ascii.ascii) (src : pointer) (n : Z)
  : outcome (list Ascii.ascii) :=
  match src with
  | None => Fault
  | Some s =>
      let n := Z.to_nat (size_t n) in
      if (n <=? length dst)%nat && (n <=? length s)%nat
      then Done (take n s ++ drop n dst)
      else Fault
  end.

(** Lines 17-26 of [reversewords], entered with the current values of
    [i], [j] and [temp_string]; [callocs] counts the calls of [calloc]:
    [while (i >= 0) { if (input_string[i] == ' ' || i == 0) {
       test_string = calloc(j - i + 1, sizeof(char));
       strncpy(test_string, input_string+(i+(i>0?1:0)),
               j - i -(i == 0 || j == length - 1 ? 0 : 1));
       sprintf(temp_string, "%s%s ", temp_string, test_string);
       j = i; free(test_string); } i--; }]. *)
Fixpoint reversewords_loop (L : libc) (succeeds : nat -> bool) (fuel callocs : nat)
    (input_string : list Ascii.ascii) (length i j : Z) (temp_string : pointer)
  : outcome pointer :=
  if 0 <=? i then
    match fuel with
    | O => Timeout
    | S fuel' =>
        c ← array_get input_string i;
        if Ascii.eqb c " "%char || (i =? 0) then
          d ← int_sub j i;
          size ← int_add d 1;
          let test_string := calloc (succeeds callocs) size in
          start ← int_add i (if 0 <? i then 1 else 0);
          less ← (if i =? 0 then Done 0
                  else last ← int_sub length 1;
                       Done (if j =? last then 0 else 1));
          n ← int_sub d less;
          test_string' ← strncpy test_string input_string start n;
          temp_string' ← sprintf L temp_string test_string';
          i' ← int_sub i 1;
          reversewords_loop L succeeds fuel' (S callocs) input_string length i' i
            temp_string'
        else
          i' ← int_sub i 1;
          reversewords_loop L succeeds fuel' callocs input_string length i' j
            temp_string
    end
  else Done temp_string.

(** [void reversewords(char* input_string, int length)], lines 14-29: the
    result is the array as the call leaves it. *)
Definition reversewords (L : libc) (succeeds : nat -> bool) (fuel : nat)
    (input_string : list Ascii.ascii) (length : Z) : outcome (list Ascii.ascii) :=
  i ← int_sub length 1;
  size ← int_add length 1;
  let temp_string := calloc (succeeds 0%nat) size in
  temp_string' ← reversewords_loop L succeeds fuel 1 input_string length i i
                   temp_string;
  memcpy input_string temp_string' length.

(** [main], lines 32-46: the result is what is written to standard
    output, line by line.  [strlen] returns a [size_t], which [reverse]
    and [reversewords] take as an [int]; the conversion of a value that is
    no [int] is left to the implementation and is [Fault] here. *)
Definition sentence : string :=
  "break a link in-life either through termination of child or through a customer".

Definition to_int (z : Z) : outcome Z :=
  if (INT_MIN <=? z) && (z <=? INT_MAX) then Done z else Fault.

Definition main (L : libc) (fuel : nat) : outcome (list string) :=
  let sentence := String.list_ascii_of_string sentence ++ [Ascii.zero] in
  n ← strlen sentence;
  let test := malloc L (size_t (n * 1)) in
  test ← strcpy test sentence;
  line1 ← c_string test;
  n ← strlen test; length ← to_int n;
  test ← reverse fuel test length;
  line2 ← c_string test;
  n ← strlen test; length ← to_int n;
  test ← reversewords L (calloc_succeeds L 0) fuel test length;
  line3 ← c_string test;
  n ← strlen test; length ← to_int n;
  test ← reversewords L (calloc_succeeds L 1) fuel test length;
  line4 ← c_string test;
  n ← strlen test; length ← to_int n;
  test ← reverse fuel test length;
  line5 ← c_string test;
  Done [line1 +:+ LF; line2 +:+ LF; line3 +:+ LF; line4 +:+ LF; line5 +:+ LF].

(** A C library that allocates what it is asked for and puts up with
    the empty overlap. *)
Definition sample_libc : libc :=
  {| malloc_block := fun _ => Some (fun _ => Ascii.ascii_of_nat 120);
     calloc_succeeds := fun _ _ => true;
     empty_overlap_defined := true |}.

End Reversals.

(** * Array Bobbins.c: an array reversed and an array shuffled *)

Module ArrayBobbins.

(** [int] has four bytes. *)
Definition sizeof_int : Z := 4.

(** [a / b] on [size_t]; division by zero is undefined. *)
Definition size_div (a b : Z) : outcome Z :=
  if b =? 0 then Fault else Done (a / b).

(** What the C library answers.  [malloc_block bytes] is [None] when
    [malloc(bytes)] returns [NULL], and otherwise gives the [int] the fresh
    block happens to hold at each index.  [dev_random] is [None] when
    ["/dev/random"] cannot be opened, and otherwise the value [seed] has
    after the [fread].  [rand_after seed n] is what call number [n] of
    [rand()] returns after [srand(seed)]. *)
Record libc : Type := {
  RAND_MAX : Z;
  malloc_block : Z -> option (Z -> Z);
  dev_random : option Z;
  rand_after : Z -> nat -> Z
}.

(** A pointer to [int]: [None] is [NULL], [Some a] points to the first
    element of the array [a]. *)
Definition pointer : Type := option (list Z).

(** [p[i]] as an rvalue and [p[i] = x]. *)
Definition load (p : pointer) (i : Z) : outcome Z :=
  match p with
  | None => Fault
  | Some a => array_get a i
  end.

Definition store (p : pointer) (i : Z) (x : Z) : outcome pointer :=
  match p with
  | None => Fault
  | Some a => a' ← array_set a i x; Done (Some a')
  end.

Section Libc.

Variable (L : libc).

(** [malloc(bytes)] seen as an array of [int]. *)
Definition malloc (bytes : Z) : pointer :=
  g ← malloc_block L bytes; Some (g <$> seqZ 0 (bytes / sizeof_int)).

(** [memcpy(dst, src, bytes)] between arrays of [int], [bytes] being a
    multiple of [sizeof(int)]; both pointers have to be valid and both
    arrays long enough. *)
Definition memcpy (dst : pointer) (src : list Z) (bytes : Z) : outcome pointer :=
  match dst with
  | None => Fault
  | Some d =>
      let n := Z.to_nat (bytes / sizeof_int) in
      if (n <=? length d)%nat && (n <=? length src)%nat
      then Done (Some (take n src ++ drop n d))
      else Fault
  end.

(** Lines 17-19 of [reverse_array], entered with the current value of
    [i]: [for (...; i > 0; i--) return_array[i - 1] = input_array[elements - i];]. *)
Fixpoint reverse_array_loop (fuel : nat) (input_array : list Z) (elements i : Z)
    (return_array : pointer) : outcome pointer :=
  if 0 <? i then
    match fuel with
    | O => Timeout
    | S fuel' =>
        x ← array_get input_array (size_t (elements - i));
        return_array' ← store return_array (size_t (i - 1)) x;
        reverse_array_loop fuel' input_array elements (size_t (i - 1)) return_array'
    end
  else Done return_array.

(** [int* reverse_array(int input_array[], size_t elements)], lines 15-21:
    the result is the pointer returned, with the array behind it. *)
Definition reverse_array (fuel : nat) (input_array : list Z) (elements : Z)
  : outcome pointer :=
  let return_array := malloc (size_t (sizeof_int * elements)) in
  reverse_array_loop fuel input_array elements elements return_array.

(** [void randomize()], lines 7-13: the result is the seed given to
    [srand].  [fread] on the null stream is undefined. *)
Definition randomize : outcome Z :=
  match dev_random L with
  | None => Fault
  | Some seed => Done seed
  end.

(** Lines 28-33 of [shuffle_array], entered with the current value of [i];
    [calls] counts the calls of [rand()] since [srand(seed)]:
    [for (...; i < elements - 1; i++) {
       size_t j = i + rand() / (RAND_MAX / (elements - i) + 1);
       int t = return_array[j]; return_array[j] = return_array[i];
       return_array[i] = t; }]. *)
Fixpoint shuffle_array_loop (fuel : nat) (seed : Z) (calls : nat) (elements i : Z)
    (return_array : pointer) : outcome pointer :=
  if i <? size_t (elements - 1) then
    match fuel with
    | O => Timeout
    | S fuel' =>
        d ← size_div (size_t (RAND_MAX L)) (size_t (elements - i));
        q ← size_div (size_t (rand_after L seed calls)) (size_t (d + 1));
        let j := size_t (i + q) in
        t ← load return_array j;
        x ← load return_array i;
        return_array' ← store return_array j x;
        return_array'' ← store return_array' i t;
        shuffle_array_loop fuel' seed (S calls) elements (size_t (i + 1)) return_array''
    end
  else Done return_array.

(** [int* shuffle_array(int *input_array, size_t elements)], lines 23-36. *)
Definition shuffle_array (fuel : nat) (input_array : list Z) (elements : Z)
  : outcome pointer :=
  let return_array := malloc (size_t (sizeof_int * elements)) in
  seed ← randomize;
  return_array' ← memcpy return_array input_array (size_t (sizeof_int * elements));
  if 1 <? elements then shuffle_array_loop fuel seed 0 elements 0 return_array'
  else Done return_array'.

End Libc.

(** A C library whose [malloc] succeeds and gives blocks full of 7,
    whose ["/dev/random"] gives the seed 42, and whose [rand()] gives
    9, 18, 27, ... modulo 32768. *)
Definition sample_libc : libc :=
  {| RAND_MAX := 32767;
     malloc_block := fun _ => Some (fun _ => 7);
     dev_random := Some 42;
     rand_after := fun seed n => (Z.of_nat (S n) * 9) mod 32768 |}.

(** One whose [malloc] fails, and one without ["/dev/random"]. *)
Definition libc_without_memory : libc :=
  {| RAND_MAX := 32767;
     malloc_block := fun _ => None;
     dev_random := Some 42;
     rand_after := fun seed n => 0 |}.

Definition libc_without_dev_random : libc :=
  {| RAND_MAX := 32767;
     malloc_block := fun _ => Some (fun _ => 7);
     dev_random := None;
     rand_after := fun seed n => 0 |}.

End ArrayBobbins.

(** * dump_bits.c: a byte in hexadecimal and in binary *)

Module DumpBits.

Import Stdlib.Strings.Ascii.

(** [char hexval[16]] and [unsigned char mask_table[]]. *)
Definition hexval : list Ascii.ascii :=
  ["0"; "1"; "2"; "3"; "4"; "5"; "6"; "7"; "8"; "9"; "a"; "b"; "c"; "d"; "e"; "f"]%char.

Definition mask_table : list Z := [1; 2; 4; 8; 16; 32; 64; 128].

(** Lines 13-19, entered with the current value of [iterator]:
    [for (...; iterator<8; iterator++) { if ((byte & mask_table[iterator]) != 0x00)
    finalhash[3+iterator]='1'; else finalhash[3+iterator]='0'; }]. *)
Fixpoint for_loop (fuel : nat) (byte iterator : Z) (finalhash : list Ascii.ascii)
  : outcome (list Ascii.ascii) :=
  if iterator <? 8 then
    match fuel with
    | O => Timeout
    | S fuel' =>
        mask ← array_get mask_table iterator;
        index ← int_add 3 iterator;
        finalhash' ← array_set finalhash index
                       (if negb (Z.land byte mask =? 0) then "1"%char else "0"%char);
        iterator' ← int_add iterator 1;
        for_loop fuel' byte iterator' finalhash'
    end
  else Done finalhash.

(** [void dumpbits(char byte)], lines 3-21: the result is what the call
    writes to standard output.  [byte] is the value of the [char], from
    -128 to 127 where [char] is signed and from 0 to 255 where it is not;
    it is promoted to [int] for [>>] and [&], and [>>] on a negative [int]
    is taken to be the arithmetic shift. *)
Definition dumpbits (fuel : nat) (byte : Z) : outcome string :=
  let finalhash := replicate 13 Ascii.zero in
  hi ← array_get hexval (Z.land (Z.shiftr byte 4) 15);
  finalhash ← array_set finalhash 0 hi;
  lo ← array_get hexval (Z.land byte 15);
  finalhash ← array_set finalhash 1 lo;
  finalhash ← array_set finalhash 2 " "%char;
  finalhash ← for_loop fuel byte 0 finalhash;
  s ← c_string finalhash;
  Done (s +:+ " ").

(** [main], line 24: [dumpbits('c')]. *)
Definition main (fuel : nat) : outcome string := dumpbits fuel 99.

(** Reading the output back: the value of the two hexadecimal digits at
    its head, and the value of the eight binary digits after the space,
    the first of them being the bit of weight 1. *)
Definition hex_value (c : Ascii.ascii) : option Z :=
  p ← list_find (fun x => x = c) hexval; Some (Z.of_nat p.1).

Definition read_hex (s : string) : option Z :=
  match s with
  | String h (String l _) =>
      x ← hex_value h; y ← hex_value l; Some (16 * x + y)
  | _ => None
  end.

Fixpoint read_bits_from (n : nat) (s : string) : option Z :=
  match n with
  | O => Some 0
  | S n' =>
      match s with
      | String c s' =>
          b ← (if Ascii.eqb c "1"%char then Some 1
               else if Ascii.eqb c "0"%char then Some 0 else None);
          v ← read_bits_from n' s';
          Some (b + 2 * v)
      | EmptyString => None
      end
  end.

Definition read_bits (s : string) : option Z :=
  match s with
  | String _ (String _ (String _ s')) => read_bits_from 8 s'
  | _ => None
  end.

End DumpBits.

(** * disk_info.c: the size of a file system *)

Module DiskInfo.

(** The fields of [struct statvfs] that are read, and [diskInfo]. *)
Record statvfs_buf : Type := { f_frsize : Z; f_blocks : Z; f_bfree : Z }.

Record diskInfo : Type := {
  size : Z;
  used : Z;
  free : Z;
  blockSize : Z;
  blocks : Z
}.

Section Platform.

(** The number of bits of [unsigned long], and what [statvfs] answers for
    a path: the value it returns and what [buf] holds after the call,
    which is anything when the call failed. *)
Variable (ulong_bits : Z).
Variable (statvfs : string -> Z * statvfs_buf).

(** Conversion to [unsigned long], and its arithmetic, wrap around. *)
Definition ulong (z : Z) : Z := z mod 2 ^ ulong_bits.

(** [diskInfo diskUsage(char * path, unsigned int function)], lines 13-29. *)
Definition diskUsage (path : string) (function : Z) : diskInfo :=
  let '(ret, buf) := statvfs path in
  let blockSize := ulong (f_frsize buf) in
  let blocks := ulong (f_blocks buf) in
  let freeblks := ulong (f_bfree buf) in
  let size := ulong (blockSize * blocks) in
  let free := ulong (blockSize * freeblks) in
  let used := ulong (size - free) in
  {| size := size; used := used; free := free;
     blockSize := blockSize; blocks := blocks |}.

End Platform.

End DiskInfo.

(** ** Arithmetic on [int] and array accesses *)

Lemma int_add_Done a b : is_int (a + b) -> int_add a b = Done (a + b).
Proof.
  unfold is_int, int_add. intros [H1 H2].
  apply Z.leb_le in H1, H2. now rewrite H1, H2.
Qed.

Lemma int_add_inv a b c : int_add a b = Done c -> c = a + b /\ is_int c.
Proof.
  unfold int_add, is_int.
  destruct (INT_MIN <=? a + b) eqn:H1; destruct (a + b <=? INT_MAX) eqn:H2;
    simpl; try discriminate.
  intros [= <-]. apply Z.leb_le in H1, H2. lia.
Qed.

(** Arithmetic goals about the range of [int]. *)
Ltac int_lia := unfold is_int, INT_MIN, INT_MAX in *; lia.

Lemma array_get_Done {A} (a : list A) i x :
  0 <= i -> a !! Z.to_nat i = Some x -> array_get a i = Done x.
Proof.
  intros Hi Hx. unfold array_get.
  destruct (i <? 0) eqn:E; [apply Z.ltb_lt in E; lia|]. now rewrite Hx.
Qed.

Lemma array_get_inv {A} (a : list A) i x :
  array_get a i = Done x -> 0 <= i /\ a !! Z.to_nat i = Some x.
Proof.
  unfold array_get. destruct (i <? 0) eqn:E; [discriminate|].
  apply Z.ltb_ge in E. destruct (a !! Z.to_nat i); [|discriminate].
  now intros [= ->].
Qed.

Lemma array_set_Done {A} (a : list A) i x :
  0 <= i < Z.of_nat (length a) -> array_set a i x = Done (<[Z.to_nat i := x]> a).
Proof.
  intros [H1 H2]. unfold array_set.
  apply Z.leb_le in H1. apply Z.ltb_lt in H2. now rewrite H1, H2.
Qed.

Lemma array_set_inv {A} (a a' : list A) i x :
  array_set a i x = Done a' ->
  0 <= i < Z.of_nat (length a) /\ a' = <[Z.to_nat i := x]> a.
Proof.
  unfold array_set.
  destruct (0 <=? i) eqn:H1; destruct (i <? Z.of_nat (length a)) eqn:H2;
    simpl; try discriminate.
  intros [= <-]. apply Z.leb_le in H1. apply Z.ltb_lt in H2. auto.
Qed.

Lemma bind_Done_inv {A B} (x : outcome A) (f : A -> outcome B) b :
  x ≫= f = Done b -> exists a, x = Done a /\ f a = Done b.
Proof. destruct x; simpl; try discriminate. eauto. Qed.

Lemma quot2_nonneg i : 0 <= i -> Z.quot i 2 = i / 2.
Proof. intros. apply Z.quot_div_nonneg; lia. Qed.

Lemma quot2_neg i : i < 0 -> Z.quot i 2 <= 0.
Proof.
  intros Hi. pose proof (Z.quot_rem' i 2).
  pose proof (Z.rem_bound_pos_neg i 2 ltac:(lia) ltac:(lia)). lia.
Qed.

Lemma quot2_le i : 2 * Z.quot i 2 <= Z.max i 0.
Proof.
  destruct (Z.le_gt_cases 0 i) as [Hi|Hi].
  - rewrite quot2_nonneg by lia. pose proof (Z.mul_div_le i 2); lia.
  - pose proof (quot2_neg i); lia.
Qed.

(** ** The inner loop *)

(** With one unit of fuel for each candidate up to [i / 2] the loop ends;
    it ends at the first [j'] that divides [i], or past [i / 2] when there
    is none. *)
Lemma for_loop_spec fuel : forall i j,
  2 <= j -> i <= INT_MAX -> Z.quot i 2 + 1 - j <= Z.of_nat fuel ->
  exists flag j',
    for_loop fuel i j = Done (flag, j') /\ j <= j' /\
    (forall d, j <= d < j' -> Z.rem i d <> 0) /\
    ((flag = 1 /\ j' <= Z.quot i 2 /\ Z.rem i j' = 0) \/
     (flag = 0 /\ Z.quot i 2 < j' /\ j' = Z.max j (Z.quot i 2 + 1))).
Proof.
  induction fuel as [|fuel IH]; intros i j Hj Hi Hfuel; simpl.
  - destruct (j <=? Z.quot i 2) eqn:E; [apply Z.leb_le in E; lia|].
    apply Z.leb_gt in E. exists 0, j.
    split; [reflexivity|]. split; [lia|]. split; [intros; lia|]. right; lia.
  - destruct (j <=? Z.quot i 2) eqn:E.
    + apply Z.leb_le in E. destruct (Z.rem i j =? 0) eqn:R.
      * apply Z.eqb_eq in R. exists 1, j.
        split; [reflexivity|]. split; [lia|]. split; [intros; lia|]. left; auto.
      * apply Z.eqb_neq in R.
        pose proof (quot2_le i) as Hq.
        rewrite int_add_Done by int_lia.
        simpl. destruct (IH i (j + 1)) as (flag & j' & Hr & Hle & Hnd & Hcase);
          [lia | lia | lia |].
        exists flag, j'. split; [exact Hr|]. split; [lia|]. split.
        -- intros d Hd. destruct (Z.eq_dec d j) as [->|?]; [exact R|].
           apply Hnd. lia.
        -- destruct Hcase as [?|(?&?&?)]; [left; tauto| right; lia].
    + apply Z.leb_gt in E. exists 0, j.
      split; [reflexivity|]. split; [lia|]. split; [intros; lia|]. right; lia.
Qed.

(** More fuel does not change a result. *)
Lemma for_loop_fuel_mono fuel : forall fuel' i j r,
  for_loop fuel i j = Done r -> (fuel <= fuel')%nat -> for_loop fuel' i j = Done r.
Proof.
  induction fuel as [|fuel IH]; intros fuel' i j r Hr Hle.
  - destruct fuel'; simpl in *; destruct (j <=? Z.quot i 2); congruence.
  - destruct fuel' as [|fuel']; [lia|]. simpl in *.
    destruct (j <=? Z.quot i 2); [|exact Hr].
    destruct (Z.rem i j =? 0); [exact Hr|].
    destruct (int_add j 1) as [j'| |]; simpl in *; try discriminate.
    apply IH; [exact Hr | lia].
Qed.

(** The scan stops at the first divisor: when [d] is the least divisor of
    [i] from [j] on, the loop leaves with [flag = 1] and [j = d] after
    [d - j + 1] executions of its body, whatever fuel is left. *)
Lemma for_loop_first_divisor n : forall i j d fuel,
  2 <= j -> i <= INT_MAX -> d = j + Z.of_nat n -> d <= Z.quot i 2 ->
  (forall e, j <= e < d -> Z.rem i e <> 0) -> Z.rem i d = 0 ->
  (n < fuel)%nat -> for_loop fuel i j = Done (1, d).
Proof.
  induction n as [|n IH]; intros i j d fuel Hj Hi Hd Hq Hnd Hrem Hfuel;
    (destruct fuel as [|fuel]; [lia|]); simpl.
  - assert (d = j) as -> by lia.
    apply Z.leb_le in Hq. rewrite Hq. apply Z.eqb_eq in Hrem. now rewrite Hrem.
  - assert (E : (j <=? Z.quot i 2) = true) by (apply Z.leb_le; lia). rewrite E.
    assert (R : (Z.rem i j =? 0) = false) by (apply Z.eqb_neq, Hnd; lia). rewrite R.
    pose proof (quot2_le i).
    rewrite int_add_Done by int_lia. simpl.
    apply IH; try lia; try assumption. intros e He. apply Hnd. lia.
Qed.

(** Short of that, the fuel runs out. *)
Lemma for_loop_timeout fuel : forall i j,
  2 <= j -> i <= INT_MAX -> j + Z.of_nat fuel <= Z.quot i 2 ->
  (forall e, j <= e < j + Z.of_nat fuel -> Z.rem i e <> 0) ->
  for_loop fuel i j = Timeout.
Proof.
  induction fuel as [|fuel IH]; intros i j Hj Hi Hq Hnd; simpl.
  - assert (E : (j <=? Z.quot i 2) = true) by (apply Z.leb_le; lia). now rewrite E.
  - assert (E : (j <=? Z.quot i 2) = true) by (apply Z.leb_le; lia). rewrite E.
    assert (R : (Z.rem i j =? 0) = false) by (apply Z.eqb_neq, Hnd; lia). rewrite R.
    pose proof (quot2_le i).
    rewrite int_add_Done by int_lia. simpl.
    apply IH; try lia. intros e He. apply Hnd. lia.
Qed.

(** ** The primality test *)

Lemma prime_test_fuel_mono fuel fuel' i b :
  prime_test fuel i = Done b -> (fuel <= fuel')%nat -> prime_test fuel' i = Done b.
Proof.
  unfold prime_test. intros H Hle.
  apply bind_Done_inv in H as ([flag j] & H1 & H2).
  now rewrite (for_loop_fuel_mono _ _ _ _ _ H1 Hle).
Qed.

Lemma prime_test_Done fuel i :
  i <= INT_MAX -> Z.quot i 2 - 1 <= Z.of_nat fuel ->
  exists b, prime_test fuel i = Done b.
Proof.
  intros Hi Hfuel. unfold prime_test.
  destruct (for_loop_spec fuel i 2) as (flag & j' & Hr & _); [lia..|].
  rewrite Hr. simpl. eauto.
Qed.

Lemma prime_test_isPrime fuel i b :
  prime_test fuel i = Done b -> i <= INT_MAX -> b = isPrime i.
Proof.
  intros H Hi. unfold isPrime.
  destruct (prime_test_Done (Z.to_nat (Z.quot i 2)) i) as [b' Hb']; [lia..|].
  rewrite Hb'.
  destruct (Nat.le_ge_cases fuel (Z.to_nat (Z.quot i 2))) as [Hle|Hle].
  - rewrite (prime_test_fuel_mono _ _ _ _ H Hle) in Hb'. congruence.
  - rewrite (prime_test_fuel_mono _ _ _ _ Hb' Hle) in H. congruence.
Qed.

Lemma prime_test_enough fuel i :
  i <= INT_MAX -> Z.quot i 2 - 1 <= Z.of_nat fuel ->
  prime_test fuel i = Done (isPrime i).
Proof.
  intros Hi Hfuel. destruct (prime_test_Done fuel i Hi Hfuel) as [b Hb].
  now rewrite Hb, (prime_test_isPrime _ _ _ Hb Hi).
Qed.

(** The test is trial division: [v] passes when it is at least 2 and no
    integer from 2 to [v / 2] divides it. *)
Lemma isPrime_spec v :
  v <= INT_MAX ->
  isPrime v = true <-> 2 <= v /\ forall d, 2 <= d <= v / 2 -> v mod d <> 0.
Proof.
  intros Hv.
  pose proof (prime_test_enough (Z.to_nat (Z.quot v 2)) v Hv ltac:(lia)) as Ht.
  unfold prime_test in Ht.
  destruct (for_loop_spec (Z.to_nat (Z.quot v 2)) v 2) as (flag & j' & Hr & Hle & Hnd & Hcase);
    [lia..|].
  rewrite Hr in Ht. simpl in Ht. injection Ht as Ht. rewrite <- Ht. clear Ht.
  rewrite andb_true_iff, Z.eqb_eq, Z.ltb_lt.
  destruct (Z.le_gt_cases 2 v) as [H2|H2]; [|lia].
  rewrite quot2_nonneg in * by lia.
  split.
  - intros [Hf _]. split; [lia|]. intros d Hd.
    rewrite <- Z.rem_mod_nonneg by lia. apply Hnd. lia.
  - intros [_ Hall]. split; [|lia].
    destruct Hcase as [(_ & Hj' & Hrem)|(? & _)]; [|assumption].
    exfalso. apply (Hall j'); [lia|]. rewrite <- Z.rem_mod_nonneg by lia. exact Hrem.
Qed.


(** The integers that pass the test are the prime numbers. *)
Lemma isPrime_prime v : v <= INT_MAX -> isPrime v = true <-> Z.prime v.
Proof.
  intros Hv. rewrite isPrime_spec by assumption. unfold Z.prime. split.
  - intros [H2 Hall]. split; [lia|]. intros n Hn [q Hq].
    apply (Hall n).
    + assert (2 <= q) by nia.
      split; [lia|]. apply Z.div_le_lower_bound; [lia|]. nia.
    + rewrite Hq. apply Z.mod_mul. lia.
  - intros [H1 Hnd]. split; [lia|]. intros d Hd Hmod.
    apply (Hnd d).
    + pose proof (Z.div_lt v 2 ltac:(lia) ltac:(lia)). lia.
    + apply Z.mod_divide; [lia | assumption].
Qed.

(** ** Counting *)

Lemma count_primes_nil : count_primes [] = 0.
Proof. reflexivity. Qed.

Lemma count_primes_cons v l :
  count_primes (v :: l) = (if isPrime v then 1 else 0) + count_primes l.
Proof.
  unfold count_primes. rewrite filter_cons.
  destruct (decide (isPrime v = true)) as [E|E].
  - rewrite E. simpl length. lia.
  - destruct (isPrime v); [congruence|]. lia.
Qed.

Lemma count_primes_app l1 l2 :
  count_primes (l1 ++ l2) = count_primes l1 + count_primes l2.
Proof. unfold count_primes. rewrite filter_app, length_app. lia. Qed.

Lemma count_primes_bounds l : 0 <= count_primes l <= Z.of_nat (length l).
Proof. unfold count_primes. pose proof (length_filter (fun v => isPrime v = true) l). lia. Qed.

Lemma count_primes_perm l1 l2 : l1 ≡ₚ l2 -> count_primes l1 = count_primes l2.
Proof. intros H. unfold count_primes. now rewrite H. Qed.

Lemma count_primes_bind {A} (f : A -> list Z) (l : list A) :
  count_primes (l ≫= f) = sumZ ((fun x => count_primes (f x)) <$> l).
Proof.
  induction l as [|x l IH]; [reflexivity|].
  rewrite bind_cons, count_primes_app, IH. reflexivity.
Qed.

(** ** The partitions *)

Section Partitions.

Variables (N T : Z).
Hypothesis T_pos : 0 < T.

Lemma iterations_step i : i < N -> iterations N T i = 1 + iterations N T (i + T).
Proof.
  intros Hi. unfold iterations.
  replace (N - i + T - 1) with (N - i - 1 + 1 * T) by lia.
  rewrite Z.div_add by lia.
  replace (N - (i + T) + T - 1) with (N - i - 1) by lia. lia.
Qed.

Lemma iterations_nonneg i : i < N -> 0 <= iterations N T (i + T).
Proof.
  intros Hi. unfold iterations.
  replace (N - (i + T) + T - 1) with (N - i - 1) by lia.
  apply Z.div_pos; lia.
Qed.

Lemma iterations_done i : N <= i -> iterations N T i <= 0.
Proof.
  intros Hi. unfold iterations.
  assert ((N - i + T - 1) / T < 1); [|lia].
  apply Z.div_lt_upper_bound; lia.
Qed.

(** The bound of the iteration count: the quotient of [N] by [T], rounded
    up, for every starting index that is not negative. *)
Lemma iterations_le k : 0 <= k -> iterations N T k <= (N + T - 1) / T.
Proof. intros Hk. unfold iterations. apply Z.div_le_mono; lia. Qed.

Lemma iterations_le_N k : 0 < N -> 0 <= k -> iterations N T k <= N.
Proof.
  intros HN Hk. unfold iterations.
  assert ((N - k + T - 1) / T < N + 1); [|lia].
  apply Z.div_lt_upper_bound; nia.
Qed.

Lemma partition_nil i : N <= i -> partition N T i = [].
Proof.
  intros Hi. unfold partition. now rewrite seqZ_nil by (apply iterations_done, Hi).
Qed.

Lemma partition_cons i : i < N -> partition N T i = i :: partition N T (i + T).
Proof.
  intros Hi. unfold partition.
  pose proof (iterations_nonneg i Hi).
  rewrite (iterations_step i Hi), seqZ_cons by lia.
  rewrite fmap_cons. f_equal; [lia|].
  replace (Z.pred (1 + iterations N T (i + T))) with (iterations N T (i + T)) by lia.
  change (Z.succ 0) with (1 + 0).
  rewrite <- fmap_add_seqZ, <- list_fmap_compose.
  apply list_fmap_ext. intros _ n _. simpl. lia.
Qed.

Lemma length_partition i : length (partition N T i) = Z.to_nat (iterations N T i).
Proof. unfold partition. now rewrite length_fmap, length_seqZ. Qed.

Lemma elem_of_partition k v :
  v ∈ partition N T k <-> exists n, 0 <= n /\ v = k + n * T /\ v < N.
Proof.
  unfold partition. rewrite list_elem_of_fmap. setoid_rewrite elem_of_seqZ.
  assert (Hit : forall n, 0 <= n -> n < iterations N T k <-> k + n * T < N).
  { intros n Hn. unfold iterations. split; intros H.
    - pose proof (Z.mul_div_le (N - k + T - 1) T T_pos). nia.
    - assert (n + 1 <= (N - k + T - 1) / T); [|lia].
      apply Z.div_le_lower_bound; nia. }
  split.
  - intros (n & -> & Hn). exists n. split; [lia|]. split; [reflexivity|].
    apply Hit; lia.
  - intros (n & Hn & -> & Hlt). exists n. split; [reflexivity|].
    split; [lia|]. simpl. apply Hit; lia.
Qed.

(** Partition [k] holds the integers of [0, N) that leave the remainder
    [k] in the division by [T]. *)
Lemma elem_of_partition_mod k v :
  0 <= k < T -> v ∈ partition N T k <-> 0 <= v < N /\ v mod T = k.
Proof.
  intros Hk. rewrite elem_of_partition. split.
  - intros (n & Hn & -> & Hlt). split; [nia|].
    rewrite Z.mod_add by lia. apply Z.mod_small; lia.
  - intros [Hv Hmod]. exists (v / T).
    pose proof (Z.div_mod v T ltac:(lia)).
    split; [apply Z.div_pos; lia|]. split; [lia|lia].
Qed.

Lemma NoDup_partition k : NoDup (partition N T k).
Proof.
  unfold partition. apply NoDup_fmap_2_strong; [|apply NoDup_seqZ].
  intros n1 n2 _ _ H. nia.
Qed.

Lemma partition_disjoint k1 k2 v :
  0 <= k1 < T -> 0 <= k2 < T ->
  v ∈ partition N T k1 -> v ∈ partition N T k2 -> k1 = k2.
Proof.
  intros H1 H2 Hv1 Hv2.
  apply elem_of_partition_mod in Hv1, Hv2; try assumption. lia.
Qed.

(** Laid end to end the [T] partitions are a rearrangement of
    [0; 1; ...; N - 1]. *)
Lemma partitions_perm : seqZ 0 T ≫= partition N T ≡ₚ seqZ 0 N.
Proof.
  apply NoDup_Permutation.
  - apply NoDup_bind; [| intros; apply NoDup_partition | apply NoDup_seqZ].
    intros k1 k2 v Hk1%elem_of_seqZ Hk2%elem_of_seqZ.
    apply partition_disjoint; lia.
  - apply NoDup_seqZ.
  - intros v. rewrite list_elem_of_bind, elem_of_seqZ. split.
    + intros (k & Hv & Hk%elem_of_seqZ).
      apply elem_of_partition_mod in Hv; lia.
    + intros Hv. exists (v mod T).
      pose proof (Z.mod_pos_bound v T T_pos).
      split; [apply elem_of_partition_mod; lia | apply elem_of_seqZ; lia].
Qed.

(** The counts of the partitions add up to the count of the sequential
    scan. *)
Lemma partition_counts_sum :
  sumZ ((fun k => count_primes (partition N T k)) <$> seqZ 0 T) = sequential_count N.
Proof.
  rewrite <- count_primes_bind. unfold sequential_count.
  apply count_primes_perm, partitions_perm.
Qed.

End Partitions.

(** ** One thread on its own *)

Lemma loop_body_spec fi i tn pc0 c :
  i <= INT_MAX -> Z.quot i 2 - 1 <= Z.of_nat fi ->
  0 <= tn -> pc0 !! Z.to_nat tn = Some c -> (isPrime i = true -> is_int (c + 1)) ->
  loop_body fi i tn pc0 =
    Done (if isPrime i then <[Z.to_nat tn := c + 1]> pc0 else pc0).
Proof.
  intros Hi Hfi Htn Hc Hint. unfold loop_body.
  rewrite prime_test_enough by assumption. simpl.
  destruct (isPrime i); [|reflexivity].
  rewrite (array_get_Done _ _ _ Htn Hc). simpl.
  rewrite int_add_Done by auto. simpl.
  apply array_set_Done. apply lookup_lt_Some in Hc. lia.
Qed.

(** The body writes to the slot of its thread and to no other. *)
Lemma loop_body_frame fi i tn pc0 pc1 :
  loop_body fi i tn pc0 = Done pc1 ->
  length pc1 = length pc0 /\
  forall j, j <> Z.to_nat tn -> pc1 !! j = pc0 !! j.
Proof.
  unfold loop_body. intros H.
  apply bind_Done_inv in H as (b & Hb & H). destruct b.
  - apply bind_Done_inv in H as (c & Hc & H).
    apply bind_Done_inv in H as (c' & Hc' & H).
    apply array_set_inv in H as [_ ->]. split; [apply length_insert|].
    intros j Hj. now apply list_lookup_insert_ne.
  - injection H as <-. auto.
Qed.

Lemma while_loop_frame fo : forall fi i tn pc0 pc1 N T,
  while_loop N T fo fi i tn pc0 = Done pc1 ->
  length pc1 = length pc0 /\
  forall j, j <> Z.to_nat tn -> pc1 !! j = pc0 !! j.
Proof.
  induction fo as [|fo IH]; intros fi i tn pc0 pc1 N T H; simpl in H.
  - destruct (i <? N); [discriminate|]. injection H as <-. auto.
  - destruct (i <? N); [|injection H as <-; auto].
    apply bind_Done_inv in H as (pc' & Hb & H).
    apply bind_Done_inv in H as (i' & Hi' & H).
    apply loop_body_frame in Hb as [Hl Hf].
    apply IH in H as [Hl' Hf']. split; [congruence|].
    intros j Hj. rewrite Hf', Hf by assumption. reflexivity.
Qed.

Section Worker.

Variables (N T : Z).
Hypothesis T_pos : 0 < T.
Hypothesis no_overflow : N + T <= INT_MAX + 1.

Lemma inner_fuel_enough fi i :
  N / 2 - 1 <= Z.of_nat fi -> i < N -> Z.quot i 2 - 1 <= Z.of_nat fi.
Proof.
  intros Hfi Hi. destruct (Z.le_gt_cases 0 i) as [H0|H0].
  - rewrite quot2_nonneg by lia.
    pose proof (Z.div_le_mono i N 2 ltac:(lia) ltac:(lia)). lia.
  - pose proof (quot2_neg i H0). lia.
Qed.

(** The values of [i] at the head of the loop are the partition, with a
    unit of fuel for each of them. *)
Lemma indices_spec fo : forall i,
  0 <= i -> iterations N T i <= Z.of_nat fo ->
  indices N T fo i = Done (partition N T i).
Proof.
  induction fo as [|fo IH]; intros i Hi Hfo; simpl.
  - destruct (i <? N) eqn:E.
    + apply Z.ltb_lt in E. pose proof (iterations_step N T T_pos i E).
      pose proof (iterations_nonneg N T T_pos i E). lia.
    + apply Z.ltb_ge in E. now rewrite partition_nil.
  - destruct (i <? N) eqn:E.
    + apply Z.ltb_lt in E. pose proof (iterations_step N T T_pos i E).
      rewrite int_add_Done by int_lia. simpl.
      rewrite IH by lia. simpl. now rewrite (partition_cons N T T_pos i E).
    + apply Z.ltb_ge in E. now rewrite partition_nil.
Qed.

Lemma indices_inv fo : forall i l,
  indices N T fo i = Done l -> l = partition N T i.
Proof.
  induction fo as [|fo IH]; intros i l H; simpl in H.
  - destruct (i <? N) eqn:E; [discriminate|].
    apply Z.ltb_ge in E. rewrite partition_nil by assumption. congruence.
  - destruct (i <? N) eqn:E.
    + apply Z.ltb_lt in E.
      apply bind_Done_inv in H as (i' & Hi' & H).
      apply bind_Done_inv in H as (l' & Hl' & H).
      apply int_add_inv in Hi' as [-> _]. apply IH in Hl' as ->.
      rewrite (partition_cons N T T_pos i E). congruence.
    + apply Z.ltb_ge in E. rewrite partition_nil by assumption. congruence.
Qed.

(** With fuel for its iterations the loop ends, and has added to the slot
    of the thread the number of primes among the values it went through. *)
Lemma while_loop_spec fo : forall fi i tn pc0 c,
  N / 2 - 1 <= Z.of_nat fi -> iterations N T i <= Z.of_nat fo ->
  0 <= i -> 0 <= tn -> pc0 !! Z.to_nat tn = Some c ->
  0 <= c -> c + count_primes (partition N T i) <= INT_MAX ->
  while_loop N T fo fi i tn pc0 =
    Done (<[Z.to_nat tn := c + count_primes (partition N T i)]> pc0).
Proof.
  induction fo as [|fo IH]; intros fi i tn pc0 c Hfi Hfo Hi Htn Hc Hc0 Hmax; simpl.
  - destruct (i <? N) eqn:E.
    + apply Z.ltb_lt in E. pose proof (iterations_step N T T_pos i E).
      pose proof (iterations_nonneg N T T_pos i E). lia.
    + apply Z.ltb_ge in E. rewrite partition_nil, count_primes_nil by assumption.
      rewrite Z.add_0_r. now rewrite list_insert_id.
  - destruct (i <? N) eqn:E.
    + apply Z.ltb_lt in E. pose proof (iterations_step N T T_pos i E).
      rewrite (partition_cons N T T_pos i E), count_primes_cons in *.
      pose proof (count_primes_bounds (partition N T (i + T))).
      assert (Hint : isPrime i = true -> is_int (c + 1))
        by (intros Hp; rewrite Hp in Hmax; int_lia).
      assert (Hb : exists pc1, loop_body fi i tn pc0 = Done pc1 /\
                 pc1 !! Z.to_nat tn = Some (c + if isPrime i then 1 else 0) /\
                 <[Z.to_nat tn :=
                    c + ((if isPrime i then 1 else 0) + count_primes (partition N T (i + T)))]> pc0
                 = <[Z.to_nat tn :=
                    c + (if isPrime i then 1 else 0) + count_primes (partition N T (i + T))]> pc1).
      { destruct (isPrime i) eqn:Hp.
        - exists (<[Z.to_nat tn := c + 1]> pc0).
          rewrite (loop_body_spec fi i tn pc0 c), Hp;
            [| int_lia | apply inner_fuel_enough; assumption
             | assumption | assumption | intros _; apply Hint; reflexivity].
          split; [reflexivity|]. split.
          + apply list_lookup_insert_eq. now apply lookup_lt_Some in Hc.
          + rewrite list_insert_insert_eq. f_equal. lia.
        - exists pc0.
          unfold loop_body.
          rewrite prime_test_enough, Hp;
            [| int_lia | apply inner_fuel_enough; assumption].
          split; [reflexivity|]. split; [rewrite Hc; f_equal; lia | f_equal; lia]. }
      destruct Hb as (pc1 & -> & Hc1 & ->). simpl.
      rewrite int_add_Done by int_lia. simpl.
      apply IH; try assumption; try lia.
      destruct (isPrime i); lia.
    + apply Z.ltb_ge in E. rewrite partition_nil, count_primes_nil by assumption.
      rewrite Z.add_0_r. now rewrite list_insert_id.
Qed.

End Worker.

(** ** The invariant holds along every run *)

Lemma sumZ_app l1 l2 : sumZ (l1 ++ l2) = sumZ l1 + sumZ l2.
Proof. induction l1 as [|x l1 IH]; simpl; [reflexivity|]. rewrite IH. lia. Qed.

Lemma sumZ_nonneg l : Forall (fun x => 0 <= x) l -> 0 <= sumZ l.
Proof. induction 1; simpl; lia. Qed.

Lemma sumZ_le l1 l2 : Forall2 Z.le l1 l2 -> sumZ l1 <= sumZ l2.
Proof. induction 1; simpl; lia. Qed.

Lemma seqZ_snoc i : 0 <= i -> seqZ 0 (i + 1) = seqZ 0 i ++ [i].
Proof.
  intros Hi. rewrite seqZ_app by lia. reflexivity.
Qed.

Section Machine.

Variables (N T : Z) (P : platform).
Hypothesis N_pos : 0 < N.
Hypothesis T_pos : 0 < T.
Hypothesis no_overflow : N + T <= INT_MAX + 1.

Lemma initial_inv : machine_inv N T P (initial T).
Proof.
  constructor; simpl.
  - apply length_replicate.
  - apply length_replicate.
  - intros k th c [-> _]%lookup_replicate [-> _]%lookup_replicate. reflexivity.
  - intros k _. left. lia.
  - intros k th [-> _]%lookup_replicate _. reflexivity.
  - intros k th [-> _]%lookup_replicate. discriminate.
  - reflexivity.
Qed.

(** An active thread moves on, or returns: the invariant is kept when the
    new state of the thread and the new value of its slot agree, and the
    other slots are as before. *)
Lemma thread_update_inv m (k : nat) th th' pc1 :
  machine_inv N T P m ->
  t_array m !! k = Some th -> active th = true ->
  th' <> Unstarted ->
  length pc1 = length (prime_count m) ->
  (forall j, j <> k -> pc1 !! j = prime_count m !! j) ->
  (forall c', pc1 !! k = Some c' -> thread_inv N T P (Z.of_nat k) th' c') ->
  machine_inv N T P
    {| pc := pc m; t_array := <[k := th']> (t_array m); prime_count := pc1;
       trace := trace m |}.
Proof.
  intros [Hlt Hlc Hslots Hun Hunc Hrun Hpc] Hk Hact Hth' Hlen Hframe Hnew.
  pose proof (lookup_lt_Some _ _ _ Hk) as Hklt.
  pose proof (Hrun _ _ Hk Hact) as Hjoined.
  constructor; simpl.
  - now rewrite length_insert.
  - congruence.
  - intros k' th0 c Ht Hc. destruct (decide (k' = k)) as [->|Hne].
    + rewrite list_lookup_insert_eq in Ht by assumption.
      injection Ht as <-. now apply Hnew.
    + rewrite list_lookup_insert_ne in Ht by congruence.
      rewrite Hframe in Hc by assumption. eauto.
  - intros k' Ht. destruct (decide (k' = k)) as [->|Hne].
    + rewrite list_lookup_insert_eq in Ht by assumption. congruence.
    + rewrite list_lookup_insert_ne in Ht by congruence. eauto.
  - intros k' th0 Ht Hc. destruct (decide (k' = k)) as [->|Hne].
    + specialize (Hunc _ _ Hk Hc). subst th. discriminate.
    + rewrite list_lookup_insert_ne in Ht by congruence. eauto.
  - intros k' th0 Ht Hact0. destruct (decide (k' = k)) as [->|Hne]; [assumption|].
    rewrite list_lookup_insert_ne in Ht by congruence. eauto.
  - unfold pc_inv in *. simpl.
    destruct (pc m) eqn:E; simpl in *; try assumption; lia.
Qed.

Lemma worker_step_inv fi k m m' :
  machine_inv N T P m -> worker_step N T fi k m = Done m' -> machine_inv N T P m'.
Proof.
  intros Hinv H. unfold worker_step in H.
  destruct (negb _) eqn:Hguard; [now injection H as <-|].
  apply negb_false_iff, andb_true_iff in Hguard as [Hk0%Z.leb_le HkT%Z.ltb_lt].
  apply bind_Done_inv in H as (th & Hth & H).
  apply array_get_inv in Hth as [_ Hth].
  pose proof (lookup_lt_Some _ _ _ Hth) as Hklt.
  destruct (lookup_lt_is_Some_2 (prime_count m) (Z.to_nat k)) as [c Hc];
    [rewrite (inv_counts _ _ _ _ Hinv), <- (inv_threads _ _ _ _ Hinv); exact Hklt|].
  pose proof (inv_slots _ _ _ _ Hinv _ _ _ Hth Hc) as Hslot.
  rewrite Z2Nat.id in Hslot by assumption.
  destruct th as [|i tn|i tn c0|]; simpl in Hslot; try (now injection H as <-).
  - (* at the head of the loop *)
    destruct Hslot as (-> & Hi0 & Hc0 & Hcr & Hsum).
    destruct (i <? N) eqn:E.
    + apply Z.ltb_lt in E.
      rewrite (partition_cons N T T_pos i E), count_primes_cons in Hsum.
      apply bind_Done_inv in H as (b & Hb & H).
      apply prime_test_isPrime in Hb as ->; [|lia].
      destruct (isPrime i) eqn:Hp.
      * apply bind_Done_inv in H as (c' & Hc' & H).
        apply bind_Done_inv in H as (t' & Ht' & H).
        apply array_get_inv in Hc' as [_ Hc']. rewrite Hc in Hc'. injection Hc' as <-.
        apply array_set_inv in Ht' as [_ ->]. injection H as <-.
        apply (thread_update_inv m (Z.to_nat k) (Running i k)); try assumption;
          [reflexivity | discriminate | reflexivity | reflexivity |].
        intros c' Hc'. rewrite Hc in Hc'. injection Hc' as <-. simpl.
        rewrite Z2Nat.id by assumption.
        rewrite (partition_cons N T T_pos i E), count_primes_cons, Hp.
        repeat split; try assumption; lia.
      * apply bind_Done_inv in H as (i' & Hi' & H).
        apply bind_Done_inv in H as (t' & Ht' & H).
        apply int_add_inv in Hi' as [-> Hint].
        apply array_set_inv in Ht' as [_ ->]. injection H as <-.
        apply (thread_update_inv m (Z.to_nat k) (Running i k)); try assumption;
          [reflexivity | discriminate | reflexivity | reflexivity |].
        intros c' Hc'. rewrite Hc in Hc'. injection Hc' as <-. simpl.
        rewrite Z2Nat.id by assumption. unfold is_int in Hint.
        repeat split; try assumption; lia.
    + apply Z.ltb_ge in E.
      apply bind_Done_inv in H as (t' & Ht' & H).
      apply array_set_inv in Ht' as [_ ->]. injection H as <-.
      apply (thread_update_inv m (Z.to_nat k) (Running i k)); try assumption;
        [reflexivity | discriminate | reflexivity | reflexivity |].
      intros c' Hc'. simpl. rewrite Z2Nat.id by assumption.
      rewrite (partition_nil N T T_pos i E), count_primes_nil in Hsum.
      rewrite Hc in Hc'. injection Hc' as <-. split; [assumption | lia].
  - (* inside the increment *)
    destruct Hslot as (-> & Hi & Hp & -> & Hc0 & Hcr & Hsum).
    rewrite (partition_cons N T T_pos i (proj2 Hi)), count_primes_cons, Hp in Hsum.
    apply bind_Done_inv in H as (c' & Hc' & H).
    apply bind_Done_inv in H as (pc1 & Hpc1 & H).
    apply bind_Done_inv in H as (i' & Hi' & H).
    apply bind_Done_inv in H as (t' & Ht' & H).
    apply int_add_inv in Hc' as [-> _]. apply int_add_inv in Hi' as [-> Hint].
    apply array_set_inv in Hpc1 as [_ ->].
    apply array_set_inv in Ht' as [_ ->]. injection H as <-.
    apply (thread_update_inv m (Z.to_nat k) (Incrementing i k c)); try assumption;
      [reflexivity | discriminate | apply length_insert
       | intros j Hj; now apply list_lookup_insert_ne |].
    intros c' Hc'.
    rewrite list_lookup_insert_eq in Hc' by (now apply lookup_lt_Some in Hc).
    injection Hc' as <-. simpl. rewrite Z2Nat.id by assumption.
    unfold is_int in Hint. repeat split; try assumption; lia.
Qed.

Lemma lookup_final_counts (k : nat) :
  (k < Z.to_nat T)%nat ->
  final_counts N T P !! k = Some (final_count N T P (Z.of_nat k)).
Proof.
  intros Hk. unfold final_counts.
  rewrite list_lookup_fmap, lookup_seqZ_lt by lia. reflexivity.
Qed.

Lemma final_count_bounds k :
  0 <= final_count N T P k <= count_primes (partition N T k).
Proof.
  unfold final_count. pose proof (count_primes_bounds (partition N T k)).
  destruct (creates P k); lia.
Qed.

Lemma sequential_count_bounds : 0 <= sequential_count N <= N.
Proof.
  unfold sequential_count. pose proof (count_primes_bounds (seqZ 0 N)).
  rewrite length_seqZ in *. lia.
Qed.

Lemma sumZ_final_counts_bounds :
  0 <= sumZ (final_counts N T P) <= sequential_count N.
Proof.
  split.
  - apply sumZ_nonneg, Forall_fmap, Forall_forall. intros k _. simpl.
    apply final_count_bounds.
  - rewrite <- (partition_counts_sum N T T_pos). apply sumZ_le.
    unfold final_counts. apply Forall2_fmap, Forall_Forall2_diag, Forall_forall.
    intros k _. apply final_count_bounds.
Qed.

Lemma sumZ_take_final_counts (n : nat) :
  0 <= sumZ (take n (final_counts N T P)) <= sumZ (final_counts N T P).
Proof.
  assert (Hnn : Forall (fun x => 0 <= x) (final_counts N T P)).
  { apply Forall_fmap, Forall_forall. intros k _. simpl. apply final_count_bounds. }
  rewrite <- (take_drop n (final_counts N T P)) at 3.
  rewrite sumZ_app.
  pose proof (sumZ_nonneg _ (Forall_take _ n _ Hnn)).
  pose proof (sumZ_nonneg _ (Forall_drop _ n _ Hnn)). lia.
Qed.

(** Once [main] is through the loop of line 46 no thread is active, and
    every slot holds its final value. *)
Lemma joined_counts m :
  machine_inv N T P m -> created_upto T (pc m) = T -> joined_upto T (pc m) = T ->
  prime_count m = final_counts N T P.
Proof.
  intros Hinv Hcr Hjo. apply list_eq. intros k.
  destruct (decide (k < Z.to_nat T)%nat) as [Hk|Hk].
  - rewrite lookup_final_counts by assumption.
    destruct (lookup_lt_is_Some_2 (t_array m) k) as [th Hth];
      [now rewrite (inv_threads _ _ _ _ Hinv)|].
    destruct (lookup_lt_is_Some_2 (prime_count m) k) as [c Hc];
      [now rewrite (inv_counts _ _ _ _ Hinv)|].
    rewrite Hc. f_equal.
    pose proof (inv_slots _ _ _ _ Hinv _ _ _ Hth Hc) as Hslot.
    unfold final_count. destruct th as [|i tn|i tn c0|]; simpl in Hslot.
    + destruct (inv_unstarted _ _ _ _ Hinv _ Hth) as [Hle|Hcr']; [lia|].
      now rewrite Hcr'.
    + pose proof (inv_active _ _ _ _ Hinv _ _ Hth eq_refl). lia.
    + pose proof (inv_active _ _ _ _ Hinv _ _ Hth eq_refl). lia.
    + destruct Hslot as [-> ->]. reflexivity.
  - rewrite !lookup_ge_None_2; [reflexivity | |].
    + unfold final_counts. rewrite length_fmap, length_seqZ. lia.
    + rewrite (inv_counts _ _ _ _ Hinv). lia.
Qed.

Lemma create_events_snoc i :
  0 <= i ->
  create_events P (i + 1) = create_events P i ++ [Pthread_create i (creates P i)].
Proof. intros Hi. unfold create_events. now rewrite seqZ_snoc, fmap_app. Qed.

Lemma join_events_snoc i :
  0 <= i -> join_events (i + 1) = join_events i ++ [Pthread_join i].
Proof. intros Hi. unfold join_events. now rewrite seqZ_snoc, fmap_app. Qed.

Lemma main_step_inv m m' :
  machine_inv N T P m -> main_step T P m = Done m' -> machine_inv N T P m'.
Proof.
  intros Hinv H. pose proof Hinv as [Hlt Hlc Hslots Hun Hunc Hrun Hpc].
  unfold main_step in H. unfold pc_inv in Hpc.
  destruct (pc m) as [|i|i|i acc|s] eqn:Epc; simpl in *.
  - (* line 34 *)
    injection H as <-. constructor; simpl.
    + assumption.
    + assumption.
    + assumption.
    + intros k Hk. left. lia.
    + intros k th Hk _. eapply Hunc; [eassumption | lia].
    + intros k th Hk Hact. lia.
    + unfold pc_inv. simpl. split; [lia|]. rewrite Hpc. reflexivity.
  - (* line 42 *)
    destruct Hpc as [Hi Htr]. destruct (i <? T) eqn:E.
    + apply Z.ltb_lt in E.
      apply bind_Done_inv in H as (t' & Ht' & H).
      apply bind_Done_inv in H as (i' & Hi' & H).
      apply int_add_inv in Hi' as [-> Hint]. unfold is_int in Hint.
      injection H as <-.
      assert (Hilt : (Z.to_nat i < length (t_array m))%nat) by lia.
      destruct (lookup_lt_is_Some_2 (t_array m) (Z.to_nat i) Hilt) as [th Hth].
      assert (th = Unstarted) as -> by (eapply Hunc; [eassumption | lia]).
      destruct (creates P i) eqn:Hcr.
      * apply array_set_inv in Ht' as [_ ->].
        constructor; simpl.
        -- now rewrite length_insert.
        -- assumption.
        -- intros k th c Hk Hc. destruct (decide (k = Z.to_nat i)) as [->|Hne].
           ++ rewrite list_lookup_insert_eq in Hk by assumption. injection Hk as <-.
              specialize (Hslots _ _ _ Hth Hc). simpl in *.
              rewrite Z2Nat.id by lia. subst c. repeat split; try lia. assumption.
           ++ rewrite list_lookup_insert_ne in Hk by congruence. eauto.
        -- intros k Hk. destruct (decide (k = Z.to_nat i)) as [->|Hne].
           ++ rewrite list_lookup_insert_eq in Hk by assumption. discriminate.
           ++ rewrite list_lookup_insert_ne in Hk by congruence.
              destruct (Hun _ Hk); [left; lia | right; assumption].
        -- intros k th Hk Hle.
           rewrite list_lookup_insert_ne in Hk by lia. eapply Hunc; [eassumption | lia].
        -- intros k th0 Hk Hact. lia.
        -- unfold pc_inv. simpl. split; [lia|].
           rewrite Htr, create_events_snoc, Hcr by lia. reflexivity.
      * apply bind_Done_inv in Ht' as (? & _ & [= <-]).
        constructor; simpl.
        -- assumption.
        -- assumption.
        -- assumption.
        -- intros k Hk. destruct (decide (k = Z.to_nat i)) as [->|Hne].
           ++ right. rewrite Z2Nat.id by lia. assumption.
           ++ destruct (Hun _ Hk); [left; lia | right; assumption].
        -- intros k th Hk Hle. eapply Hunc; [eassumption | lia].
        -- intros k th0 Hk Hact. lia.
        -- unfold pc_inv. simpl. split; [lia|].
           rewrite Htr, create_events_snoc, Hcr by lia. reflexivity.
    + apply Z.ltb_ge in E. injection H as <-.
      assert (i = T) as -> by lia.
      constructor; simpl.
      * assumption.
      * assumption.
      * assumption.
      * assumption.
      * assumption.
      * intros k th0 Hk Hact. lia.
      * unfold pc_inv. simpl. split; [lia|]. rewrite Htr. unfold join_events.
        simpl. now rewrite app_nil_r.
  - (* line 46 *)
    destruct Hpc as [Hi Htr]. destruct (i <? T) eqn:E.
    + apply Z.ltb_lt in E.
      apply bind_Done_inv in H as (th & Hth & H).
      apply array_get_inv in Hth as [_ Hth].
      destruct (active th) eqn:Hact; [now injection H as <-|].
      destruct (negb (joins_unstarted P) && negb (started th)); [discriminate|].
      apply bind_Done_inv in H as (i' & Hi' & H).
      apply int_add_inv in Hi' as [-> _]. injection H as <-.
      constructor; simpl.
      * assumption.
      * assumption.
      * assumption.
      * assumption.
      * assumption.
      * intros k th0 Hk Hact0. specialize (Hrun _ _ Hk Hact0).
        destruct (decide (k = Z.to_nat i)) as [->|Hne]; [|lia].
        rewrite Hth in Hk. injection Hk as ->. congruence.
      * unfold pc_inv. simpl. split; [lia|].
        rewrite Htr, join_events_snoc by lia. simpl. now rewrite <- ?app_assoc.
    + apply Z.ltb_ge in E. injection H as <-.
      assert (i = T) as -> by lia.
      constructor; simpl.
      * assumption.
      * assumption.
      * assumption.
      * assumption.
      * assumption.
      * assumption.
      * unfold pc_inv. simpl. split; [lia|]. split; [assumption | reflexivity].
  - (* line 50 *)
    destruct Hpc as (Hi & Htr & Hacc).
    destruct (i <? T) eqn:E.
    + apply Z.ltb_lt in E.
      apply bind_Done_inv in H as (c & Hc & H).
      apply array_get_inv in Hc as [_ Hc].
      assert (Htake : sumZ (take (Z.to_nat (i + 1)) (prime_count m)) = acc + c).
      { replace (Z.to_nat (i + 1)) with (S (Z.to_nat i)) by lia.
        rewrite (take_S_r _ _ _ Hc), sumZ_app. simpl. lia. }
      apply bind_Done_inv in H as (acc' & Hacc' & H).
      apply bind_Done_inv in H as (i' & Hi' & H).
      apply int_add_inv in Hacc' as [-> _]. apply int_add_inv in Hi' as [-> _].
      injection H as <-.
      constructor; simpl.
      * assumption.
      * assumption.
      * assumption.
      * assumption.
      * assumption.
      * assumption.
      * unfold pc_inv. simpl. split; [lia|]. split; [assumption | congruence].
    + apply Z.ltb_ge in E. injection H as <-.
      constructor; simpl.
      * assumption.
      * assumption.
      * assumption.
      * assumption.
      * assumption.
      * assumption.
      * unfold pc_inv. simpl. split; [reflexivity|].
        rewrite Htr, Hacc, take_ge by lia. simpl. now rewrite <- ?app_assoc.
  - (* after return *)
    now injection H as <-.
Qed.

Lemma step_inv fi p m m' :
  machine_inv N T P m -> step N T P fi p m = Done m' -> machine_inv N T P m'.
Proof. destruct p; simpl; eauto using main_step_inv, worker_step_inv. Qed.

Lemma run_inv fi schedule : forall m m',
  machine_inv N T P m -> run N T P fi schedule m = Done m' -> machine_inv N T P m'.
Proof.
  induction schedule as [|p schedule IH]; intros m m' Hinv H; simpl in H.
  - now injection H as <-.
  - apply bind_Done_inv in H as (m1 & H1 & H). eauto using step_inv.
Qed.

(** ** Every thread gets to its end *)

Lemma run_app fi s1 : forall s2 m,
  run N T P fi (s1 ++ s2) m = run N T P fi s1 m ≫= run N T P fi s2.
Proof.
  induction s1 as [|p s1 IH]; intros s2 m; simpl; [reflexivity|].
  destruct (step N T P fi p m); simpl; auto.
Qed.

Lemma count_partition_le_N k : 0 <= k -> count_primes (partition N T k) <= N.
Proof.
  intros Hk. pose proof (count_primes_bounds (partition N T k)).
  rewrite length_partition in *.
  pose proof (iterations_le_N N T T_pos k N_pos Hk). lia.
Qed.

(** An active thread can always take its step, and has fewer steps left
    after it. *)
Lemma worker_step_active fi (k : nat) th m :
  machine_inv N T P m -> N / 2 - 1 <= Z.of_nat fi ->
  t_array m !! k = Some th -> active th = true ->
  exists m' th', worker_step N T fi (Z.of_nat k) m = Done m' /\
    pc m' = pc m /\ t_array m' = <[k := th']> (t_array m) /\ th' <> Unstarted /\
    (thread_steps_left N T th' < thread_steps_left N T th)%nat.
Proof.
  intros Hinv Hfi Hth Hact.
  pose proof (lookup_lt_Some _ _ _ Hth) as Hklt.
  pose proof Hklt as HkT. rewrite (inv_threads _ _ _ _ Hinv) in HkT.
  destruct (lookup_lt_is_Some_2 (prime_count m) k) as [c Hc];
    [now rewrite (inv_counts _ _ _ _ Hinv)|].
  pose proof (inv_slots _ _ _ _ Hinv _ _ _ Hth Hc) as Hslot.
  pose proof (count_partition_le_N (Z.of_nat k) ltac:(lia)) as HleN.
  unfold worker_step.
  assert (Hg : negb ((0 <=? Z.of_nat k) && (Z.of_nat k <? T)) = false).
  { apply negb_false_iff, andb_true_iff. split; [apply Z.leb_le | apply Z.ltb_lt]; lia. }
  rewrite Hg. clear Hg.
  rewrite (array_get_Done (t_array m) (Z.of_nat k) th)
    by (try lia; rewrite Nat2Z.id; assumption).
  assert (Hset : forall th', array_set (t_array m) (Z.of_nat k) th'
                   = Done (<[k := th']> (t_array m)))
    by (intros th'; rewrite array_set_Done by lia; now rewrite Nat2Z.id).
  simpl. destruct th as [|i tn|i tn c0|]; try discriminate; simpl in Hslot.
  - destruct Hslot as (-> & Hi0 & Hc0 & Hcr & Hsum).
    destruct (i <? N) eqn:E.
    + apply Z.ltb_lt in E.
      pose proof (iterations_step N T T_pos i E).
      pose proof (iterations_nonneg N T T_pos i E).
      rewrite prime_test_enough
        by (try (apply (inner_fuel_enough N); assumption); int_lia).
      simpl. destruct (isPrime i).
      * rewrite (array_get_Done (prime_count m) (Z.of_nat k) c)
          by (try lia; rewrite Nat2Z.id; assumption).
        simpl. rewrite Hset. simpl.
        eexists _, _. split; [reflexivity|]. split; [reflexivity|].
        split; [reflexivity|]. split; [discriminate|]. simpl. lia.
      * rewrite int_add_Done by int_lia.
        simpl. rewrite Hset. simpl.
        eexists _, _. split; [reflexivity|]. split; [reflexivity|].
        split; [reflexivity|]. split; [discriminate|]. simpl. lia.
    + rewrite Hset. simpl.
      eexists _, _. split; [reflexivity|]. split; [reflexivity|].
      split; [reflexivity|]. split; [discriminate|]. simpl. lia.
  - destruct Hslot as (-> & Hi & Hp & -> & Hc0 & Hcr & Hsum).
    pose proof (iterations_step N T T_pos i (proj2 Hi)).
    pose proof (iterations_nonneg N T T_pos i (proj2 Hi)).
    rewrite (partition_cons N T T_pos i (proj2 Hi)), count_primes_cons, Hp in Hsum.
    pose proof (count_primes_bounds (partition N T (i + T))).
    rewrite (int_add_Done c 1) by int_lia. simpl.
    rewrite array_set_Done by (rewrite (inv_counts _ _ _ _ Hinv); lia). simpl.
    rewrite (int_add_Done i T) by int_lia. simpl.
    rewrite Hset. simpl.
    eexists _, _. split; [reflexivity|]. split; [reflexivity|].
    split; [reflexivity|]. split; [discriminate|]. simpl. lia.
Qed.

(** A thread that is not active stays as it is when it is scheduled. *)
Lemma worker_idle fi (k : nat) th (n : nat) m :
  t_array m !! k = Some th -> active th = false ->
  run N T P fi (replicate n (Worker (Z.of_nat k))) m = Done m.
Proof.
  intros Hth Hact.
  assert (Hidle : worker_step N T fi (Z.of_nat k) m = Done m).
  { unfold worker_step. destruct (negb _); [reflexivity|].
    rewrite (array_get_Done (t_array m) (Z.of_nat k) th)
      by (try lia; rewrite Nat2Z.id; assumption).
    simpl. destruct th; try discriminate; reflexivity. }
  induction n as [|n IH]; simpl; [reflexivity|].
  rewrite Hidle. simpl. exact IH.
Qed.

(** Scheduled for as many steps as it has left, a thread that was started
    returns; [main] has not moved. *)
Lemma worker_returns fi (k : nat) (n : nat) : forall th m,
  machine_inv N T P m -> N / 2 - 1 <= Z.of_nat fi ->
  t_array m !! k = Some th -> th <> Unstarted ->
  (thread_steps_left N T th <= n)%nat ->
  exists m', run N T P fi (replicate n (Worker (Z.of_nat k))) m = Done m' /\
    pc m' = pc m /\ t_array m' !! k = Some Returned.
Proof.
  induction n as [|n IH]; intros th m Hinv Hfi Hth Hne Hn.
  - destruct (active th) eqn:Hact.
    + destruct (worker_step_active fi k th m Hinv Hfi Hth Hact)
        as (m' & th' & _ & _ & _ & _ & Hlt). lia.
    + exists m. split; [reflexivity|]. split; [reflexivity|].
      destruct th; try discriminate; [congruence | assumption].
  - destruct (active th) eqn:Hact.
    + destruct (worker_step_active fi k th m Hinv Hfi Hth Hact)
        as (m1 & th1 & Hs & Hpc & Hth1 & Hne1 & Hlt).
      assert (Hth1' : t_array m1 !! k = Some th1)
        by (rewrite Hth1; apply list_lookup_insert_eq; now apply lookup_lt_Some in Hth).
      clear Hth1. rename Hth1' into Hth1.
      pose proof (worker_step_inv fi _ _ _ Hinv Hs) as Hinv1.
      destruct (IH th1 m1 Hinv1 Hfi Hth1 Hne1 ltac:(lia)) as (m' & Hr & Hpc' & Ht').
      exists m'. simpl. rewrite Hs. simpl.
      split; [assumption|]. split; [congruence | assumption].
    + exists m. rewrite (worker_idle fi k th (S n) m Hth Hact).
      split; [reflexivity|]. split; [reflexivity|].
      destruct th; try discriminate; [congruence | assumption].
Qed.

(** ** Every step that changes the state uses up one of the steps left *)

Lemma threads_steps_left_insert l : forall k (i : nat) th th',
  l !! i = Some th ->
  (threads_steps_left N T k (<[i := th']> l) + thread_potential N T (k + Z.of_nat i) th
   = threads_steps_left N T k l + thread_potential N T (k + Z.of_nat i) th')%nat.
Proof.
  induction l as [|th0 l IH]; intros k i th th' Hi; [discriminate|].
  destruct i as [|i].
  - injection Hi as ->. cbn [insert list_insert threads_steps_left].
    rewrite Z.add_0_r. lia.
  - change (<[S i := th']> (th0 :: l)) with (th0 :: <[i := th']> l).
    change ((th0 :: l) !! S i) with (l !! i) in Hi.
    cbn [threads_steps_left].
    replace (k + Z.of_nat (S i)) with (k + 1 + Z.of_nat i) by lia.
    specialize (IH (k + 1) i th th' Hi). lia.
Qed.

Lemma steps_left_update m (k : nat) th th' pc1 :
  t_array m !! k = Some th ->
  (thread_potential N T (Z.of_nat k) th' < thread_potential N T (Z.of_nat k) th)%nat ->
  (steps_left N T {| pc := pc m; t_array := <[k := th']> (t_array m);
                     prime_count := pc1; trace := trace m |}
   < steps_left N T m)%nat.
Proof.
  intros Hth Hlt. unfold steps_left. cbn [pc t_array].
  pose proof (threads_steps_left_insert (t_array m) 0 _ _ th' Hth) as Hsum.
  rewrite Z.add_0_l in Hsum. lia.
Qed.

Lemma worker_step_decreases fi k m m' :
  machine_inv N T P m -> worker_step N T fi k m = Done m' ->
  m' = m \/ (steps_left N T m' < steps_left N T m)%nat.
Proof.
  intros Hinv H. unfold worker_step in H.
  destruct (negb _) eqn:Hguard; [left; congruence|].
  apply negb_false_iff, andb_true_iff in Hguard as [Hk0%Z.leb_le HkT%Z.ltb_lt].
  apply bind_Done_inv in H as (th & Hth & H).
  apply array_get_inv in Hth as [_ Hth].
  pose proof (lookup_lt_Some _ _ _ Hth) as Hklt.
  destruct (lookup_lt_is_Some_2 (prime_count m) (Z.to_nat k)) as [c Hc];
    [rewrite (inv_counts _ _ _ _ Hinv), <- (inv_threads _ _ _ _ Hinv); exact Hklt|].
  pose proof (inv_slots _ _ _ _ Hinv _ _ _ Hth Hc) as Hslot.
  destruct th as [|i tn|i tn c0|]; simpl in Hslot; try (left; congruence).
  - destruct (i <? N) eqn:E.
    + apply Z.ltb_lt in E.
      pose proof (iterations_step N T T_pos i E).
      pose proof (iterations_nonneg N T T_pos i E).
      apply bind_Done_inv in H as (b & _ & H). destruct b.
      * apply bind_Done_inv in H as (c' & _ & H).
        apply bind_Done_inv in H as (t' & Ht' & H).
        apply array_set_inv in Ht' as [_ ->]. injection H as <-.
        right. apply (steps_left_update m _ _ _ _ Hth). simpl. lia.
      * apply bind_Done_inv in H as (i' & Hi' & H).
        apply bind_Done_inv in H as (t' & Ht' & H).
        apply int_add_inv in Hi' as [-> _].
        apply array_set_inv in Ht' as [_ ->]. injection H as <-.
        right. apply (steps_left_update m _ _ _ _ Hth). simpl. lia.
    + apply bind_Done_inv in H as (t' & Ht' & H).
      apply array_set_inv in Ht' as [_ ->]. injection H as <-.
      right. apply (steps_left_update m _ _ _ _ Hth). simpl. lia.
  - destruct Hslot as (_ & Hi & _).
    pose proof (iterations_step N T T_pos i (proj2 Hi)).
    pose proof (iterations_nonneg N T T_pos i (proj2 Hi)).
    apply bind_Done_inv in H as (c' & _ & H).
    apply bind_Done_inv in H as (pc1 & _ & H).
    apply bind_Done_inv in H as (i' & Hi' & H).
    apply bind_Done_inv in H as (t' & Ht' & H).
    apply int_add_inv in Hi' as [-> _].
    apply array_set_inv in Ht' as [_ ->]. injection H as <-.
    right. apply (steps_left_update m _ _ _ _ Hth). simpl. lia.
Qed.

Lemma main_step_decreases m m' :
  machine_inv N T P m -> main_step T P m = Done m' ->
  m' = m \/ (steps_left N T m' < steps_left N T m)%nat.
Proof.
  intros Hinv H. pose proof (inv_pc _ _ _ _ Hinv) as Hpc.
  unfold main_step in H. unfold pc_inv in Hpc. unfold steps_left.
  destruct (pc m) as [|i|i|i acc|s] eqn:Epc.
  - injection H as <-. right. cbn [pc t_array main_steps_left]. lia.
  - destruct Hpc as [Hi _]. destruct (i <? T) eqn:E.
    + apply Z.ltb_lt in E.
      apply bind_Done_inv in H as (t' & Ht' & H).
      apply bind_Done_inv in H as (i' & Hi' & H).
      apply int_add_inv in Hi' as [-> _]. injection H as <-.
      right. cbn [pc t_array main_steps_left].
      assert (threads_steps_left N T 0 t' = threads_steps_left N T 0 (t_array m));
        [|lia].
      destruct (creates P i).
      * apply array_set_inv in Ht' as [Hlt ->].
        destruct (lookup_lt_is_Some_2 (t_array m) (Z.to_nat i)) as [th Hth]; [lia|].
        assert (th = Unstarted) as ->
          by (eapply (inv_uncreated _ _ _ _ Hinv); [eassumption | rewrite Epc; simpl; lia]).
        pose proof (threads_steps_left_insert (t_array m) 0 _ _ (Running i i) Hth) as Hsum.
        rewrite Z.add_0_l, Z2Nat.id in Hsum by lia. simpl in Hsum. lia.
      * apply bind_Done_inv in Ht' as (? & _ & [= <-]). reflexivity.
    + apply Z.ltb_ge in E. injection H as <-.
      right. cbn [pc t_array main_steps_left]. lia.
  - destruct Hpc as [Hi _]. destruct (i <? T) eqn:E.
    + apply Z.ltb_lt in E.
      apply bind_Done_inv in H as (th & _ & H).
      destruct (active th); [left; congruence|].
      destruct (negb (joins_unstarted P) && negb (started th)); [discriminate|].
      apply bind_Done_inv in H as (i' & Hi' & H).
      apply int_add_inv in Hi' as [-> _]. injection H as <-.
      right. cbn [pc t_array main_steps_left]. lia.
    + apply Z.ltb_ge in E. injection H as <-.
      right. cbn [pc t_array main_steps_left]. lia.
  - destruct Hpc as (Hi & _). destruct (i <? T) eqn:E.
    + apply Z.ltb_lt in E.
      apply bind_Done_inv in H as (c & _ & H).
      apply bind_Done_inv in H as (acc' & _ & H).
      apply bind_Done_inv in H as (i' & Hi' & H).
      apply int_add_inv in Hi' as [-> _]. injection H as <-.
      right. cbn [pc t_array main_steps_left]. lia.
    + apply Z.ltb_ge in E. injection H as <-.
      right. cbn [pc t_array main_steps_left]. lia.
  - left. congruence.
Qed.

Lemma step_decreases fi p m m' :
  machine_inv N T P m -> step N T P fi p m = Done m' ->
  m' = m \/ (steps_left N T m' < steps_left N T m)%nat.
Proof.
  destruct p; simpl; eauto using main_step_decreases, worker_step_decreases.
Qed.

(** ** What a finished run has printed *)

Lemma omap_printed_fmap {A} (f : A -> event) (l : list A) :
  (forall x, printed (f x) = None) -> omap printed (f <$> l) = [].
Proof.
  intros Hf. induction l as [|x l IH]; [reflexivity|].
  rewrite fmap_cons. cbn [omap list_omap]. now rewrite Hf.
Qed.

Lemma exited_state m s :
  machine_inv N T P m -> pc m = Exited s ->
  s = 0 /\ prime_count m = final_counts N T P /\
  trace m = prologue P ++ create_events P T ++ join_events T
            ++ epilogue P (sumZ (final_counts N T P)) /\
  stdout m = [(format_sizeof, ArgULong (sizeof_short P));
              (format_count, ArgInt (sumZ (final_counts N T P)));
              (format_took, ArgDouble (elapsed_usec P) 1000000)].
Proof.
  intros Hinv Hpc.
  pose proof (joined_counts m Hinv) as Hfinal. rewrite Hpc in Hfinal.
  specialize (Hfinal eq_refl eq_refl).
  pose proof (inv_pc _ _ _ _ Hinv) as Hi. unfold pc_inv in Hi. rewrite Hpc in Hi.
  destruct Hi as [-> Htr]. rewrite Hfinal in Htr.
  split; [reflexivity|]. split; [assumption|]. split; [assumption|].
  unfold stdout. rewrite Htr, !omap_app.
  unfold create_events, join_events. rewrite !omap_printed_fmap by reflexivity.
  reflexivity.
Qed.

(** When every thread was started the final values add up to the count of
    the sequential scan. *)
Lemma normal_final_counts :
  (forall k, 0 <= k < T -> creates P k = true) ->
  final_counts N T P = (fun k => count_primes (partition N T k)) <$> seqZ 0 T.
Proof.
  intros Hcr. unfold final_counts. apply list_fmap_ext.
  intros _ k Hk%list_elem_of_lookup_2%elem_of_seqZ.
  unfold final_count. now rewrite Hcr by lia.
Qed.

Lemma normal_total :
  (forall k, 0 <= k < T -> creates P k = true) ->
  sumZ (final_counts N T P) = sequential_count N.
Proof.
  intros Hcr. rewrite normal_final_counts by assumption.
  apply (partition_counts_sum N T T_pos).
Qed.

(** The slot of a thread whose partition is empty holds 0 all along. *)
Lemma empty_partition_slot m (k : nat) c :
  machine_inv N T P m -> N <= Z.of_nat k ->
  prime_count m !! k = Some c -> c = 0.
Proof.
  intros Hinv Hk Hc.
  pose proof (lookup_lt_Some _ _ _ Hc) as Hlt.
  destruct (lookup_lt_is_Some_2 (t_array m) k) as [th Hth];
    [rewrite (inv_threads _ _ _ _ Hinv), <- (inv_counts _ _ _ _ Hinv); exact Hlt|].
  pose proof (inv_slots _ _ _ _ Hinv _ _ _ Hth Hc) as Hslot.
  destruct th as [|i tn|i tn c0|]; simpl in Hslot;
    rewrite ?(partition_nil N T T_pos (Z.of_nat k) Hk), ?count_primes_nil in Hslot.
  - assumption.
  - destruct Hslot as (_ & _ & Hc0 & _ & Hsum).
    pose proof (count_primes_bounds (partition N T i)). lia.
  - destruct Hslot as (_ & _ & _ & _ & Hc0 & _ & Hsum).
    pose proof (count_primes_bounds (partition N T i)). lia.
  - tauto.
Qed.

(** ** [main] gets to its end *)

(** From here on the call of [pthread_join] is defined: it is never made
    on a thread that was not started, or the platform answers it. *)
Hypothesis join_defined :
  joins_unstarted P = true \/ forall k, 0 <= k < T -> creates P k = true.

(** [main] can take its step unless it waits in [pthread_join] for an
    active thread, and the step brings it nearer to [return]. *)
Lemma main_step_progress m :
  machine_inv N T P m ->
  (forall i th, pc m = Line46 i ->
     t_array m !! Z.to_nat i = Some th -> active th = false) ->
  (forall s, pc m <> Exited s) ->
  exists m', main_step T P m = Done m' /\
    (main_steps_left T (pc m') < main_steps_left T (pc m))%nat.
Proof.
  intros Hinv Hfree Hlive. pose proof Hinv as [Hlt Hlc Hslots Hun Hunc Hrun Hpc].
  unfold main_step. unfold pc_inv in Hpc.
  destruct (pc m) as [|i|i|i acc|s] eqn:Epc.
  - eexists. split; [reflexivity|]. simpl. lia.
  - destruct Hpc as [Hi Htr]. destruct (i <? T) eqn:E.
    + apply Z.ltb_lt in E.
      destruct (lookup_lt_is_Some_2 (t_array m) (Z.to_nat i)) as [th Hth]; [lia|].
      assert (Hc : exists t', (if creates P i
                then array_set (t_array m) i (Running i i)
                else _ ← array_get (t_array m) i; Done (t_array m)) = Done t').
      { destruct (creates P i).
        - rewrite array_set_Done by lia. eauto.
        - rewrite (array_get_Done _ _ _ (proj1 Hi) Hth). simpl. eauto. }
      destruct Hc as [t' ->]. simpl.
      rewrite int_add_Done by int_lia. simpl.
      eexists. split; [reflexivity|]. simpl. lia.
    + apply Z.ltb_ge in E. eexists. split; [reflexivity|]. simpl. lia.
  - destruct Hpc as [Hi Htr]. destruct (i <? T) eqn:E.
    + apply Z.ltb_lt in E.
      destruct (lookup_lt_is_Some_2 (t_array m) (Z.to_nat i)) as [th Hth]; [lia|].
      rewrite (array_get_Done _ _ _ (proj1 Hi) Hth). simpl.
      rewrite (Hfree i th eq_refl Hth).
      assert (Hjoin : negb (joins_unstarted P) && negb (started th) = false).
      { destruct join_defined as [->|Hall]; [reflexivity|].
        destruct th; try apply andb_false_r.
        destruct (Hun _ Hth) as [Hle|Hcr]; [simpl in Hle; lia|].
        rewrite Z2Nat.id, Hall in Hcr by lia. discriminate. }
      rewrite Hjoin.
      rewrite int_add_Done by int_lia. simpl.
      eexists. split; [reflexivity|]. simpl. lia.
    + apply Z.ltb_ge in E. eexists. split; [reflexivity|]. simpl. lia.
  - destruct Hpc as (Hi & Htr & Hacc).
    pose proof (joined_counts m Hinv) as Hfinal. rewrite Epc in Hfinal.
    specialize (Hfinal eq_refl eq_refl).
    pose proof sumZ_final_counts_bounds. pose proof sequential_count_bounds.
    destruct (i <? T) eqn:E.
    + apply Z.ltb_lt in E.
      destruct (lookup_lt_is_Some_2 (prime_count m) (Z.to_nat i)) as [c Hc]; [lia|].
      rewrite (array_get_Done _ _ _ (proj1 Hi) Hc). simpl.
      assert (Htake : sumZ (take (Z.to_nat (i + 1)) (prime_count m)) = acc + c).
      { replace (Z.to_nat (i + 1)) with (S (Z.to_nat i)) by lia.
        rewrite (take_S_r _ _ _ Hc), sumZ_app. simpl. lia. }
      pose proof (sumZ_take_final_counts (Z.to_nat (i + 1))).
      rewrite <- Hfinal, Htake in *.
      rewrite int_add_Done by int_lia. simpl.
      rewrite int_add_Done by int_lia. simpl.
      eexists. split; [reflexivity|]. simpl. lia.
    + apply Z.ltb_ge in E. eexists. split; [reflexivity|]. simpl. lia.
  - destruct (Hlive s eq_refl).
Qed.

(** From every state of the invariant some schedule leads [main] to
    [return]: a thread [main] waits for is run to its end. *)
Lemma run_completes fi (n : nat) : forall m,
  machine_inv N T P m -> N / 2 - 1 <= Z.of_nat fi ->
  (main_steps_left T (pc m) <= n)%nat ->
  exists schedule m', run N T P fi schedule m = Done m' /\ pc m' = Exited 0.
Proof.
  induction n as [|n IH]; intros m Hinv Hfi Hn.
  - pose proof (inv_pc _ _ _ _ Hinv) as Hpc. unfold pc_inv in Hpc.
    destruct (pc m) as [|i|i|i acc|s] eqn:Epc; simpl in Hn; try lia.
    exists [], m. split; [reflexivity|]. destruct Hpc as [-> _]. assumption.
  - destruct (pc m) as [|i|i|i acc|s] eqn:Epc.
    5: { pose proof (inv_pc _ _ _ _ Hinv) as Hpc. unfold pc_inv in Hpc.
         rewrite Epc in Hpc. destruct Hpc as [-> _].
         exists [], m. split; [reflexivity | assumption]. }
    3: { assert (Hwait : exists ws m1,
                   run N T P fi ws m = Done m1 /\ pc m1 = pc m /\
                   forall th, t_array m1 !! Z.to_nat i = Some th -> active th = false).
         { destruct (t_array m !! Z.to_nat i) as [th|] eqn:Hth.
           - destruct (active th) eqn:Hact.
             + destruct (worker_returns fi (Z.to_nat i) (thread_steps_left N T th) th m
                           Hinv Hfi Hth) as (m1 & Hr1 & Hpc1 & Hth1);
                 [destruct th; discriminate | lia |].
               exists (replicate (thread_steps_left N T th) (Worker (Z.of_nat (Z.to_nat i)))),
                 m1.
               split; [assumption|]. split; [assumption|].
               intros th' Hth'. rewrite Hth1 in Hth'. now injection Hth' as <-.
             + exists [], m. split; [reflexivity|]. split; [reflexivity|].
               intros th' Hth'. congruence.
           - exists [], m. split; [reflexivity|]. split; [reflexivity|].
             intros th' Hth'. congruence. }
         destruct Hwait as (ws & m1 & Hr1 & Hpc1 & Hfree).
         pose proof (run_inv _ _ _ _ Hinv Hr1) as Hinv1.
         destruct (main_step_progress m1 Hinv1) as (m2 & Hs2 & Hlt2).
         { intros i' th' Hpc' Hth'. rewrite Hpc1, Epc in Hpc'.
           injection Hpc' as <-. auto. }
         { intros s. rewrite Hpc1, Epc. discriminate. }
         pose proof (main_step_inv _ _ Hinv1 Hs2) as Hinv2.
         destruct (IH m2 Hinv2 Hfi) as (sch & m' & Hr & Hex);
           [rewrite Hpc1, Epc in Hlt2; lia|].
         exists (ws ++ Main :: sch), m'. split; [|assumption].
         rewrite run_app, Hr1. simpl. rewrite Hs2. simpl. assumption. }
    all: destruct (main_step_progress m Hinv) as (m1 & Hs1 & Hlt1);
      [ intros i' th' Hpc' Hth'; rewrite Epc in Hpc'; discriminate
      | intros s; rewrite Epc; discriminate |];
      pose proof (main_step_inv _ _ Hinv Hs1) as Hinv1;
      destruct (IH m1 Hinv1 Hfi) as (sch & m' & Hr & Hex);
        [rewrite Epc in Hlt1; lia|];
      exists (Main :: sch), m'; split; [|assumption];
      simpl; rewrite Hs1; simpl; assumption.
Qed.

(** No step goes wrong. *)
Lemma step_safe fi p m :
  machine_inv N T P m -> N / 2 - 1 <= Z.of_nat fi ->
  exists m', step N T P fi p m = Done m'.
Proof.
  intros Hinv Hfi. destruct p as [|k]; simpl.
  - destruct (pc m) as [|i|i|i acc|s] eqn:Epc.
    3: { destruct (t_array m !! Z.to_nat i) as [th|] eqn:Hth;
           [destruct (active th) eqn:Hact|].
         - pose proof (inv_pc _ _ _ _ Hinv) as Hpc. unfold pc_inv in Hpc.
           rewrite Epc in Hpc. destruct Hpc as [Hi _].
           unfold main_step. rewrite Epc.
           destruct (i <? T); [|eauto].
           rewrite (array_get_Done _ _ _ (proj1 Hi) Hth). simpl.
           rewrite Hact. eauto.
         - destruct (main_step_progress m Hinv) as (m1 & Hs1 & _);
             [ intros i' th' Hpc' Hth'; rewrite Epc in Hpc'; injection Hpc' as <-;
               congruence
             | intros s; rewrite Epc; discriminate | eauto ].
         - destruct (main_step_progress m Hinv) as (m1 & Hs1 & _);
             [ intros i' th' Hpc' Hth'; rewrite Epc in Hpc'; injection Hpc' as <-;
               congruence
             | intros s; rewrite Epc; discriminate | eauto ]. }
    4: { unfold main_step. rewrite Epc. eauto. }
    all: destruct (main_step_progress m Hinv) as (m1 & Hs1 & _);
      [ intros i' th' Hpc' Hth'; rewrite Epc in Hpc'; discriminate
      | intros s; rewrite Epc; discriminate | eauto ].
  - destruct (decide (0 <= k < T)) as [Hk|Hk].
    + destruct (t_array m !! Z.to_nat k) as [th|] eqn:Hth.
      * destruct (active th) eqn:Hact.
        -- destruct (worker_step_active fi (Z.to_nat k) th m Hinv Hfi Hth Hact)
             as (m' & th' & Hs & _).
           rewrite Z2Nat.id in Hs by lia. eauto.
        -- pose proof (worker_idle fi (Z.to_nat k) th 1 m Hth Hact) as Hidle.
           simpl in Hidle. rewrite Z2Nat.id in Hidle by lia.
           destruct (worker_step N T fi k m); simpl in Hidle; try discriminate. eauto.
      * apply lookup_ge_None in Hth.
        rewrite (inv_threads _ _ _ _ Hinv) in Hth. lia.
    + unfold worker_step.
      assert (Hg : negb ((0 <=? k) && (k <? T)) = true); [|rewrite Hg; eauto].
      apply negb_true_iff, andb_false_iff.
      destruct (Z.le_gt_cases 0 k); [right; apply Z.ltb_ge | left; apply Z.leb_gt]; lia.
Qed.

(** Under every schedule the run is defined: no overflow, no access
    outside an array, and no loop short of fuel. *)
Lemma run_safe fi schedule : forall m,
  machine_inv N T P m -> N / 2 - 1 <= Z.of_nat fi ->
  exists m', run N T P fi schedule m = Done m'.
Proof.
  induction schedule as [|p schedule IH]; intros m Hinv Hfi; simpl; [eauto|].
  destruct (step_safe fi p m Hinv Hfi) as [m1 Hs]. rewrite Hs. simpl.
  eauto using step_inv.
Qed.

End Machine.

(** The loop of a thread is its body at each of [indices], in order. *)
Lemma while_loop_for_each N T fo : forall fi i tn pc0 pc1,
  while_loop N T fo fi i tn pc0 = Done pc1 ->
  exists l, indices N T fo i = Done l /\ for_each fi tn l pc0 = Done pc1.
Proof.
  induction fo as [|fo IH]; intros fi i tn pc0 pc1 H; simpl in *.
  - destruct (i <? N); [discriminate|]. injection H as <-. eauto.
  - destruct (i <? N); [|injection H as <-; eauto].
    apply bind_Done_inv in H as (pc' & Hb & H).
    apply bind_Done_inv in H as (i' & Hi' & H).
    apply IH in H as (l & Hl & Hf).
    exists (i :: l). rewrite Hi'. simpl. rewrite Hl. simpl.
    split; [reflexivity|]. rewrite Hb. exact Hf.
Qed.

(** * The claims *)

(** ** Trial division *)

Lemma prime_test_below_2 fuel v : v < 2 -> prime_test fuel v = Done false.
Proof.
  intros Hv. unfold prime_test.
  assert (E : (2 <=? Z.quot v 2) = false).
  { apply Z.leb_gt. destruct (Z.le_gt_cases 0 v) as [H0|H0].
    - rewrite quot2_nonneg by lia. pose proof (Z.div_le_upper_bound v 2 1); lia.
    - pose proof (quot2_neg v H0). lia. }
  destruct fuel; simpl; rewrite E; simpl; f_equal;
    (assert ((1 <? v) = false) as -> by (apply Z.ltb_ge; lia)); reflexivity.
Qed.

(** C3: the test a thread applies to [v] is trial division.  Every
    [v < 2] fails it, whatever the fuel.  For [2 <= v] the loop needs at
    most [v / 2 - 1] iterations, and [v] passes exactly when no integer
    from 2 to [v / 2] divides it.  The scan stops at the first divisor
    [d]: the loop is left with [flag = 1] and [j = d] after [d - 1]
    iterations and not before.  The integers of [int] that pass are the
    prime numbers; 0, 1 and 18 fail the test, 2 and 17 pass. *)
Theorem prime_test_trial_division :
  (forall fuel v, v < 2 -> prime_test fuel v = Done false) /\
  (forall fuel v, 2 <= v <= INT_MAX -> v / 2 - 1 <= Z.of_nat fuel ->
     exists b, prime_test fuel v = Done b /\
       (b = true <-> forall d, 2 <= d <= v / 2 -> v mod d <> 0)) /\
  (forall v d, 2 <= v <= INT_MAX -> 2 <= d <= v / 2 -> v mod d = 0 ->
     (forall e, 2 <= e < d -> v mod e <> 0) ->
     for_loop (Z.to_nat (d - 1)) v 2 = Done (1, d) /\
     for_loop (Z.to_nat (d - 2)) v 2 = Timeout /\
     prime_test (Z.to_nat (d - 1)) v = Done false) /\
  (forall v, v <= INT_MAX -> isPrime v = true <-> Z.prime v) /\
  isPrime 0 = false /\ isPrime 1 = false /\ isPrime 2 = true /\
  isPrime 17 = true /\ isPrime 18 = false.
Proof.
  split; [exact prime_test_below_2|]. split; [|split; [|split]].
  - intros fuel v Hv Hfuel. exists (isPrime v). split.
    + apply prime_test_enough; [lia|]. rewrite quot2_nonneg by lia. exact Hfuel.
    + rewrite isPrime_spec by lia. intuition lia.
  - intros v d Hv Hd Hdiv Hnd.
    assert (Hrem : forall e, 2 <= e -> Z.rem v e = v mod e)
      by (intros e He; apply Z.rem_mod_nonneg; lia).
    assert (Hfound : for_loop (Z.to_nat (d - 1)) v 2 = Done (1, d)).
    { apply (for_loop_first_divisor (Z.to_nat (d - 2))); try lia.
      - rewrite quot2_nonneg by lia. lia.
      - intros e He. rewrite Hrem by lia. apply Hnd. lia.
      - rewrite Hrem by lia. exact Hdiv. }
    split; [exact Hfound|]. split.
    + apply for_loop_timeout; try lia.
      * rewrite quot2_nonneg by lia. lia.
      * intros e He. rewrite Hrem by lia. apply Hnd. lia.
    + unfold prime_test. rewrite Hfound. reflexivity.
  - exact isPrime_prime.
  - repeat split; vm_compute; reflexivity.
Qed.

Lemma prime_test_trial_division_witness :
  (exists b, prime_test 7 17 = Done b /\
     (b = true <-> forall d, 2 <= d <= 17 / 2 -> 17 mod d <> 0)) /\
  (for_loop (Z.to_nat (5 - 1)) 35 2 = Done (1, 5) /\
   for_loop (Z.to_nat (5 - 2)) 35 2 = Timeout /\
   prime_test (Z.to_nat (5 - 1)) 35 = Done false).
Proof.
  split.
  - apply (proj1 (proj2 prime_test_trial_division) 7%nat 17).
    + unfold INT_MAX. lia.
    + vm_compute. discriminate.
  - apply (proj1 (proj2 (proj2 prime_test_trial_division)) 35 5).
    + unfold INT_MAX. lia.
    + vm_compute. split; discriminate.
    + reflexivity.
    + intros e He. assert (e = 2 \/ e = 3 \/ e = 4) as [-> | [-> | ->]] by lia;
        vm_compute; discriminate.
Defined.

(** ** The partitions of the range *)

(** C2: for positive [N] and [T] the values thread [k] goes through are
    partition [k], that is [k], [k + T], [k + 2 * T], ... below [N]: the
    integers of [0, N) with remainder [k] modulo [T].  Two different
    partitions share no element, no partition repeats an element, every
    integer of [0, N) is in the partition of exactly one [k], and the
    partitions together are a rearrangement of [0, N).  Within the range
    of [int] the loop of thread [k] does get through its partition, with
    a unit of fuel for each element. *)
Theorem partitions_cover_exactly_once N T :
  0 < N -> 0 < T ->
  (forall fo fi k pc0 pc1, calculate_primes N T fo fi k pc0 = Done pc1 ->
     indices N T fo k = Done (partition N T k) /\
     for_each fi k (partition N T k) pc0 = Done pc1) /\
  (N + T <= INT_MAX + 1 -> forall k, 0 <= k < T ->
     indices N T (Z.to_nat (iterations N T k)) k = Done (partition N T k)) /\
  (forall k v, 0 <= k < T -> v ∈ partition N T k <-> 0 <= v < N /\ v mod T = k) /\
  (forall k1 k2 v, 0 <= k1 < T -> 0 <= k2 < T -> k1 <> k2 ->
     v ∈ partition N T k1 -> v ∉ partition N T k2) /\
  (forall k, NoDup (partition N T k)) /\
  (forall v, 0 <= v < N <->
     exists k, 0 <= k < T /\ v ∈ partition N T k /\
       forall k', 0 <= k' < T -> v ∈ partition N T k' -> k' = k) /\
  seqZ 0 T ≫= partition N T ≡ₚ seqZ 0 N.
Proof.
  intros HN HT. repeat apply conj.
  - intros fo fi k pc0 pc1 H.
    apply while_loop_for_each in H as (l & Hl & Hf).
    pose proof (indices_inv N T HT _ _ _ Hl) as ->. auto.
  - intros Hov k Hk. apply indices_spec; try assumption; lia.
  - intros k v Hk. now apply elem_of_partition_mod.
  - intros k1 k2 v Hk1 Hk2 Hne H1 H2. apply Hne.
    eapply partition_disjoint; eassumption.
  - intros k. now apply NoDup_partition.
  - intros v. split.
    + intros Hv. exists (v mod T). pose proof (Z.mod_pos_bound v T HT).
      split; [lia|]. split; [apply elem_of_partition_mod; auto|].
      intros k' Hk' Hin. apply elem_of_partition_mod in Hin; [lia | assumption | assumption].
    + intros (k & Hk & Hin & _). apply elem_of_partition_mod in Hin; tauto.
  - now apply partitions_perm.
Qed.

Lemma partitions_cover_exactly_once_witness :
  indices 10 3 (Z.to_nat (iterations 10 3 1)) 1 = Done (partition 10 3 1) /\
  partition 10 3 1 = [1; 4; 7] /\
  (7 ∈ partition 10 3 1 <-> 0 <= 7 < 10 /\ 7 mod 3 = 1) /\
  seqZ 0 3 ≫= partition 10 3 ≡ₚ seqZ 0 10.
Proof.
  pose proof (partitions_cover_exactly_once 10 3) as H.
  destruct H as (_ & H2 & H3 & _ & _ & _ & H7).
  - lia.
  - lia.
  - split; [apply H2; unfold INT_MAX; lia|].
    split; [reflexivity|]. split; [apply H3; lia | exact H7].
Defined.

(** ** Runs of the program *)

Section Runs.

Variables (N T : Z) (P : platform).
Hypothesis T_pos : 0 < T.

Lemma program_inv fi schedule m :
  program N T P fi schedule = Done m -> machine_inv N T P m.
Proof.
  apply run_inv; try assumption. now apply initial_inv.
Qed.

(** What a run that has reached the end of [main] has left and printed;
    on a normal run the total is the count of the sequential scan. *)
Lemma program_exited fi schedule m s :
  program N T P fi schedule = Done m -> pc m = Exited s ->
  s = 0 /\ prime_count m = final_counts N T P /\
  trace m = prologue P ++ create_events P T ++ join_events T
            ++ epilogue P (sumZ (final_counts N T P)) /\
  stdout m = [(format_sizeof, ArgULong (sizeof_short P));
              (format_count, ArgInt (sumZ (final_counts N T P)));
              (format_took, ArgDouble (elapsed_usec P) 1000000)].
Proof.
  intros Hm Hex. apply exited_state; [assumption | | assumption].
  eapply program_inv; eassumption.
Qed.

Hypothesis N_pos : 0 < N.
Hypothesis no_overflow : N + T <= INT_MAX + 1.

(** Within the range of [int], with fuel for the inner loop and
    [pthread_join] defined, a run is defined under every schedule, and
    every schedule can be continued to the end of [main]. *)
Lemma program_extends fi schedule :
  joins_unstarted P = true \/ (forall k, 0 <= k < T -> creates P k = true) ->
  N / 2 - 1 <= Z.of_nat fi ->
  exists m, program N T P fi schedule = Done m /\
    exists schedule' m',
      program N T P fi (schedule ++ schedule') = Done m' /\ pc m' = Exited 0.
Proof.
  intros Hjoin Hfi.
  destruct (run_safe N T P N_pos T_pos no_overflow Hjoin fi schedule (initial T))
    as [m Hm]; [now apply initial_inv | assumption |].
  exists m. split; [exact Hm|].
  destruct (run_completes N T P N_pos T_pos no_overflow Hjoin fi
              (main_steps_left T (pc m)) m) as (schedule' & m' & Hr & Hex);
    [eapply program_inv; eassumption | assumption | lia |].
  exists schedule', m'. split; [|assumption].
  unfold program in *. now rewrite run_app, Hm.
Qed.

End Runs.

(** ** Termination *)

(** C9: the computation terminates.  The inner loop at a candidate [v]
    needs no more than [v / 2 - 1] iterations.  The loop of thread [k]
    loses one of its [iterations] at each step of its stride [T], has no
    more of them than the quotient of [N] by [T] rounded up, and none when
    [N <= k].  A step, of [main] or of a thread, that changes the state
    uses up one of the finitely many [steps_left], so that no run goes on
    for ever.  Within the range of [int] the thread returns on that fuel
    with the count of its partition in its slot, and when every thread
    was started every run is defined under every schedule and can be
    continued until [main] has joined the threads, added the slots up and
    returned. *)
Theorem computation_terminates N T P :
  0 < N -> 0 < T ->
  (forall k, 0 <= k < T -> creates P k = true) ->
  (forall v, v <= INT_MAX ->
     exists flag j, for_loop (Z.to_nat (Z.quot v 2 - 1)) v 2 = Done (flag, j)) /\
  (forall k, 0 <= k < T ->
     iterations N T k <= (N + T - 1) / T /\
     (forall i, i < N -> iterations N T i = 1 + iterations N T (i + T)) /\
     (N <= k -> forall fi pc0, calculate_primes N T 0 fi k pc0 = Done pc0)) /\
  (forall fi schedule m p m',
     program N T P fi schedule = Done m -> step N T P fi p m = Done m' ->
     m' = m \/ (steps_left N T m' < steps_left N T m)%nat) /\
  (N + T <= INT_MAX + 1 ->
   (forall k, 0 <= k < T ->
      calculate_primes N T (Z.to_nat (iterations N T k)) (Z.to_nat (N / 2 - 1)) k
          (replicate (Z.to_nat T) 0)
        = Done (<[Z.to_nat k := count_primes (partition N T k)]>
                  (replicate (Z.to_nat T) 0))) /\
   (forall fi schedule, N / 2 - 1 <= Z.of_nat fi ->
      exists m, program N T P fi schedule = Done m /\
        exists schedule' m',
          program N T P fi (schedule ++ schedule') = Done m' /\ pc m' = Exited 0)).
Proof.
  intros HN HT Hcr. split; [|split; [|split]].
  - intros v Hv.
    destruct (for_loop_spec (Z.to_nat (Z.quot v 2 - 1)) v 2) as (flag & j & H & _);
      [lia | assumption | lia | eauto].
  - intros k Hk. split; [apply iterations_le; lia|].
    split; [intros i Hi; now apply iterations_step|].
    intros HNk fi pc0. unfold calculate_primes. simpl.
    now assert ((k <? N) = false) as -> by (apply Z.ltb_ge; lia).
  - intros fi schedule m p m' Hm Hs.
    eapply (step_decreases N T P HT); try eassumption.
    eapply program_inv; eassumption.
  - intros Hov. split.
    + intros k Hk. unfold calculate_primes.
      pose proof (count_partition_le_N N T HN HT k ltac:(lia)).
      rewrite (while_loop_spec N T HT Hov _ _ k k (replicate (Z.to_nat T) 0) 0);
        try lia.
      * reflexivity.
      * apply lookup_replicate_2. lia.
    + intros fi schedule Hfi. apply program_extends; auto.
Qed.

Lemma computation_terminates_witness :
  (exists flag j, for_loop (Z.to_nat (Z.quot 17 2 - 1)) 17 2 = Done (flag, j)) /\
  calculate_primes 10 3 (Z.to_nat (iterations 10 3 2)) (Z.to_nat (10 / 2 - 1)) 2
      (replicate (Z.to_nat 3) 0)
    = Done (<[Z.to_nat 2 := count_primes (partition 10 3 2)]> (replicate (Z.to_nat 3) 0)) /\
  (exists m, program 10 3 sample_platform 4 (round_robin 3 2) = Done m /\
     exists schedule' m',
       program 10 3 sample_platform 4 (round_robin 3 2 ++ schedule') = Done m' /\
       pc m' = Exited 0).
Proof.
  destruct (computation_terminates 10 3 sample_platform) as (H1 & _ & _ & H4).
  - lia.
  - lia.
  - reflexivity.
  - destruct H4 as [H4 H5]; [unfold INT_MAX; lia|].
    split; [apply H1; unfold INT_MAX; lia|].
    split; [apply H4; lia|]. apply H5. vm_compute. discriminate.
Defined.

(** ** Who writes to [prime_count] *)

Lemma worker_step_frame N T P fi k m m' :
  machine_inv N T P m -> worker_step N T fi k m = Done m' ->
  forall j : nat, j <> Z.to_nat k -> prime_count m' !! j = prime_count m !! j.
Proof.
  intros Hinv H j Hj. unfold worker_step in H.
  destruct (negb _) eqn:Hguard; [now injection H as <-|].
  apply negb_false_iff, andb_true_iff in Hguard as [Hk0%Z.leb_le HkT%Z.ltb_lt].
  apply bind_Done_inv in H as (th & Hth & H).
  apply array_get_inv in Hth as [_ Hth].
  destruct (lookup_lt_is_Some_2 (prime_count m) (Z.to_nat k)) as [c Hc].
  { rewrite (inv_counts _ _ _ _ Hinv), <- (inv_threads _ _ _ _ Hinv).
    now apply lookup_lt_Some in Hth. }
  pose proof (inv_slots _ _ _ _ Hinv _ _ _ Hth Hc) as Hslot.
  rewrite Z2Nat.id in Hslot by assumption.
  destruct th as [|i tn|i tn c0|]; try (now injection H as <-).
  - destruct (i <? N).
    + apply bind_Done_inv in H as (b & _ & H). destruct b.
      * apply bind_Done_inv in H as (c' & _ & H).
        apply bind_Done_inv in H as (t' & _ & H). now injection H as <-.
      * apply bind_Done_inv in H as (i' & _ & H).
        apply bind_Done_inv in H as (t' & _ & H). now injection H as <-.
    + apply bind_Done_inv in H as (t' & _ & H). now injection H as <-.
  - destruct Hslot as (-> & _).
    apply bind_Done_inv in H as (c' & _ & H).
    apply bind_Done_inv in H as (pc1 & Hpc1 & H).
    apply bind_Done_inv in H as (i' & _ & H).
    apply bind_Done_inv in H as (t' & _ & H). injection H as <-. simpl.
    apply array_set_inv in Hpc1 as [_ ->]. apply list_lookup_insert_ne. lia.
Qed.

Lemma main_step_counts T P m m' :
  main_step T P m = Done m' -> prime_count m' = prime_count m.
Proof.
  unfold main_step. intros H.
  destruct (pc m) as [|i|i|i acc|s].
  - now injection H as <-.
  - destruct (i <? T); [|now injection H as <-].
    apply bind_Done_inv in H as (t' & _ & H).
    apply bind_Done_inv in H as (i' & _ & H). now injection H as <-.
  - destruct (i <? T); [|now injection H as <-].
    apply bind_Done_inv in H as (th & _ & H).
    destruct (active th); [now injection H as <-|].
    destruct (negb (joins_unstarted P) && negb (started th)); [discriminate|].
    apply bind_Done_inv in H as (i' & _ & H). now injection H as <-.
  - destruct (i <? T); [|now injection H as <-].
    apply bind_Done_inv in H as (c & _ & H).
    apply bind_Done_inv in H as (acc' & _ & H).
    apply bind_Done_inv in H as (i' & _ & H). now injection H as <-.
  - now injection H as <-.
Qed.

Section Frame.

Variables (N T : Z) (P : platform).
Hypothesis T_pos : 0 < T.

Lemma worker_step_other_slot fi k m m' j :
  machine_inv N T P m -> worker_step N T fi k m = Done m' ->
  0 <= j -> j <> k ->
  prime_count m' !! Z.to_nat j = prime_count m !! Z.to_nat j.
Proof.
  intros Hinv H Hj Hne. destruct (Z.le_gt_cases 0 k) as [Hk|Hk].
  - eapply worker_step_frame; [eassumption | eassumption | lia].
  - unfold worker_step in H.
    assert (Hg : (0 <=? k) = false) by (apply Z.leb_gt; lia).
    rewrite Hg in H. simpl in H. now injection H as <-.
Qed.

(** A slot is as it was after any stretch of a run in which its thread
    took no step. *)
Lemma run_other_slot fi j schedule : forall m m',
  machine_inv N T P m -> run N T P fi schedule m = Done m' ->
  0 <= j -> Worker j ∉ schedule ->
  prime_count m' !! Z.to_nat j = prime_count m !! Z.to_nat j.
Proof.
  induction schedule as [|p schedule IH]; intros m m' Hinv H Hj Hnot; simpl in H.
  - now injection H as <-.
  - apply bind_Done_inv in H as (m1 & H1 & H).
    apply not_elem_of_cons in Hnot as [Hp Hnot].
    rewrite (IH m1 m'); try assumption;
      [|eapply (step_inv N T P T_pos); eassumption].
    destruct p as [|k]; simpl in H1.
    + now rewrite (main_step_counts _ _ _ _ H1).
    + eapply worker_step_other_slot; try eassumption. congruence.
Qed.

Hypothesis N_pos : 0 < N.
Hypothesis no_overflow : N + T <= INT_MAX + 1.

(** A thread scheduled on its own from its creation to its return does to
    [prime_count] what [calculate_primes] does when it is called. *)
Lemma thread_alone_is_calculate_primes fi (k : nat) m :
  machine_inv N T P m -> N / 2 - 1 <= Z.of_nat fi ->
  t_array m !! k = Some (Running (Z.of_nat k) (Z.of_nat k)) ->
  exists n m',
    run N T P fi (replicate n (Worker (Z.of_nat k))) m = Done m' /\
    t_array m' !! k = Some Returned /\
    calculate_primes N T (Z.to_nat (iterations N T (Z.of_nat k))) fi (Z.of_nat k)
      (prime_count m) = Done (prime_count m').
Proof.
  intros Hinv Hfi Hth.
  destruct (worker_returns N T P N_pos T_pos no_overflow fi k _ _ m Hinv Hfi Hth
              ltac:(discriminate) (Nat.le_refl _)) as (m' & Hr & _ & Hth').
  eexists _, m'. split; [exact Hr|]. split; [exact Hth'|].
  pose proof (run_inv N T P T_pos _ _ _ _ Hinv Hr) as Hinv'.
  pose proof (lookup_lt_Some _ _ _ Hth) as Hklt.
  rewrite (inv_threads _ _ _ _ Hinv) in Hklt.
  destruct (lookup_lt_is_Some_2 (prime_count m) k) as [c Hc];
    [now rewrite (inv_counts _ _ _ _ Hinv)|].
  destruct (lookup_lt_is_Some_2 (prime_count m') k) as [c' Hc'];
    [now rewrite (inv_counts _ _ _ _ Hinv')|].
  pose proof (inv_slots _ _ _ _ Hinv _ _ _ Hth Hc) as (_ & _ & Hc0 & _ & Hsum).
  pose proof (inv_slots _ _ _ _ Hinv' _ _ _ Hth' Hc') as [_ ->].
  assert (c = 0) as -> by lia.
  pose proof (count_partition_le_N N T N_pos T_pos (Z.of_nat k) ltac:(lia)).
  unfold calculate_primes.
  rewrite (while_loop_spec N T T_pos no_overflow _ _ _ _ _ 0);
    try lia; try (rewrite Nat2Z.id; assumption).
  f_equal. rewrite Z.add_0_l, Nat2Z.id. apply list_eq. intros j.
  destruct (decide (j = k)) as [->|Hne].
  - rewrite list_lookup_insert_eq by (now apply lookup_lt_Some in Hc). now rewrite Hc'.
  - rewrite list_lookup_insert_ne by congruence.
    rewrite <- (Nat2Z.id j). symmetry.
    eapply run_other_slot; [exact Hinv | exact Hr | lia |].
    intros [Heq _]%elem_of_replicate. injection Heq as Heq. lia.
Qed.

End Frame.

(** C7: thread [k] writes to [prime_count[k]] and to nothing else.  Run
    from entry to return, [calculate_primes] leaves every slot [j <> k] as
    it was; so does each single step of thread [k] among the other
    threads, in every state a run can reach; slot [j] is as it was after
    any stretch of a run in which thread [j] took no step; and [main]
    writes to no slot at all. *)
Theorem worker_writes_only_its_slot N T P :
  0 < T ->
  (forall fo fi k pc0 pc1 j, 0 <= k -> 0 <= j -> j <> k ->
     calculate_primes N T fo fi k pc0 = Done pc1 ->
     length pc1 = length pc0 /\ pc1 !! Z.to_nat j = pc0 !! Z.to_nat j) /\
  (forall fi schedule m k m' j,
     program N T P fi schedule = Done m -> worker_step N T fi k m = Done m' ->
     0 <= j -> j <> k ->
     prime_count m' !! Z.to_nat j = prime_count m !! Z.to_nat j) /\
  (forall fi schedule schedule' m m' j,
     program N T P fi schedule = Done m -> run N T P fi schedule' m = Done m' ->
     0 <= j -> Worker j ∉ schedule' ->
     prime_count m' !! Z.to_nat j = prime_count m !! Z.to_nat j) /\
  (forall m m', main_step T P m = Done m' -> prime_count m' = prime_count m).
Proof.
  intros HT. split; [|split; [|split]].
  - intros fo fi k pc0 pc1 j Hk Hj Hne H.
    apply while_loop_frame in H as [Hlen Hframe]. split; [assumption|].
    apply Hframe. lia.
  - intros fi schedule m k m' j Hm Hs Hj Hne.
    eapply worker_step_other_slot; try eassumption.
    eapply program_inv; eassumption.
  - intros fi schedule schedule' m m' j Hm Hr Hj Hnot.
    eapply (run_other_slot N T P HT); try eassumption.
    eapply program_inv; eassumption.
  - apply main_step_counts.
Qed.

Lemma worker_writes_only_its_slot_witness :
  calculate_primes 10 3 4 4 2 [5; 6; 7] = Done [5; 6; 9] /\
  length [5; 6; 9] = length [5; 6; 7] /\
  [5; 6; 9] !! Z.to_nat 1 = [5; 6; 7] !! Z.to_nat 1.
Proof.
  assert (H : calculate_primes 10 3 4 4 2 [5; 6; 7] = Done [5; 6; 9])
    by (vm_compute; reflexivity).
  split; [exact H|].
  apply (proj1 (worker_writes_only_its_slot 10 3 sample_platform ltac:(lia))
           4%nat 4%nat 2 [5; 6; 7] [5; 6; 9] 1); [lia | lia | lia | exact H].
Defined.

(** ** The total *)

(** C1: for positive [N] and [T], when every thread was started, a run
    that has reached the end of [main], under whatever schedule, has left
    in each slot the count of its partition; the sum of the slots, which
    is the number it printed, is the count of the sequential scan of
    [0, N) with the same test.  Within the range of [int] such runs
    exist: every schedule can be continued to one. *)
Theorem parallel_total_is_sequential_count N T P :
  0 < N -> 0 < T ->
  (forall k, 0 <= k < T -> creates P k = true) ->
  (forall fi schedule m s,
     program N T P fi schedule = Done m -> pc m = Exited s ->
     prime_count m = (fun k => count_primes (partition N T k)) <$> seqZ 0 T /\
     sumZ (prime_count m) = sequential_count N /\
     stdout m = [(format_sizeof, ArgULong (sizeof_short P));
                 (format_count, ArgInt (sequential_count N));
                 (format_took, ArgDouble (elapsed_usec P) 1000000)]) /\
  (N + T <= INT_MAX + 1 ->
   forall fi schedule, N / 2 - 1 <= Z.of_nat fi ->
     exists m, program N T P fi schedule = Done m /\
       exists schedule' m',
         program N T P fi (schedule ++ schedule') = Done m' /\ pc m' = Exited 0).
Proof.
  intros HN HT Hcr. split.
  - intros fi schedule m s Hm Hex.
    destruct (program_exited N T P HT _ _ _ _ Hm Hex) as (_ & Hpc & _ & Hout).
    rewrite (normal_total N T P HT Hcr) in Hout.
    rewrite Hpc, (normal_total N T P HT Hcr).
    rewrite (normal_final_counts N T P Hcr). auto.
  - intros Hov fi schedule Hfi. apply program_extends; auto.
Qed.

Lemma parallel_total_is_sequential_count_witness :
  exists m, program 10 3 sample_platform 4 (round_robin 3 24) = Done m /\
    pc m = Exited 0 /\ prime_count m = [1; 1; 2] /\
    sumZ (prime_count m) = sequential_count 10 /\ sequential_count 10 = 4.
Proof.
  eexists. split; [vm_compute; reflexivity|].
  split; [reflexivity|]. split; [reflexivity|]. split; [|reflexivity].
  refine (proj1 (proj2 (proj1 (parallel_total_is_sequential_count 10 3 sample_platform
            _ _ _) 4%nat (round_robin 3 24) _ 0 _ _))).
  - lia.
  - lia.
  - reflexivity.
  - vm_compute. reflexivity.
  - reflexivity.
Defined.

(** The array is zeroed when the process starts and at no other time: a
    second call of the thread function on the array the first call left
    adds to the counts that are there. *)
Lemma second_call_adds :
  calculate_primes 10 1 10 4 0 [0] ≫= calculate_primes 10 1 10 4 0 = Done [8].
Proof. vm_compute. reflexivity. Qed.

(** C8: the total is determined by [N] and [T].  Every run starts from
    the same state, with every slot at 0, and two runs in which the same
    threads were started, under any two schedules, with any fuel and any
    readings of the clock, end with the same slots and print the same
    total; on two normal runs it is the count of the sequential scan. *)
Theorem total_is_deterministic N T P1 P2 :
  0 < N -> 0 < T ->
  (forall k, 0 <= k < T -> creates P1 k = creates P2 k) ->
  prime_count (initial T) = replicate (Z.to_nat T) 0 /\
  (forall fi1 fi2 schedule1 schedule2 m1 m2 s1 s2,
     program N T P1 fi1 schedule1 = Done m1 -> pc m1 = Exited s1 ->
     program N T P2 fi2 schedule2 = Done m2 -> pc m2 = Exited s2 ->
     prime_count m1 = prime_count m2 /\
     exists total,
       stdout m1 = [(format_sizeof, ArgULong (sizeof_short P1));
                    (format_count, ArgInt total);
                    (format_took, ArgDouble (elapsed_usec P1) 1000000)] /\
       stdout m2 = [(format_sizeof, ArgULong (sizeof_short P2));
                    (format_count, ArgInt total);
                    (format_took, ArgDouble (elapsed_usec P2) 1000000)] /\
       ((forall k, 0 <= k < T -> creates P1 k = true) ->
        total = sequential_count N)).
Proof.
  intros HN HT Hsame. split; [reflexivity|].
  intros fi1 fi2 schedule1 schedule2 m1 m2 s1 s2 Hm1 Hex1 Hm2 Hex2.
  destruct (program_exited N T P1 HT _ _ _ _ Hm1 Hex1) as (_ & Hpc1 & _ & Hout1).
  destruct (program_exited N T P2 HT _ _ _ _ Hm2 Hex2) as (_ & Hpc2 & _ & Hout2).
  assert (Heq : final_counts N T P1 = final_counts N T P2).
  { unfold final_counts. apply list_fmap_ext.
    intros _ k Hk%list_elem_of_lookup_2%elem_of_seqZ.
    unfold final_count. now rewrite Hsame by lia. }
  split; [congruence|].
  exists (sumZ (final_counts N T P1)).
  split; [assumption|]. split; [now rewrite Heq|].
  intros Hcr. now apply normal_total.
Qed.

Lemma total_is_deterministic_witness :
  exists m1 m2,
    program 10 3 sample_platform 4 (round_robin 3 24) = Done m1 /\
    program 10 3 sample_platform 9 (one_by_one 3 10) = Done m2 /\
    prime_count m1 = prime_count m2.
Proof.
  eexists. eexists. split; [vm_compute; reflexivity|].
  split; [vm_compute; reflexivity|].
  refine (proj1 (proj2 (total_is_deterministic 10 3 sample_platform sample_platform
            _ _ _) 4%nat 9%nat (round_robin 3 24) (one_by_one 3 10) _ _ 0 0 _ _ _ _)).
  - lia.
  - lia.
  - reflexivity.
  - vm_compute. reflexivity.
  - reflexivity.
  - vm_compute. reflexivity.
  - reflexivity.
Defined.

(** ** More threads than numbers *)

(** What the sequential scan counts: the prime numbers below [n]. *)
Lemma sequential_count_counts_primes n :
  n <= INT_MAX ->
  exists primes : list Z,
    NoDup primes /\ (forall v, v ∈ primes <-> Z.prime v /\ v < n) /\
    sequential_count n = Z.of_nat (length primes).
Proof.
  intros Hn. exists (filter (fun v => isPrime v = true) (seqZ 0 n)).
  split; [apply NoDup_filter, NoDup_seqZ|]. split; [|reflexivity].
  intros v. rewrite list_elem_of_filter, elem_of_seqZ. split.
  - intros [Hp Hv]. split; [apply isPrime_prime; [lia | assumption] | lia].
  - intros [Hp Hv]. split; [apply isPrime_prime; [lia | assumption]|].
    destruct Hp as [H1 _]. lia.
Qed.

(** C6: with more threads than numbers nothing goes wrong.  A thread [k]
    with [N <= k] has an empty partition: its loop is left at the first
    test, without fuel and without a write, and its slot is 0 in every
    state a run reaches.  Within the range of [int] runs are defined
    under every schedule and can be continued to the end of [main], where
    the total is the count of the sequential scan; it is 0 when
    [N = 1].  That total is the correct one: the sum of the slots, which
    is the number printed under ["%d primes found"], is the number of
    prime numbers below [N], the length of a list without repetition of
    exactly the primes [v < N]. *)
Theorem more_threads_than_numbers N T P :
  0 < N -> 0 < T ->
  (forall k, 0 <= k < T -> creates P k = true) ->
  (forall k, N <= k < T ->
     partition N T k = [] /\ iterations N T k <= 0 /\
     (forall fi pc0, calculate_primes N T 0 fi k pc0 = Done pc0) /\
     (forall fi schedule m c,
        program N T P fi schedule = Done m ->
        prime_count m !! Z.to_nat k = Some c -> c = 0)) /\
  (N + T <= INT_MAX + 1 ->
   forall fi schedule, N / 2 - 1 <= Z.of_nat fi ->
     exists m, program N T P fi schedule = Done m /\
       exists schedule' m',
         program N T P fi (schedule ++ schedule') = Done m' /\ pc m' = Exited 0) /\
  (forall fi schedule m s,
     program N T P fi schedule = Done m -> pc m = Exited s ->
     sumZ (prime_count m) = sequential_count N /\
     (format_count, ArgInt (sequential_count N)) ∈ stdout m /\
     (N = 1 -> (format_count, ArgInt 0) ∈ stdout m)) /\
  (N <= INT_MAX ->
   forall fi schedule m s,
     program N T P fi schedule = Done m -> pc m = Exited s ->
     exists primes : list Z,
       NoDup primes /\ (forall v, v ∈ primes <-> Z.prime v /\ v < N) /\
       sumZ (prime_count m) = Z.of_nat (length primes) /\
       stdout m = [(format_sizeof, ArgULong (sizeof_short P));
                   (format_count, ArgInt (Z.of_nat (length primes)));
                   (format_took, ArgDouble (elapsed_usec P) 1000000)]).
Proof.
  intros HN HT Hcr. split; [|split; [|split]].
  - intros k Hk. split; [apply partition_nil; lia|].
    split; [apply iterations_done; lia|]. split.
    + intros fi pc0. unfold calculate_primes. simpl.
      now assert ((k <? N) = false) as -> by (apply Z.ltb_ge; lia).
    + intros fi schedule m c Hm Hc.
      eapply (empty_partition_slot N T P HT m (Z.to_nat k));
        [eapply program_inv; eassumption | lia | exact Hc].
  - intros Hov fi schedule Hfi. apply program_extends; auto.
  - intros fi schedule m s Hm Hex.
    destruct (program_exited N T P HT _ _ _ _ Hm Hex) as (_ & Hpc & _ & Hout).
    rewrite (normal_total N T P HT Hcr) in Hout.
    rewrite Hpc, (normal_total N T P HT Hcr), Hout.
    split; [reflexivity|].
    split; [apply list_elem_of_further, list_elem_of_here|].
    intros ->. change (sequential_count 1) with 0.
    apply list_elem_of_further, list_elem_of_here.
  - intros HNmax fi schedule m s Hm Hex.
    destruct (program_exited N T P HT _ _ _ _ Hm Hex) as (_ & Hpc & _ & Hout).
    rewrite (normal_total N T P HT Hcr) in Hout.
    destruct (sequential_count_counts_primes N HNmax) as (primes & Hnd & Hin & Hcount).
    exists primes. split; [exact Hnd|]. split; [exact Hin|].
    rewrite Hpc, (normal_total N T P HT Hcr), Hout, Hcount. auto.
Qed.

Lemma more_threads_than_numbers_witness :
  (partition 1 4 2 = [] /\ iterations 1 4 2 <= 0 /\
   (forall fi pc0, calculate_primes 1 4 0 fi 2 pc0 = Done pc0) /\
   (forall fi schedule m c,
      program 1 4 sample_platform fi schedule = Done m ->
      prime_count m !! Z.to_nat 2 = Some c -> c = 0)) /\
  (exists m, program 1 4 sample_platform 0 (round_robin 4 24) = Done m /\
     pc m = Exited 0 /\ prime_count m = [0; 0; 0; 0] /\
     (format_count, ArgInt 0) ∈ stdout m) /\
  (exists m, program 10 12 sample_platform 4 (round_robin 12 45) = Done m /\
     pc m = Exited 0 /\
     prime_count m = [0; 0; 1; 1; 0; 1; 0; 1; 0; 0; 0; 0] /\
     sumZ (prime_count m) = 4 /\
     exists primes : list Z,
       NoDup primes /\ (forall v, v ∈ primes <-> Z.prime v /\ v < 10) /\
       sumZ (prime_count m) = Z.of_nat (length primes) /\
       stdout m = [(format_sizeof, ArgULong (sizeof_short sample_platform));
                   (format_count, ArgInt (Z.of_nat (length primes)));
                   (format_took, ArgDouble (elapsed_usec sample_platform) 1000000)]).
Proof.
  destruct (more_threads_than_numbers 1 4 sample_platform) as (H1 & _ & H3 & _).
  - lia.
  - lia.
  - reflexivity.
  - destruct (more_threads_than_numbers 10 12 sample_platform) as (_ & _ & _ & H4).
    + lia.
    + lia.
    + reflexivity.
    + split; [apply H1; lia|]. split.
      * eexists. split; [vm_compute; reflexivity|].
        split; [reflexivity|]. split; [reflexivity|].
        refine (proj2 (proj2 (H3 0%nat (round_robin 4 24) _ 0 _ _)) _).
        -- vm_compute. reflexivity.
        -- reflexivity.
        -- reflexivity.
      * eexists. split; [vm_compute; reflexivity|].
        split; [reflexivity|]. split; [reflexivity|]. split; [reflexivity|].
        refine (H4 _ 4%nat (round_robin 12 45) _ 0 _ _).
        -- unfold INT_MAX. lia.
        -- vm_compute. reflexivity.
        -- reflexivity.
Defined.

(** ** Standard output *)

(** C4 as the specification has it fails: a normal run writes three
    lines, and the first is not the count. *)
Lemma stdout_two_lines_counterexample :
  exists m, program 10 3 sample_platform 4 (round_robin 3 24) = Done m /\
    pc m = Exited 0 /\
    stdout m = [(format_sizeof, ArgULong 2); (format_count, ArgInt 4);
                (format_took, ArgDouble 1000002 1000000)] /\
    line_count (stdout m) = 3%nat /\
    ~ (exists count seconds,
         stdout m = [(format_count, ArgInt count); (format_took, seconds)]).
Proof.
  eexists. split; [vm_compute; reflexivity|].
  split; [reflexivity|]. split; [reflexivity|]. split; [reflexivity|].
  intros (count & seconds & H). vm_compute in H. discriminate H.
Qed.

(** C4, amended: a normal run that has reached the end of [main] has
    written exactly three lines, each with one call of [printf] whose
    format ends in its only newline: the size of [short] under ["%lu"],
    the count of the primes of [0, N) under ["%d primes found"], and the
    elapsed microseconds divided by 1000000 under ["took %f sec"]; [main]
    returned 0. *)
Theorem stdout_three_lines N T P :
  0 < N -> 0 < T ->
  (forall k, 0 <= k < T -> creates P k = true) ->
  forall fi schedule m s,
    program N T P fi schedule = Done m -> pc m = Exited s ->
    s = 0 /\
    stdout m = [(format_sizeof, ArgULong (sizeof_short P));
                (format_count, ArgInt (sequential_count N));
                (format_took, ArgDouble (elapsed_usec P) 1000000)] /\
    line_count (stdout m) = 3%nat /\
    format_sizeof = "%lu" +:+ LF /\ newlines format_sizeof = 1%nat /\
    format_count = "%d primes found" +:+ LF /\ newlines format_count = 1%nat /\
    format_took = "took %f sec" +:+ LF /\ newlines format_took = 1%nat /\
    elapsed_usec P = (tv_sec (stop P) - tv_sec (start P)) * 1000000
                     + tv_usec (stop P) - tv_usec (start P).
Proof.
  intros HN HT Hcr fi schedule m s Hm Hex.
  destruct (program_exited N T P HT _ _ _ _ Hm Hex) as (-> & _ & _ & Hout).
  rewrite (normal_total N T P HT Hcr) in Hout. rewrite Hout.
  repeat split.
Qed.

Lemma stdout_three_lines_witness :
  exists m, program 10 3 sample_platform 4 (one_by_one 3 10) = Done m /\
    stdout m = [(format_sizeof, ArgULong 2); (format_count, ArgInt (sequential_count 10));
                (format_took, ArgDouble (elapsed_usec sample_platform) 1000000)] /\
    line_count (stdout m) = 3%nat.
Proof.
  eexists. split; [vm_compute; reflexivity|].
  destruct (stdout_three_lines 10 3 sample_platform ltac:(lia) ltac:(lia)
              ltac:(reflexivity)
              4%nat (one_by_one 3 10) _ 0 ltac:(vm_compute; reflexivity) eq_refl)
    as (_ & H1 & H2 & _).
  split; [exact H1 | exact H2].
Defined.

(** C10: the first thing the program does is to print the size of
    [short] under ["%lu"] and a newline.  As long as [main] has not done
    so nothing is in the trace and no thread is started; afterwards the
    trace begins with that [printf], followed by the first reading of the
    clock and then by the other events, the calls of [pthread_create]
    among them.  At the end of [main] standard output has three lines,
    under every schedule and whichever threads were started. *)
Theorem sizeof_line_comes_first N T P :
  0 < T ->
  forall fi schedule m,
    program N T P fi schedule = Done m ->
    format_sizeof = "%lu" +:+ LF /\
    (pc m = Line34 ->
       trace m = [] /\ forall k th, t_array m !! k = Some th -> th = Unstarted) /\
    (pc m <> Line34 ->
       exists rest,
         trace m = Printf format_sizeof (ArgULong (sizeof_short P))
                   :: Gettimeofday (start P) :: rest /\
         head (stdout m) = Some (format_sizeof, ArgULong (sizeof_short P))) /\
    (forall s, pc m = Exited s ->
       trace m = Printf format_sizeof (ArgULong (sizeof_short P))
                 :: Gettimeofday (start P)
                 :: create_events P T ++ join_events T
                    ++ epilogue P (sumZ (final_counts N T P)) /\
       length (stdout m) = 3%nat /\ line_count (stdout m) = 3%nat).
Proof.
  intros HT fi schedule m Hm.
  pose proof (program_inv N T P HT _ _ _ Hm) as Hinv.
  pose proof (inv_pc _ _ _ _ Hinv) as Hpc. unfold pc_inv in Hpc.
  split; [reflexivity|]. split; [|split].
  - intros E. rewrite E in Hpc. split; [assumption|].
    intros k th Hth. eapply (inv_uncreated _ _ _ _ Hinv); [eassumption|].
    rewrite E. simpl. lia.
  - intros Hne. unfold stdout.
    destruct (pc m) as [|i|i|i acc|s]; [congruence| | | |].
    + destruct Hpc as [_ ->]. eexists. split; reflexivity.
    + destruct Hpc as [_ ->]. eexists. split; reflexivity.
    + destruct Hpc as (_ & -> & _). eexists. split; reflexivity.
    + destruct Hpc as [_ ->]. eexists. split; reflexivity.
  - intros s Hex.
    destruct (exited_state N T P HT m s Hinv Hex) as (_ & _ & Htr & Hout).
    rewrite Hout. split; [exact Htr|]. split; reflexivity.
Qed.

Lemma sizeof_line_comes_first_witness :
  exists m, program 10 3 sample_platform 4 [Main; Main; Worker 0; Main] = Done m /\
    exists rest,
      trace m = Printf format_sizeof (ArgULong 2)
                :: Gettimeofday {| tv_sec := 10; tv_usec := 5 |} :: rest /\
      head (stdout m) = Some (format_sizeof, ArgULong 2).
Proof.
  eexists. split; [vm_compute; reflexivity|].
  refine (proj1 (proj2 (proj2 (sizeof_line_comes_first 10 3 sample_platform _
            4%nat [Main; Main; Worker 0; Main] _ _))) _).
  - lia.
  - vm_compute. reflexivity.
  - discriminate.
Defined.

(** ** A thread that does not start *)

(** C5 as the specification has it fails: the second [pthread_create]
    fails, [main] goes on, and the total it prints is the count of the one
    thread that ran. *)
Lemma failed_create_counterexample :
  exists m, program 10 2 failing_platform 4 (round_robin 2 24) = Done m /\
    pc m = Exited 0 /\
    Pthread_create 1 false ∈ trace m /\
    t_array m = [Returned; Unstarted] /\
    prime_count m = [count_primes (partition 10 2 0); 0] /\
    stdout m = [(format_sizeof, ArgULong 2); (format_count, ArgInt 1);
                (format_took, ArgDouble 1000002 1000000)] /\
    count_primes (partition 10 2 0) = 1 /\ count_primes (partition 10 2 1) = 3 /\
    sequential_count 10 = 4.
Proof.
  eexists. split; [vm_compute; reflexivity|].
  split; [reflexivity|]. split; [|repeat split].
  do 3 apply list_elem_of_further. apply list_elem_of_here.
Qed.

(** C5, amended: [main] does not look at what [pthread_create] returns
    and has no path that aborts the run.  On a platform where
    [pthread_join] returns for a thread that was never started, whichever
    threads fail to start, a run that has reached the end of [main] has
    returned 0; the slot of a thread that was started holds the count of
    its partition, the slot of a thread that was not started holds 0, and
    the total printed is the sum of the slots: the count of the threads
    that did start.  Within the range of [int] every schedule can be
    continued to such a run. *)
Theorem failed_create_is_not_detected N T P :
  0 < N -> 0 < T ->
  joins_unstarted P = true ->
  (forall fi schedule m s,
     program N T P fi schedule = Done m -> pc m = Exited s ->
     s = 0 /\
     prime_count m =
       (fun k => if creates P k then count_primes (partition N T k) else 0)
         <$> seqZ 0 T /\
     trace m = prologue P ++ create_events P T ++ join_events T
               ++ epilogue P (sumZ (prime_count m)) /\
     stdout m = [(format_sizeof, ArgULong (sizeof_short P));
                 (format_count, ArgInt (sumZ (prime_count m)));
                 (format_took, ArgDouble (elapsed_usec P) 1000000)]) /\
  (N + T <= INT_MAX + 1 ->
   forall fi schedule, N / 2 - 1 <= Z.of_nat fi ->
     exists m, program N T P fi schedule = Done m /\
       exists schedule' m',
         program N T P fi (schedule ++ schedule') = Done m' /\ pc m' = Exited 0).
Proof.
  intros HN HT Hjoin. split.
  - intros fi schedule m s Hm Hex.
    destruct (program_exited N T P HT _ _ _ _ Hm Hex) as (-> & Hpc & Htr & Hout).
    rewrite Hpc. auto.
  - intros Hov fi schedule Hfi. apply program_extends; auto.
Qed.

Lemma failed_create_is_not_detected_witness :
  exists m, program 10 2 failing_platform 4 (round_robin 2 24) = Done m /\
    prime_count m =
      (fun k => if creates failing_platform k
                then count_primes (partition 10 2 k) else 0) <$> seqZ 0 2 /\
    stdout m = [(format_sizeof, ArgULong 2);
                (format_count, ArgInt (sumZ (prime_count m)));
                (format_took, ArgDouble (elapsed_usec failing_platform) 1000000)].
Proof.
  eexists. split; [vm_compute; reflexivity|].
  destruct (proj1 (failed_create_is_not_detected 10 2 failing_platform
                     ltac:(lia) ltac:(lia) eq_refl)
              4%nat (round_robin 2 24) _ 0 ltac:(vm_compute; reflexivity) eq_refl)
    as (_ & H1 & _ & H2).
  split; [exact H1 | exact H2].
Defined.

(** * Further properties of primes.c *)

(** ** The joins as a barrier *)

(** X1: [main] reads a slot of [prime_count] only when its thread is done
    with it.  While [main] is creating the threads, those it has not come
    to are not started.  Once [main] has passed the [pthread_join] of
    thread [k], that thread has returned if it was started and is still
    unstarted otherwise, and its slot holds its final value.  In the loop
    that adds the slots up no thread is active, the array is final and
    [primes_counted] is the sum of the slots read so far. *)
Theorem join_is_a_barrier N T P :
  0 < T ->
  forall fi schedule m, program N T P fi schedule = Done m ->
    (forall i (k : nat) th, pc m = Line42 i -> i <= Z.of_nat k ->
       t_array m !! k = Some th -> th = Unstarted) /\
    (forall i (k : nat) th c, pc m = Line46 i -> Z.of_nat k < i ->
       t_array m !! k = Some th -> prime_count m !! k = Some c ->
       th = (if creates P (Z.of_nat k) then Returned else Unstarted) /\
       c = final_count N T P (Z.of_nat k)) /\
    (forall i primes_counted, pc m = Line50 i primes_counted ->
       (forall k th, t_array m !! k = Some th -> active th = false) /\
       prime_count m = final_counts N T P /\
       primes_counted = sumZ (take (Z.to_nat i) (final_counts N T P))).
Proof.
  intros HT fi schedule m Hm.
  pose proof (program_inv N T P HT _ _ _ Hm) as Hinv.
  split; [|split].
  - intros i k th Hpc Hik Hth.
    apply (inv_uncreated _ _ _ _ Hinv k th Hth). now rewrite Hpc.
  - intros i k th c Hpc Hki Hth Hc.
    pose proof (inv_slots _ _ _ _ Hinv _ _ _ Hth Hc) as Hslot.
    pose proof (inv_pc _ _ _ _ Hinv) as Hpci. unfold pc_inv in Hpci.
    rewrite Hpc in Hpci. destruct Hpci as [Hi _].
    unfold final_count. destruct th as [|j tn|j tn c0|]; simpl in Hslot.
    + destruct (inv_unstarted _ _ _ _ Hinv _ Hth) as [Hle|Hcr].
      * rewrite Hpc in Hle. simpl in Hle. lia.
      * now rewrite Hcr.
    + pose proof (inv_active _ _ _ _ Hinv _ _ Hth eq_refl) as Hj.
      rewrite Hpc in Hj. simpl in Hj. lia.
    + pose proof (inv_active _ _ _ _ Hinv _ _ Hth eq_refl) as Hj.
      rewrite Hpc in Hj. simpl in Hj. lia.
    + destruct Hslot as [-> ->]. auto.
  - intros i acc Hpc.
    pose proof (inv_pc _ _ _ _ Hinv) as Hpci. unfold pc_inv in Hpci.
    rewrite Hpc in Hpci. destruct Hpci as (Hi & _ & Hacc).
    assert (Hfin : prime_count m = final_counts N T P)
      by (apply (joined_counts N T P HT); [assumption | now rewrite Hpc | now rewrite Hpc]).
    split; [|split; [assumption | now rewrite <- Hfin]].
    intros k th Hth. destruct (active th) eqn:Hact; [|reflexivity].
    pose proof (inv_active _ _ _ _ Hinv _ _ Hth Hact) as Hj.
    rewrite Hpc in Hj. simpl in Hj.
    apply lookup_lt_Some in Hth. rewrite (inv_threads _ _ _ _ Hinv) in Hth. lia.
Qed.

Lemma join_is_a_barrier_witness :
  exists m, program 10 3 sample_platform 4 (round_robin 3 11) = Done m /\
    pc m = Line50 0 0 /\
    (forall k th, t_array m !! k = Some th -> active th = false) /\
    prime_count m = final_counts 10 3 sample_platform /\
    prime_count m = [1; 1; 2].
Proof.
  eexists. split; [vm_compute; reflexivity|]. split; [reflexivity|].
  destruct (proj2 (proj2 (join_is_a_barrier 10 3 sample_platform ltac:(lia)
              4%nat (round_robin 3 11) _ ltac:(vm_compute; reflexivity))) 0 0 eq_refl)
    as (H1 & H2 & _).
  split; [exact H1|]. split; [exact H2 | reflexivity].
Defined.

(** ** The increment *)

(** X2: the increment of line 25 is not atomic and loses no update all
    the same.  A thread that has read its slot and not yet written it back
    finds the slot as it read it, at a prime of its range; a slot never
    holds more than the count of its partition; and a step changes a slot
    only by adding 1 to it, which only the write of the slot's own thread
    does. *)
Theorem increment_loses_no_update N T P :
  0 < T ->
  forall fi schedule m, program N T P fi schedule = Done m ->
    (forall (k : nat) i tn c, t_array m !! k = Some (Incrementing i tn c) ->
       tn = Z.of_nat k /\ prime_count m !! k = Some c /\
       0 <= i < N /\ isPrime i = true) /\
    (forall (k : nat) c, prime_count m !! k = Some c ->
       0 <= c <= count_primes (partition N T (Z.of_nat k))) /\
    (forall p m' (k : nat) c c', step N T P fi p m = Done m' ->
       prime_count m !! k = Some c -> prime_count m' !! k = Some c' ->
       c' = c \/
       (c' = c + 1 /\ p = Worker (Z.of_nat k) /\
        exists i, t_array m !! k = Some (Incrementing i (Z.of_nat k) c))).
Proof.
  intros HT fi schedule m Hm.
  pose proof (program_inv N T P HT _ _ _ Hm) as Hinv.
  assert (Hslot : forall (k : nat) th, t_array m !! k = Some th ->
            exists c, prime_count m !! k = Some c /\ thread_inv N T P (Z.of_nat k) th c).
  { intros k th Hth.
    destruct (lookup_lt_is_Some_2 (prime_count m) k) as [c Hc].
    - rewrite (inv_counts _ _ _ _ Hinv), <- (inv_threads _ _ _ _ Hinv).
      now apply lookup_lt_Some in Hth.
    - exists c. split; [assumption|]. eapply inv_slots; eassumption. }
  split; [|split].
  - intros k i tn c Hth. destruct (Hslot _ _ Hth) as (c1 & Hc1 & Hinv1).
    simpl in Hinv1. destruct Hinv1 as (-> & Hi & Hp & -> & _). auto.
  - intros k c Hc.
    destruct (lookup_lt_is_Some_2 (t_array m) k) as [th Hth].
    { rewrite (inv_threads _ _ _ _ Hinv), <- (inv_counts _ _ _ _ Hinv).
      now apply lookup_lt_Some in Hc. }
    pose proof (inv_slots _ _ _ _ Hinv _ _ _ Hth Hc) as Hinv1.
    pose proof (count_primes_bounds (partition N T (Z.of_nat k))) as Hb.
    destruct th as [|i tn|i tn c0|]; simpl in Hinv1.
    + lia.
    + destruct Hinv1 as (_ & _ & Hc0 & _ & Hsum).
      pose proof (count_primes_bounds (partition N T i)). lia.
    + destruct Hinv1 as (_ & _ & _ & _ & Hc0 & _ & Hsum).
      pose proof (count_primes_bounds (partition N T i)). lia.
    + lia.
  - intros p m' k c c' Hs Hc Hc'. destruct p as [|j]; simpl in Hs.
    + rewrite (main_step_counts _ _ _ _ Hs), Hc in Hc'. left. congruence.
    + destruct (decide (k = Z.to_nat j /\ 0 <= j)) as [[-> Hj]|Hne].
      * unfold worker_step in Hs.
        destruct (negb _) eqn:Hguard;
          [injection Hs as <-; left; congruence|].
        apply bind_Done_inv in Hs as (th & Hth & Hs).
        apply array_get_inv in Hth as [_ Hth].
        pose proof (inv_slots _ _ _ _ Hinv _ _ _ Hth Hc) as Hinv1.
        rewrite Z2Nat.id in * by assumption.
        destruct th as [|i tn|i tn c0|];
          try (injection Hs as <-; left; congruence).
        -- destruct (i <? N).
           ++ apply bind_Done_inv in Hs as (b & _ & Hs). destruct b.
              ** apply bind_Done_inv in Hs as (c1 & _ & Hs).
                 apply bind_Done_inv in Hs as (t' & _ & Hs).
                 injection Hs as <-. left. simpl in Hc'. congruence.
              ** apply bind_Done_inv in Hs as (i' & _ & Hs).
                 apply bind_Done_inv in Hs as (t' & _ & Hs).
                 injection Hs as <-. left. simpl in Hc'. congruence.
           ++ apply bind_Done_inv in Hs as (t' & _ & Hs).
              injection Hs as <-. left. simpl in Hc'. congruence.
        -- simpl in Hinv1. destruct Hinv1 as (-> & _ & _ & -> & _).
           apply bind_Done_inv in Hs as (c1 & Hc1 & Hs).
           apply bind_Done_inv in Hs as (pc1 & Hpc1 & Hs).
           apply bind_Done_inv in Hs as (i' & _ & Hs).
           apply bind_Done_inv in Hs as (t' & _ & Hs).
           injection Hs as <-. simpl in Hc'.
           apply int_add_inv in Hc1 as [-> _].
           apply array_set_inv in Hpc1 as [_ ->].
           rewrite list_lookup_insert_eq in Hc' by (now apply lookup_lt_Some in Hc).
           injection Hc' as <-. right. split; [reflexivity|].
           split; [reflexivity|]. eauto.
      * left. destruct (Z.le_gt_cases 0 j) as [Hj|Hj].
        -- rewrite (worker_step_frame N T P _ _ _ _ Hinv Hs k), Hc in Hc';
             [congruence | tauto].
        -- unfold worker_step in Hs.
           assert (Hg : (0 <=? j) = false) by (apply Z.leb_gt; lia).
           rewrite Hg in Hs. simpl in Hs. injection Hs as <-. congruence.
Qed.

Lemma increment_loses_no_update_witness :
  exists m, program 10 3 sample_platform 4 (round_robin 3 3) = Done m /\
    t_array m !! 0%nat = Some (Incrementing 3 0 0) /\
    (0 = Z.of_nat 0 /\ prime_count m !! 0%nat = Some 0 /\
     0 <= 3 < 10 /\ isPrime 3 = true).
Proof.
  eexists. split; [vm_compute; reflexivity|].
  split; [reflexivity|].
  apply (proj1 (increment_loses_no_update 10 3 sample_platform ltac:(lia)
           4%nat (round_robin 3 3) _ ltac:(vm_compute; reflexivity)) 0%nat 3 0 0).
  reflexivity.
Defined.

(** ** The range of [int] *)

Lemma congruent_above a b T : 0 < T -> a mod T = b mod T -> a < b -> a + T <= b.
Proof.
  intros HT H Hlt.
  pose proof (Z.div_mod a T ltac:(lia)) as Ha.
  pose proof (Z.div_mod b T ltac:(lia)) as Hb.
  rewrite H in Ha. assert (a / T < b / T) by nia. nia.
Qed.

Lemma mod_add_stride i T : 0 < T -> (i + T) mod T = i mod T.
Proof.
  intros HT. replace (i + T) with (i + 1 * T) by lia. apply Z_mod_plus_full.
Qed.

Lemma int_add_not_Timeout a b : int_add a b <> Timeout.
Proof. unfold int_add. now destruct (_ && _). Qed.

(** A loop that is left has come to a value of its progression that is
    not below [N]; it is an [int] when the loop was entered. *)
Lemma while_loop_Done_stride N T fo : forall fi i tn pc0 pc1,
  0 < T -> while_loop N T fo fi i tn pc0 = Done pc1 ->
  exists l, N <= l /\ l mod T = i mod T /\ i <= l /\
    (i < N -> l <= INT_MAX) /\ (N <= i -> l = i).
Proof.
  induction fo as [|fo IH]; intros fi i tn pc0 pc1 HT H; simpl in H.
  - destruct (i <? N) eqn:E; [discriminate|]. apply Z.ltb_ge in E.
    exists i. repeat split; auto; lia.
  - destruct (i <? N) eqn:E.
    + apply Z.ltb_lt in E.
      apply bind_Done_inv in H as (pc' & _ & H).
      apply bind_Done_inv in H as (i' & Hi' & H).
      apply int_add_inv in Hi' as [-> Hint].
      apply IH in H as (l & Hl & Hmod & Hle & Hmax & Heq); [|assumption].
      exists l. rewrite mod_add_stride in Hmod by assumption.
      repeat split; try assumption; try lia.
      intros _. destruct (Z.lt_ge_cases (i + T) N) as [Hlt|Hge]; [auto|].
      rewrite (Heq Hge). unfold is_int in Hint. lia.
    + apply Z.ltb_ge in E. exists i. repeat split; auto; lia.
Qed.

(** Beyond the range of [int] the thread whose partition ends at [N - 1]
    comes to the overflow of [i += THREAD_COUNT]. *)
Lemma while_loop_overflow N T fo : forall fi i tn pc0 c,
  0 < T -> N <= INT_MAX -> INT_MAX + 1 < N + T ->
  N / 2 - 1 <= Z.of_nat fi -> iterations N T i <= Z.of_nat fo ->
  0 <= i < N -> i mod T = (N - 1) mod T ->
  0 <= tn -> pc0 !! Z.to_nat tn = Some c -> 0 <= c ->
  c + count_primes (partition N T i) <= INT_MAX ->
  while_loop N T fo fi i tn pc0 = Fault.
Proof.
  induction fo as [|fo IH]; intros fi i tn pc0 c HT HN Hov Hfi Hfo Hi Hmod Htn Hc Hc0 Hsum.
  - pose proof (iterations_step N T HT i ltac:(lia)).
    pose proof (iterations_nonneg N T HT i ltac:(lia)). lia.
  - simpl. assert ((i <? N) = true) as -> by (apply Z.ltb_lt; lia).
    rewrite (partition_cons N T HT i ltac:(lia)), count_primes_cons in Hsum.
    pose proof (count_primes_bounds (partition N T (i + T))) as Hb.
    rewrite (loop_body_spec fi i tn pc0 c); try assumption; try lia.
    + simpl. destruct (int_add i T) as [i'| |] eqn:Ei.
      * apply int_add_inv in Ei as [-> Hint]. simpl.
        assert (Hlt : i + T <= N - 1).
        { destruct (Z.eq_dec i (N - 1)) as [->|Hne]; [unfold is_int in Hint; lia|].
          apply congruent_above; [assumption | assumption | lia]. }
        apply (IH fi (i + T) tn _ (if isPrime i then c + 1 else c));
          try assumption; try lia.
        -- pose proof (iterations_step N T HT i ltac:(lia)). lia.
        -- now rewrite mod_add_stride.
        -- destruct (isPrime i); [|assumption].
           apply list_lookup_insert_eq. now apply lookup_lt_Some in Hc.
        -- destruct (isPrime i); lia.
        -- destruct (isPrime i); lia.
      * now apply int_add_not_Timeout in Ei.
      * reflexivity.
    + rewrite quot2_nonneg by lia.
      pose proof (Z.div_le_mono i N 2 ltac:(lia) ltac:(lia)). lia.
    + intros Hp. rewrite Hp in Hsum. unfold is_int, INT_MIN, INT_MAX in *. lia.
Qed.

Lemma initial_stride N T : stride_inv N T (initial T).
Proof.
  intros k th H. simpl in H. apply lookup_replicate in H as [-> _]. exact I.
Qed.

Lemma stride_insert N T (l : list thread) (k : nat) th' :
  (forall j th, l !! j = Some th -> thread_stride N T (Z.of_nat j) th) ->
  thread_stride N T (Z.of_nat k) th' ->
  forall j th, <[k := th']> l !! j = Some th -> thread_stride N T (Z.of_nat j) th.
Proof.
  intros Hl Hk j th H.
  apply list_lookup_insert_Some in H as [(-> & -> & _)|[_ H]]; auto.
Qed.

Lemma worker_step_stride N T P fi k m m' :
  0 < T -> machine_inv N T P m -> stride_inv N T m ->
  worker_step N T fi k m = Done m' -> stride_inv N T m'.
Proof.
  intros HT Hinv Hst H. unfold worker_step in H.
  destruct (negb _) eqn:Hguard; [now injection H as <-|].
  apply negb_false_iff, andb_true_iff in Hguard as [Hk0%Z.leb_le HkT%Z.ltb_lt].
  apply bind_Done_inv in H as (th & Hth & H).
  apply array_get_inv in Hth as [_ Hth].
  pose proof (Hst _ _ Hth) as Hstride. rewrite Z2Nat.id in Hstride by assumption.
  destruct (lookup_lt_is_Some_2 (prime_count m) (Z.to_nat k)) as [c Hc].
  { rewrite (inv_counts _ _ _ _ Hinv), <- (inv_threads _ _ _ _ Hinv).
    now apply lookup_lt_Some in Hth. }
  pose proof (inv_slots _ _ _ _ Hinv _ _ _ Hth Hc) as Hslot.
  destruct th as [|i tn|i tn c0|]; simpl in Hslot, Hstride;
    try (now injection H as <-).
  - destruct (i <? N) eqn:E.
    + apply bind_Done_inv in H as (b & _ & H). destruct b.
      * apply bind_Done_inv in H as (c' & _ & H).
        apply bind_Done_inv in H as (t' & Ht' & H).
        apply array_set_inv in Ht' as [_ ->]. injection H as <-.
        unfold stride_inv. simpl. apply stride_insert; [exact Hst|].
        rewrite Z2Nat.id by assumption. exact Hstride.
      * apply bind_Done_inv in H as (i' & Hi' & H).
        apply bind_Done_inv in H as (t' & Ht' & H).
        apply int_add_inv in Hi' as [-> _].
        apply array_set_inv in Ht' as [_ ->]. injection H as <-.
        unfold stride_inv. simpl. apply stride_insert; [exact Hst|].
        rewrite Z2Nat.id by assumption. simpl.
        rewrite mod_add_stride by assumption. split; [tauto | lia].
    + apply Z.ltb_ge in E.
      apply bind_Done_inv in H as (t' & Ht' & H).
      apply array_set_inv in Ht' as [_ ->]. injection H as <-.
      unfold stride_inv. simpl. apply stride_insert; [exact Hst|].
      rewrite Z2Nat.id by assumption. simpl.
      exists i. split; [lia | tauto].
  - apply bind_Done_inv in H as (c' & _ & H).
    apply bind_Done_inv in H as (pc1 & _ & H).
    apply bind_Done_inv in H as (i' & Hi' & H).
    apply bind_Done_inv in H as (t' & Ht' & H).
    apply int_add_inv in Hi' as [-> _].
    apply array_set_inv in Ht' as [_ ->]. injection H as <-.
    unfold stride_inv. simpl. apply stride_insert; [exact Hst|].
    rewrite Z2Nat.id by assumption. simpl.
    rewrite mod_add_stride by assumption. split; [tauto | lia].
Qed.

Lemma main_step_stride N T P m m' :
  stride_inv N T m -> main_step T P m = Done m' -> stride_inv N T m'.
Proof.
  intros Hst H. unfold main_step in H.
  destruct (pc m) as [|i|i|i acc|s].
  - now injection H as <-.
  - destruct (i <? T); [|now injection H as <-].
    apply bind_Done_inv in H as (t' & Ht' & H).
    apply bind_Done_inv in H as (i' & _ & H). injection H as <-.
    unfold stride_inv. simpl. destruct (creates P i).
    + apply array_set_inv in Ht' as [Hi ->]. apply stride_insert; [exact Hst|].
      simpl. rewrite Z2Nat.id by lia. split; [reflexivity | lia].
    + apply bind_Done_inv in Ht' as (th & _ & Ht'). injection Ht' as <-. exact Hst.
  - destruct (i <? T); [|now injection H as <-].
    apply bind_Done_inv in H as (th & _ & H).
    destruct (active th); [now injection H as <-|].
    destruct (negb (joins_unstarted P) && negb (started th)); [discriminate|].
    apply bind_Done_inv in H as (i' & _ & H). now injection H as <-.
  - destruct (i <? T); [|now injection H as <-].
    apply bind_Done_inv in H as (c & _ & H).
    apply bind_Done_inv in H as (acc' & _ & H).
    apply bind_Done_inv in H as (i' & _ & H). now injection H as <-.
  - now injection H as <-.
Qed.

Lemma run_stride N T P fi schedule : forall m m',
  0 < T -> machine_inv N T P m -> stride_inv N T m ->
  run N T P fi schedule m = Done m' -> stride_inv N T m'.
Proof.
  induction schedule as [|p schedule IH]; intros m m' HT Hinv Hst H; simpl in H.
  - now injection H as <-.
  - apply bind_Done_inv in H as (m1 & H1 & H).
    apply (IH m1 m' HT); [eapply step_inv; eassumption | | assumption].
    destruct p as [|k]; simpl in H1.
    + eapply main_step_stride; eassumption.
    + eapply worker_step_stride; eassumption.
Qed.

(** X3: the stride has to fit in an [int].  When [N + THREAD_COUNT]
    exceeds [INT_MAX + 1] the thread whose partition ends at [N - 1] never
    returns from [calculate_primes]: with the fuel its loops need it comes
    to the overflow of [i += THREAD_COUNT], and with less it is still in
    its loop.  No run in which that thread was started comes to the end of
    [main]. *)
Theorem stride_must_fit_in_int N T P :
  0 < N -> 0 < T -> INT_MAX + 1 < N + T ->
  (forall fo fi pc0 pc1,
     calculate_primes N T fo fi ((N - 1) mod T) pc0 <> Done pc1) /\
  (N <= INT_MAX -> forall fo fi pc0 c,
     iterations N T ((N - 1) mod T) <= Z.of_nat fo -> N / 2 - 1 <= Z.of_nat fi ->
     pc0 !! Z.to_nat ((N - 1) mod T) = Some c -> 0 <= c ->
     c + count_primes (partition N T ((N - 1) mod T)) <= INT_MAX ->
     calculate_primes N T fo fi ((N - 1) mod T) pc0 = Fault) /\
  (creates P ((N - 1) mod T) = true ->
   forall fi schedule m s, program N T P fi schedule = Done m -> pc m <> Exited s).
Proof.
  intros HN HT Hov.
  pose proof (Z.mod_pos_bound (N - 1) T HT) as Hk.
  pose proof (Z.mod_le (N - 1) T ltac:(lia) HT) as HkN.
  split; [|split].
  - intros fo fi pc0 pc1 H. unfold calculate_primes in H.
    apply while_loop_Done_stride in H as (l & Hl & Hmod & _ & Hmax & _);
      [|assumption].
    rewrite Z.mod_mod in Hmod by lia.
    pose proof (congruent_above (N - 1) l T HT (eq_sym Hmod) ltac:(lia)). lia.
  - intros HNmax fo fi pc0 c Hfo Hfi Hc Hc0 Hsum. unfold calculate_primes.
    apply (while_loop_overflow N T fo fi _ _ pc0 c); try assumption; try lia.
    apply Z.mod_mod. lia.
  - intros Hcr fi schedule m s Hm Hex.
    pose proof (program_inv N T P HT _ _ _ Hm) as Hinv.
    assert (Hst : stride_inv N T m).
    { apply (run_stride N T P fi schedule (initial T) m HT);
        [now apply initial_inv | apply initial_stride | exact Hm]. }
    destruct (lookup_lt_is_Some_2 (t_array m) (Z.to_nat ((N - 1) mod T)))
      as [th Hth]; [rewrite (inv_threads _ _ _ _ Hinv); lia|].
    pose proof (Hst _ _ Hth) as Hstride. rewrite Z2Nat.id in Hstride by lia.
    destruct th as [|i tn|i tn c0|]; simpl in Hstride.
    + destruct (inv_unstarted _ _ _ _ Hinv _ Hth) as [Hle|Hcr'].
      * rewrite Hex in Hle. simpl in Hle. lia.
      * rewrite Z2Nat.id in Hcr' by lia. congruence.
    + pose proof (inv_active _ _ _ _ Hinv _ _ Hth eq_refl) as Hj.
      rewrite Hex in Hj. simpl in Hj. lia.
    + pose proof (inv_active _ _ _ _ Hinv _ _ Hth eq_refl) as Hj.
      rewrite Hex in Hj. simpl in Hj. lia.
    + destruct Hstride as (i & Hi & Hmod & _).
      rewrite Z.mod_mod in Hmod by lia.
      pose proof (congruent_above (N - 1) i T HT (eq_sym Hmod) ltac:(lia)). lia.
Qed.

Lemma stride_must_fit_in_int_witness :
  INT_MAX + 1 < 2147483647 + 8 /\
  (forall fo fi pc0 pc1,
     calculate_primes 2147483647 8 fo fi ((2147483647 - 1) mod 8) pc0 <> Done pc1) /\
  (forall fi schedule m s,
     program 2147483647 8 sample_platform fi schedule = Done m -> pc m <> Exited s).
Proof.
  assert (H : INT_MAX + 1 < 2147483647 + 8) by (unfold INT_MAX; lia).
  split; [exact H|].
  destruct (stride_must_fit_in_int 2147483647 8 sample_platform
              ltac:(lia) ltac:(lia) H) as (H1 & _ & H3).
  split; [exact H1 | exact (H3 eq_refl)].
Defined.

(** ** What the total counts *)

(** X4: the number a normal run prints is the number of primes below
    [N]: there is a list without repetition of exactly the prime numbers
    below [N], and the second thing written to standard output is its
    length under ["%d primes found"]. *)
Theorem printed_total_counts_the_primes N T P :
  0 < N <= INT_MAX -> 0 < T ->
  (forall k, 0 <= k < T -> creates P k = true) ->
  forall fi schedule m s,
    program N T P fi schedule = Done m -> pc m = Exited s ->
    exists primes : list Z,
      NoDup primes /\ (forall v, v ∈ primes <-> Z.prime v /\ v < N) /\
      stdout m !! 1%nat = Some (format_count, ArgInt (Z.of_nat (length primes))).
Proof.
  intros HN HT Hcr fi schedule m s Hm Hex.
  destruct (program_exited N T P HT _ _ _ _ Hm Hex) as (_ & _ & _ & Hout).
  rewrite (normal_total N T P HT Hcr) in Hout.
  exists (filter (fun v => isPrime v = true) (seqZ 0 N)).
  split; [apply NoDup_filter, NoDup_seqZ|]. split.
  - intros v. rewrite list_elem_of_filter, elem_of_seqZ. split.
    + intros [Hp Hv]. split; [apply isPrime_prime; [lia | assumption] | lia].
    + intros [Hp Hv]. split; [apply isPrime_prime; [lia | assumption]|].
      destruct Hp as [H1 _]. lia.
  - rewrite Hout. reflexivity.
Qed.

Lemma printed_total_counts_the_primes_witness :
  exists m, program 10 3 sample_platform 4 (round_robin 3 24) = Done m /\
    exists primes : list Z,
      NoDup primes /\ (forall v, v ∈ primes <-> Z.prime v /\ v < 10) /\
      stdout m !! 1%nat = Some (format_count, ArgInt (Z.of_nat (length primes))).
Proof.
  eexists. split; [vm_compute; reflexivity|].
  apply (printed_total_counts_the_primes 10 3 sample_platform
           ltac:(unfold INT_MAX; lia) ltac:(lia) ltac:(reflexivity)
           4%nat (round_robin 3 24) _ 0 ltac:(vm_compute; reflexivity) eq_refl).
Defined.

(** ** The share of each thread *)



(** ** A call on an array that is not zero *)

Lemma loop_body_counter_overflow fi i tn pc0 c :
  i <= INT_MAX -> Z.quot i 2 - 1 <= Z.of_nat fi -> 0 <= tn ->
  pc0 !! Z.to_nat tn = Some c -> isPrime i = true -> INT_MAX < c + 1 ->
  loop_body fi i tn pc0 = Fault.
Proof.
  intros Hi Hfi Htn Hc Hp Hov. unfold loop_body.
  rewrite prime_test_enough by assumption. simpl. rewrite Hp.
  rewrite (array_get_Done pc0 tn c) by assumption. simpl.
  unfold int_add.
  assert ((c + 1 <=? INT_MAX) = false) as -> by (apply Z.leb_gt; lia).
  now rewrite andb_false_r.
Qed.

Lemma while_loop_counter_overflow N T fo : forall fi i tn pc0 c,
  0 < T -> N + T <= INT_MAX + 1 ->
  N / 2 - 1 <= Z.of_nat fi -> iterations N T i <= Z.of_nat fo ->
  0 <= i -> 0 <= tn -> pc0 !! Z.to_nat tn = Some c -> 0 <= c <= INT_MAX ->
  INT_MAX < c + count_primes (partition N T i) ->
  while_loop N T fo fi i tn pc0 = Fault.
Proof.
  induction fo as [|fo IH]; intros fi i tn pc0 c HT Hov Hfi Hfo Hi Htn Hc Hc0 Hsum;
    (destruct (Z.lt_ge_cases i N) as [HiN|HiN];
     [|rewrite (partition_nil N T HT i HiN), count_primes_nil in Hsum; lia]).
  - pose proof (iterations_step N T HT i HiN).
    pose proof (iterations_nonneg N T HT i HiN). lia.
  - simpl. assert ((i <? N) = true) as -> by (apply Z.ltb_lt; lia).
    rewrite (partition_cons N T HT i HiN), count_primes_cons in Hsum.
    assert (Hq : Z.quot i 2 - 1 <= Z.of_nat fi).
    { rewrite quot2_nonneg by lia.
      pose proof (Z.div_le_mono i N 2 ltac:(lia) ltac:(lia)). lia. }
    pose proof (iterations_step N T HT i HiN) as Hstep.
    destruct (isPrime i) eqn:Hp.
    + destruct (Z.eq_dec c INT_MAX) as [->|Hne].
      * rewrite (loop_body_counter_overflow fi i tn pc0 INT_MAX);
          try assumption; try lia. reflexivity.
      * rewrite (loop_body_spec fi i tn pc0 c); try assumption; try lia;
          [|intros _; unfold is_int, INT_MIN in *; lia].
        rewrite Hp. simpl. rewrite (int_add_Done i T) by (unfold is_int, INT_MIN; lia).
        simpl. apply (IH fi (i + T) tn _ (c + 1)); try assumption; try lia.
        apply list_lookup_insert_eq. now apply lookup_lt_Some in Hc.
    + rewrite (loop_body_spec fi i tn pc0 c); try assumption; try lia;
        [|congruence].
      rewrite Hp. simpl. rewrite (int_add_Done i T) by (unfold is_int, INT_MIN; lia).
      simpl. apply (IH fi (i + T) tn _ c); try assumption; try lia.
Qed.

(** X6: [calculate_primes] adds to what it finds.  Called for thread [k]
    on an array whose slot [k] holds [c], it leaves in that slot [c] plus
    the count of partition [k], whatever [c] is: the function does not zero
    the slot.  When that sum is no [int] the counter overflows. *)
Theorem calculate_primes_accumulates N T :
  0 < T -> N + T <= INT_MAX + 1 ->
  forall fo fi k pc0 c,
    iterations N T k <= Z.of_nat fo -> N / 2 - 1 <= Z.of_nat fi ->
    0 <= k -> pc0 !! Z.to_nat k = Some c -> 0 <= c <= INT_MAX ->
    calculate_primes N T fo fi k pc0 =
      if c + count_primes (partition N T k) <=? INT_MAX
      then Done (<[Z.to_nat k := c + count_primes (partition N T k)]> pc0)
      else Fault.
Proof.
  intros HT Hov fo fi k pc0 c Hfo Hfi Hk Hc Hc0. unfold calculate_primes.
  destruct (c + count_primes (partition N T k) <=? INT_MAX) eqn:E.
  - apply Z.leb_le in E. apply while_loop_spec; try assumption; lia.
  - apply Z.leb_gt in E. apply (while_loop_counter_overflow N T fo fi k k pc0 c);
      assumption.
Qed.

Lemma calculate_primes_accumulates_witness :
  calculate_primes 10 3 4 4 2 [5; 6; 7] = Done [5; 6; 9] /\
  calculate_primes 10 1 10 4 0 [INT_MAX - 3] = Fault /\
  calculate_primes 10 3 4 4 2 [5; 6; 7] =
    (if 7 + count_primes (partition 10 3 2) <=? INT_MAX
     then Done (<[Z.to_nat 2 := 7 + count_primes (partition 10 3 2)]> [5; 6; 7])
     else Fault).
Proof.
  split; [vm_compute; reflexivity|]. split; [vm_compute; reflexivity|].
  apply (calculate_primes_accumulates 10 3 ltac:(lia) ltac:(unfold INT_MAX; lia)
           4%nat 4%nat 2 [5; 6; 7] 7).
  - vm_compute. discriminate.
  - vm_compute. discriminate.
  - lia.
  - reflexivity.
  - unfold INT_MAX. lia.
Defined.

(** ** A thread number outside the array *)

Lemma array_get_outside {A} (a : list A) i :
  i < 0 \/ Z.of_nat (length a) <= i -> array_get a i = Fault.
Proof.
  intros Hi. unfold array_get. destruct (i <? 0) eqn:E; [reflexivity|].
  apply Z.ltb_ge in E. now rewrite lookup_ge_None_2 by lia.
Qed.

Lemma while_loop_outside N T fo : forall fi i tn (pc0 : list Z),
  0 < T -> N + T <= INT_MAX + 1 ->
  N / 2 - 1 <= Z.of_nat fi -> iterations N T i <= Z.of_nat fo ->
  INT_MIN <= i -> tn < 0 \/ Z.of_nat (length pc0) <= tn ->
  while_loop N T fo fi i tn pc0 =
    if count_primes (partition N T i) =? 0 then Done pc0 else Fault.
Proof.
  induction fo as [|fo IH]; intros fi i tn pc0 HT Hov Hfi Hfo Hi Htn;
    (destruct (Z.lt_ge_cases i N) as [HiN|HiN];
     [|rewrite (partition_nil N T HT i HiN), count_primes_nil; simpl;
       now assert ((i <? N) = false) as -> by (apply Z.ltb_ge; lia)]).
  - pose proof (iterations_step N T HT i HiN).
    pose proof (iterations_nonneg N T HT i HiN). lia.
  - simpl. assert ((i <? N) = true) as -> by (apply Z.ltb_lt; lia).
    rewrite (partition_cons N T HT i HiN), count_primes_cons.
    pose proof (count_primes_bounds (partition N T (i + T))) as Hb.
    pose proof (iterations_step N T HT i HiN) as Hstep.
    assert (Hq : Z.quot i 2 - 1 <= Z.of_nat fi).
    { destruct (Z.lt_ge_cases i 0) as [Hneg|Hpos].
      - pose proof (quot2_neg i Hneg). lia.
      - rewrite quot2_nonneg by lia.
        pose proof (Z.div_le_mono i N 2 ltac:(lia) ltac:(lia)). lia. }
    unfold loop_body. rewrite prime_test_enough by (assumption || lia).
    simpl. destruct (isPrime i) eqn:Hp.
    + rewrite array_get_outside by assumption. simpl.
      now assert ((1 + count_primes (partition N T (i + T)) =? 0) = false) as ->
        by (apply Z.eqb_neq; lia).
    + simpl. rewrite (int_add_Done i T) by (unfold is_int; lia). simpl.
      rewrite Z.add_0_l. apply IH; try assumption; lia.
Qed.

(** X22: [calculate_primes] does not check its thread number.  Called
    with a number that is no index of the array, below 0 or past the end,
    it reads [prime_count[thread_number]] outside the array at the first
    prime of its progression; it returns, and leaves the array as it was,
    only when the progression has no prime below [N]. *)
Theorem calculate_primes_outside_the_array N T :
  0 < T -> N + T <= INT_MAX + 1 ->
  forall fo fi k (pc0 : list Z),
    iterations N T k <= Z.of_nat fo -> N / 2 - 1 <= Z.of_nat fi ->
    INT_MIN <= k -> k < 0 \/ Z.of_nat (length pc0) <= k ->
    calculate_primes N T fo fi k pc0 =
      if count_primes (partition N T k) =? 0 then Done pc0 else Fault.
Proof.
  intros HT Hov fo fi k pc0 Hfo Hfi Hk Hout. unfold calculate_primes.
  now apply while_loop_outside.
Qed.

Lemma calculate_primes_outside_the_array_witness :
  calculate_primes 20 8 3 9 8 (replicate 8 0) = Done (replicate 8 0) /\
  calculate_primes 20 8 4 9 (-1) (replicate 8 0) = Fault /\
  calculate_primes 20 8 2 9 11 (replicate 8 0) =
    (if count_primes (partition 20 8 11) =? 0 then Done (replicate 8 0) else Fault).
Proof.
  split; [vm_compute; reflexivity|]. split; [vm_compute; reflexivity|].
  apply (calculate_primes_outside_the_array 20 8 ltac:(lia) ltac:(unfold INT_MAX; lia)
           2%nat 9%nat 11 (replicate 8 0)).
  - vm_compute. discriminate.
  - vm_compute. discriminate.
  - unfold INT_MIN. lia.
  - right. simpl. lia.
Defined.

(** * Reversals.c *)

Lemma int_sub_Done a b : is_int (a - b) -> int_sub a b = Done (a - b).
Proof.
  unfold is_int, int_sub. intros [H1 H2].
  apply Z.leb_le in H1. apply Z.leb_le in H2. now rewrite H1, H2.
Qed.

Lemma array_get_Fault {A} (a : list A) i :
  Z.of_nat (length a) <= i -> array_get a i = Fault.
Proof.
  intros Hi. unfold array_get.
  assert ((i <? 0) = false) as -> by (apply Z.ltb_ge; lia).
  now rewrite lookup_ge_None_2 by lia.
Qed.

Lemma array_get_cases {A} (a : list A) i :
  (exists x, array_get a i = Done x) \/ array_get a i = Fault.
Proof.
  unfold array_get. destruct (i <? 0); [now right|].
  destruct (a !! Z.to_nat i); eauto.
Qed.

Lemma list_ends {A} (l : list A) :
  l = [] \/ (exists x, l = [x]) \/ exists x l' y, l = x :: l' ++ [y].
Proof.
  destruct l as [|x l]; [now left|right].
  destruct l as [|y l _] using rev_ind; [left|right]; eauto.
Qed.

Lemma rev_lookup {A} (l : list A) (i : nat) :
  (i < length l)%nat -> rev l !! i = l !! (length l - S i)%nat.
Proof. intros Hi. rewrite rev_alt. now apply reverse_lookup. Qed.

Ltac list_length :=
  repeat first [rewrite length_app | rewrite length_cons | rewrite length_nil].

Lemma insert_middle {A} (l1 l2 : list A) x y n :
  n = length l1 -> <[n := y]> (l1 ++ x :: l2) = l1 ++ y :: l2.
Proof.
  intros ->. rewrite insert_app_r_alt by lia. now rewrite Nat.sub_diag.
Qed.

(** The loop reverses the stretch between [j] and [i] and leaves the
    rest of the array alone. *)
Lemma reverse_while_loop_spec fuel : forall (pre mid post : list Ascii.ascii),
  (length mid / 2 <= fuel)%nat ->
  Z.of_nat (length pre + length mid) <= INT_MAX ->
  Reversals.while_loop fuel (pre ++ mid ++ post)
      (Z.of_nat (length pre + length mid) - 1) (Z.of_nat (length pre))
    = Done (pre ++ rev mid ++ post).
Proof.
  induction fuel as [|fuel IH]; intros pre mid post Hfuel Hint;
    destruct (list_ends mid) as [->|[[x ->]|(x & mid' & y & ->)]]; simpl.
  - now assert ((Z.of_nat (length pre) <? Z.of_nat (length pre + 0) - 1) = false)
      as -> by (apply Z.ltb_ge; lia).
  - now assert ((Z.of_nat (length pre) <? Z.of_nat (length pre + 1) - 1) = false)
      as -> by (apply Z.ltb_ge; lia).
  - cbn [length] in Hfuel. rewrite length_app in Hfuel. cbn [length] in Hfuel.
    assert (1 <= S (length mid' + 1) / 2)%nat
      by (apply Nat.div_le_lower_bound; lia). lia.
  - now assert ((Z.of_nat (length pre) <? Z.of_nat (length pre + 0) - 1) = false)
      as -> by (apply Z.ltb_ge; lia).
  - now assert ((Z.of_nat (length pre) <? Z.of_nat (length pre + 1) - 1) = false)
      as -> by (apply Z.ltb_ge; lia).
  - cbn [length] in Hfuel, Hint. rewrite length_app in Hfuel, Hint.
    cbn [length] in Hfuel, Hint. rewrite length_app. cbn [length].
    set (i := Z.of_nat (length pre + S (length mid' + 1)) - 1).
    set (j := Z.of_nat (length pre)).
    assert (Hi : Z.to_nat i = length (pre ++ x :: mid')).
    { subst i. list_length. lia. }
    assert (Hj : Z.to_nat j = length pre) by (subst j; lia).
    assert ((j <? i) = true) as -> by (apply Z.ltb_lt; subst i j; lia).
    assert (E : pre ++ x :: (mid' ++ [y]) ++ post = (pre ++ x :: mid') ++ y :: post)
      by (now rewrite <- !app_assoc).
    rewrite (array_get_Done _ i y);
      [|subst i; lia | rewrite E, Hi; apply list_lookup_middle; reflexivity].
    simpl. rewrite (array_get_Done _ j x);
      [|subst j; lia | rewrite Hj; apply list_lookup_middle; reflexivity].
    simpl. rewrite array_set_Done
      by (list_length; subst i; lia).
    simpl. rewrite (int_sub_Done i 1) by (subst i; unfold is_int, INT_MIN; lia).
    simpl. rewrite E, (insert_middle _ _ _ _ _ Hi).
    rewrite <- app_assoc. simpl.
    rewrite array_set_Done by (list_length; subst j; lia).
    simpl. rewrite (insert_middle _ _ _ _ _ Hj).
    rewrite (int_add_Done j 1) by (subst j; unfold is_int, INT_MIN; lia).
    simpl.
    replace (pre ++ y :: mid' ++ x :: post) with ((pre ++ [y]) ++ mid' ++ x :: post)
      by (now rewrite <- app_assoc).
    replace (i - 1) with (Z.of_nat (length (pre ++ [y]) + length mid') - 1)
      by (subst i; list_length; lia).
    replace (j + 1) with (Z.of_nat (length (pre ++ [y])))
      by (subst j; list_length; lia).
    rewrite IH.
    + f_equal. rewrite rev_app_distr. simpl. now rewrite <- !app_assoc.
    + assert (S (length mid' + 1) = length mid' + 1 * 2)%nat as E2 by lia.
      rewrite E2, Nat.div_add in Hfuel by lia. lia.
    + list_length. lia.
Qed.

Lemma reverse_spec fuel (input_string : list Ascii.ascii) n :
  0 <= n <= Z.of_nat (length input_string) -> n <= INT_MAX ->
  n / 2 <= Z.of_nat fuel ->
  Reversals.reverse fuel input_string n =
    Done (rev (take (Z.to_nat n) input_string) ++ drop (Z.to_nat n) input_string).
Proof.
  intros Hn Hint Hfuel. unfold Reversals.reverse.
  rewrite int_sub_Done by (unfold is_int, INT_MIN; lia). simpl.
  assert (Hlen : length (take (Z.to_nat n) input_string) = Z.to_nat n)
    by (rewrite length_take; lia).
  pose proof (reverse_while_loop_spec fuel [] (take (Z.to_nat n) input_string)
                (drop (Z.to_nat n) input_string)) as H.
  rewrite Hlen in H. cbn [length app Nat.add] in H.
  rewrite take_drop, Z2Nat.id in H by lia.
  apply H; [|lia].
  apply Nat2Z.inj_le. rewrite Nat2Z.inj_div, Z2Nat.id by lia. exact Hfuel.
Qed.

(** X7: [reverse] reverses in place.  Called with a [length] that does
    not exceed the array, it leaves the first [length] characters in the
    opposite order and the characters after them, the terminating null
    among them, where they were; it swaps [length / 2] pairs. *)
Theorem reverse_reverses_in_place fuel (input_string : list Ascii.ascii) n :
  0 <= n <= Z.of_nat (length input_string) -> n <= INT_MAX ->
  n / 2 <= Z.of_nat fuel ->
  exists result,
    Reversals.reverse fuel input_string n = Done result /\
    length result = length input_string /\
    (forall k : nat, Z.of_nat k < n ->
       result !! k = input_string !! (Z.to_nat n - 1 - k)%nat) /\
    (forall k : nat, n <= Z.of_nat k -> result !! k = input_string !! k) /\
    result = rev (take (Z.to_nat n) input_string) ++ drop (Z.to_nat n) input_string.
Proof.
  intros Hn Hint Hfuel. eexists. split; [now apply reverse_spec|].
  assert (Hlen : length (rev (take (Z.to_nat n) input_string)) = Z.to_nat n)
    by (rewrite length_rev, length_take; lia).
  split; [|split; [|split; [|reflexivity]]].
  - rewrite length_app, Hlen, length_drop. lia.
  - intros k Hk. rewrite lookup_app_l by lia.
    rewrite rev_lookup by (rewrite length_take; lia).
    rewrite length_take, lookup_take_lt by lia.
    f_equal. lia.
  - intros k Hk. rewrite lookup_app_r by lia.
    rewrite Hlen, lookup_drop. f_equal. lia.
Qed.

Lemma reverse_reverses_in_place_witness :
  Reversals.reverse 2 (String.list_ascii_of_string "abcd" ++ [Ascii.zero]) 4
    = Done (String.list_ascii_of_string "dcba" ++ [Ascii.zero]) /\
  exists result,
    Reversals.reverse 2 (String.list_ascii_of_string "abcd" ++ [Ascii.zero]) 4 = Done result /\
    length result = length (String.list_ascii_of_string "abcd" ++ [Ascii.zero]) /\
    result !! 4%nat = Some Ascii.zero.
Proof.
  split; [vm_compute; reflexivity|].
  destruct (reverse_reverses_in_place 2 (String.list_ascii_of_string "abcd" ++ [Ascii.zero]) 4)
    as (result & H1 & H2 & _ & H4 & _).
  - simpl. lia.
  - unfold INT_MAX. lia.
  - vm_compute. discriminate.
  - exists result. split; [exact H1|]. split; [exact H2|].
    rewrite (H4 4%nat) by lia. reflexivity.
Defined.

(** X8: [reverse] is its own inverse: a second call with the same
    [length] gives the array back as it was. *)
Theorem reverse_twice_restores fuel (input_string : list Ascii.ascii) n :
  0 <= n <= Z.of_nat (length input_string) -> n <= INT_MAX ->
  n / 2 <= Z.of_nat fuel ->
  Reversals.reverse fuel input_string n
    ≫= (fun reversed => Reversals.reverse fuel reversed n) = Done input_string.
Proof.
  intros Hn Hint Hfuel. rewrite reverse_spec by assumption. simpl.
  assert (Hlen : length (rev (take (Z.to_nat n) input_string)) = Z.to_nat n)
    by (rewrite length_rev, length_take; lia).
  rewrite reverse_spec; try assumption.
  - rewrite take_app_length', drop_app_length' by (symmetry; assumption).
    now rewrite rev_involutive, take_drop.
  - rewrite length_app, Hlen, length_drop. lia.
Qed.

Lemma reverse_twice_restores_witness :
  Reversals.reverse 2 (String.list_ascii_of_string "abcd" ++ [Ascii.zero]) 4
    ≫= (fun reversed => Reversals.reverse 2 reversed 4)
  = Done (String.list_ascii_of_string "abcd" ++ [Ascii.zero]).
Proof.
  apply (reverse_twice_restores 2 (String.list_ascii_of_string "abcd" ++ [Ascii.zero]) 4).
  - simpl. lia.
  - unfold INT_MAX. lia.
  - vm_compute. discriminate.
Defined.

(** X9: the edges of [reverse].  With a [length] of 1 or less, negative
    ones included, the loop is not entered and the array is not accessed
    at all; [length - 1] overflows when [length] is [INT_MIN]; and a
    [length] of 2 or more that exceeds the array makes the first
    iteration read past its end. *)
Theorem reverse_edge_cases (input_string : list Ascii.ascii) :
  (forall fuel n, INT_MIN < n <= 1 ->
     Reversals.reverse fuel input_string n = Done input_string) /\
  (forall fuel, Reversals.reverse fuel input_string INT_MIN = Fault) /\
  (forall fuel n, 2 <= n -> Z.of_nat (length input_string) < n ->
     Reversals.reverse (S fuel) input_string n = Fault).
Proof.
  split; [|split].
  - intros fuel n Hn. unfold Reversals.reverse.
    rewrite int_sub_Done by (unfold is_int, INT_MIN, INT_MAX in *; lia). simpl.
    assert (E : (0 <? n - 1) = false) by (apply Z.ltb_ge; lia).
    destruct fuel; simpl; now rewrite E.
  - intros fuel. reflexivity.
  - intros fuel n Hn Hlen. unfold Reversals.reverse.
    unfold int_sub. destruct (_ && _); [|reflexivity].
    simpl. assert ((0 <? n - 1) = true) as -> by (apply Z.ltb_lt; lia).
    rewrite (array_get_Fault input_string (n - 1)) by lia. reflexivity.
Qed.

Lemma reverse_edge_cases_witness :
  Reversals.reverse 0 [] (-5) = Done [] /\
  Reversals.reverse 1 (String.list_ascii_of_string "ab") 3 = Fault.
Proof.
  destruct (reverse_edge_cases []) as (H1 & _ & _).
  destruct (reverse_edge_cases (String.list_ascii_of_string "ab")) as (_ & _ & H3).
  split.
  - apply H1. unfold INT_MIN. lia.
  - apply H3; simpl; lia.
Defined.

(** * Array Bobbins.c *)

Lemma size_t_small z : 0 <= z <= SIZE_MAX -> size_t z = z.
Proof.
  intros Hz. unfold size_t. apply Z.mod_small. lia.
Qed.

Lemma malloc_Some L bytes g :
  ArrayBobbins.malloc_block L bytes = Some g ->
  ArrayBobbins.malloc L bytes =
    Some (g <$> seqZ 0 (bytes / ArrayBobbins.sizeof_int)).
Proof. intros H. unfold ArrayBobbins.malloc. now rewrite H. Qed.

Lemma reverse_array_loop_step fuel input n i p :
  0 < i ->
  ArrayBobbins.reverse_array_loop (S fuel) input n i p =
    x ← array_get input (size_t (n - i));
    p' ← ArrayBobbins.store p (size_t (i - 1)) x;
    ArrayBobbins.reverse_array_loop fuel input n (size_t (i - 1)) p'.
Proof.
  intros Hi. simpl. now assert ((0 <? i) = true) as -> by (apply Z.ltb_lt; lia).
Qed.

Lemma reverse_array_loop_done fuel input n p :
  ArrayBobbins.reverse_array_loop fuel input n 0 p = Done p.
Proof. now destruct fuel. Qed.

(** Entered at [i], the loop fills the first [i] elements of the block
    with the last [i] of the first [n] elements of the input, in the
    opposite order. *)
Lemma reverse_array_loop_spec (input : list Z) (n : nat) : forall (i fuel : nat) a,
  (i <= fuel)%nat -> (i <= n)%nat -> length a = n -> (n <= length input)%nat ->
  Z.of_nat n <= SIZE_MAX ->
  ArrayBobbins.reverse_array_loop fuel input (Z.of_nat n) (Z.of_nat i) (Some a) =
    Done (Some (rev (take i (drop (n - i) input)) ++ drop i a)).
Proof.
  induction i as [|i IH]; intros fuel a Hfuel Hi Ha Hn Hmax.
  - now rewrite reverse_array_loop_done.
  - destruct fuel as [|fuel]; [lia|].
    rewrite reverse_array_loop_step by lia.
    rewrite !size_t_small by lia.
    destruct (lookup_lt_is_Some_2 input (n - S i)) as [x Hx]; [lia|].
    rewrite (array_get_Done input _ x) by (try lia; now rewrite <- Nat2Z.inj_sub, Nat2Z.id by lia).
    simpl. replace (Z.of_nat (S i) - 1) with (Z.of_nat i) by lia.
    rewrite array_set_Done by lia. simpl. rewrite Nat2Z.id.
    rewrite IH; try lia; [|now rewrite length_insert].
    f_equal. f_equal.
    rewrite (drop_S input x (n - S i)) by assumption.
    replace (S (n - S i)) with (n - i)%nat by lia.
    rewrite (drop_S (<[i:=x]> a) x i) by (apply list_lookup_insert_eq; lia).
    rewrite drop_insert_lt by lia.
    cbn [take rev]. now rewrite <- app_assoc.
Qed.

Lemma reverse_array_spec L fuel (input_array : list Z) elements g :
  0 <= elements <= Z.of_nat (length input_array) ->
  ArrayBobbins.sizeof_int * elements <= SIZE_MAX ->
  ArrayBobbins.malloc_block L (ArrayBobbins.sizeof_int * elements) = Some g ->
  elements <= Z.of_nat fuel ->
  ArrayBobbins.reverse_array L fuel input_array elements =
    Done (Some (rev (take (Z.to_nat elements) input_array))).
Proof.
  intros He Hsize Hg Hfuel. unfold ArrayBobbins.reverse_array.
  unfold ArrayBobbins.sizeof_int in *.
  rewrite size_t_small by lia.
  rewrite (malloc_Some L _ g) by assumption. unfold ArrayBobbins.sizeof_int.
  replace (4 * elements / 4) with elements
    by (rewrite Z.mul_comm, Z.div_mul; lia).
  pose proof (reverse_array_loop_spec input_array (Z.to_nat elements)
                (Z.to_nat elements) fuel (g <$> seqZ 0 elements)) as H.
  rewrite Z2Nat.id in H by lia. rewrite H; try lia.
  - rewrite Nat.sub_diag, drop_0. f_equal. f_equal.
    rewrite drop_ge; [apply app_nil_r|].
    rewrite length_fmap, length_seqZ. lia.
  - now rewrite length_fmap, length_seqZ.
Qed.

(** X10: [reverse_array] returns a fresh array with the first
    [elements] of the input in the opposite order.  Every element of the
    block is written: what the block held when [malloc] returned it does
    not show in the result. *)
Theorem reverse_array_reverses L fuel (input_array : list Z) elements g :
  0 <= elements <= Z.of_nat (length input_array) ->
  ArrayBobbins.sizeof_int * elements <= SIZE_MAX ->
  ArrayBobbins.malloc_block L (ArrayBobbins.sizeof_int * elements) = Some g ->
  elements <= Z.of_nat fuel ->
  exists return_array,
    ArrayBobbins.reverse_array L fuel input_array elements = Done (Some return_array) /\
    Z.of_nat (length return_array) = elements /\
    (forall k : nat, Z.of_nat k < elements ->
       return_array !! k = input_array !! (Z.to_nat elements - 1 - k)%nat) /\
    return_array = rev (take (Z.to_nat elements) input_array).
Proof.
  intros He Hsize Hg Hfuel. eexists.
  split; [eapply reverse_array_spec; eassumption|].
  assert (Hlen : length (take (Z.to_nat elements) input_array) = Z.to_nat elements)
    by (rewrite length_take; lia).
  split; [rewrite length_rev, Hlen; lia|]. split; [|reflexivity].
  intros k Hk. rewrite rev_lookup by lia.
  rewrite Hlen, lookup_take_lt by lia. f_equal. lia.
Qed.

Lemma reverse_array_reverses_witness :
  exists return_array,
    ArrayBobbins.reverse_array ArrayBobbins.sample_libc 3 [70; 71; 72; 73] 3
      = Done (Some return_array) /\
    return_array = [72; 71; 70].
Proof.
  destruct (reverse_array_reverses ArrayBobbins.sample_libc 3 [70; 71; 72; 73] 3
              (fun _ => 7)) as (a & H1 & _ & _ & H4).
  - simpl. lia.
  - vm_compute. discriminate.
  - reflexivity.
  - lia.
  - exists a. split; [exact H1 | exact H4].
Defined.

(** X11: reversing the reversed array gives the input back. *)
Theorem reverse_array_twice_restores L fuel (input_array : list Z) elements g :
  0 <= elements <= Z.of_nat (length input_array) ->
  ArrayBobbins.sizeof_int * elements <= SIZE_MAX ->
  ArrayBobbins.malloc_block L (ArrayBobbins.sizeof_int * elements) = Some g ->
  elements <= Z.of_nat fuel ->
  exists reversed,
    ArrayBobbins.reverse_array L fuel input_array elements = Done (Some reversed) /\
    ArrayBobbins.reverse_array L fuel reversed elements =
      Done (Some (take (Z.to_nat elements) input_array)).
Proof.
  intros He Hsize Hg Hfuel. eexists.
  split; [eapply reverse_array_spec; eassumption|].
  assert (Hlen : length (take (Z.to_nat elements) input_array) = Z.to_nat elements)
    by (rewrite length_take; lia).
  rewrite (reverse_array_spec L fuel _ elements g); try assumption.
  - rewrite take_ge by (rewrite length_rev; lia). now rewrite rev_involutive.
  - rewrite length_rev. lia.
Qed.

Lemma reverse_array_twice_restores_witness :
  exists reversed,
    ArrayBobbins.reverse_array ArrayBobbins.sample_libc 4 [70; 71; 72; 73] 4
      = Done (Some reversed) /\
    ArrayBobbins.reverse_array ArrayBobbins.sample_libc 4 reversed 4
      = Done (Some (take (Z.to_nat 4) [70; 71; 72; 73])).
Proof.
  apply (reverse_array_twice_restores ArrayBobbins.sample_libc 4 [70; 71; 72; 73] 4
           (fun _ => 7)).
  - simpl. lia.
  - vm_compute. discriminate.
  - reflexivity.
  - lia.
Defined.

(** The loop reads past the end of an input of fewer than [n] elements. *)
Lemma reverse_array_loop_reads_past (input : list Z) (n : nat) : forall (k i fuel : nat) a,
  (k < fuel)%nat -> (i <= n)%nat -> length a = n ->
  (n - i + k = length input)%nat -> (length input < n)%nat ->
  Z.of_nat n <= SIZE_MAX ->
  ArrayBobbins.reverse_array_loop fuel input (Z.of_nat n) (Z.of_nat i) (Some a) = Fault.
Proof.
  induction k as [|k IH]; intros i fuel a Hfuel Hi Ha Hk Hn Hmax;
    (destruct fuel as [|fuel]; [lia|]);
    rewrite reverse_array_loop_step by lia; rewrite !size_t_small by lia.
  - rewrite array_get_Fault by lia. reflexivity.
  - destruct (lookup_lt_is_Some_2 input (n - i)) as [x Hx]; [lia|].
    rewrite (array_get_Done input _ x) by (try lia; now rewrite <- Nat2Z.inj_sub, Nat2Z.id by lia).
    simpl. rewrite array_set_Done by lia. simpl.
    replace (Z.of_nat i - 1) with (Z.of_nat (i - 1)) by lia.
    apply IH; try lia. now rewrite length_insert.
Qed.

(** X12: the edges of [reverse_array].  For no element the loop is not
    entered and the result is what [malloc(0)] returned, null or not.  For
    one element or more, a [malloc] that returns null makes the first
    iteration write through the null pointer; an element count whose size
    in bytes does not fit in [size_t] makes it write past the end of the
    block, which is then too short; and an input shorter than the count is
    read past its end. *)
Theorem reverse_array_edge_cases L (input_array : list Z) :
  (forall fuel,
     ArrayBobbins.reverse_array L fuel input_array 0 = Done (ArrayBobbins.malloc L 0)) /\
  (forall fuel elements, 0 < elements <= SIZE_MAX ->
     ArrayBobbins.malloc_block L
       (size_t (ArrayBobbins.sizeof_int * elements)) = None ->
     ArrayBobbins.reverse_array L (S fuel) input_array elements = Fault) /\
  (forall fuel elements, elements <= SIZE_MAX ->
     SIZE_MAX < ArrayBobbins.sizeof_int * elements ->
     ArrayBobbins.reverse_array L (S fuel) input_array elements = Fault) /\
  (forall fuel elements g, Z.of_nat (length input_array) < elements ->
     ArrayBobbins.sizeof_int * elements <= SIZE_MAX ->
     ArrayBobbins.malloc_block L (ArrayBobbins.sizeof_int * elements) = Some g ->
     Z.of_nat (length input_array) < Z.of_nat fuel ->
     ArrayBobbins.reverse_array L fuel input_array elements = Fault).
Proof.
  split; [|split; [|split]].
  - intros fuel. unfold ArrayBobbins.reverse_array.
    now rewrite reverse_array_loop_done.
  - intros fuel elements He Hnull. unfold ArrayBobbins.reverse_array.
    rewrite reverse_array_loop_step by lia.
    unfold ArrayBobbins.malloc. rewrite Hnull. simpl.
    destruct (array_get_cases input_array (size_t (elements - elements)))
      as [[x ->]| ->]; reflexivity.
  - intros fuel elements He Hwrap. unfold ArrayBobbins.reverse_array.
    rewrite reverse_array_loop_step by (unfold ArrayBobbins.sizeof_int, SIZE_MAX in *; lia).
    destruct (array_get_cases input_array (size_t (elements - elements)))
      as [[x ->]| ->]; [|reflexivity].
    simpl. unfold ArrayBobbins.malloc.
    destruct (ArrayBobbins.malloc_block L _) as [g'|]; [|reflexivity].
    simpl. unfold ArrayBobbins.sizeof_int, SIZE_MAX in *.
    rewrite size_t_small by (unfold SIZE_MAX; lia).
    unfold array_set.
    assert (E : (elements - 1 <?
                 Z.of_nat (length (g' <$> seqZ 0 (size_t (4 * elements) / 4))))
                = false).
    { apply Z.ltb_ge. rewrite length_fmap, length_seqZ.
      unfold size_t, SIZE_MAX.
      pose proof (Z.mod_pos_bound (4 * elements) (18446744073709551615 + 1) ltac:(lia)).
      pose proof (Z.div_mod (4 * elements) (18446744073709551615 + 1) ltac:(lia)).
      assert (1 <= 4 * elements / (18446744073709551615 + 1))
        by (apply Z.div_le_lower_bound; lia).
      assert ((4 * elements) mod (18446744073709551615 + 1) / 4 <= elements - 1)
        by (apply Z.div_le_upper_bound; lia).
      lia. }
    rewrite E, andb_false_r. reflexivity.
  - intros fuel elements g Hlen Hsize Hg Hfuel. unfold ArrayBobbins.reverse_array.
    unfold ArrayBobbins.sizeof_int in *.
    rewrite size_t_small by lia.
    rewrite (malloc_Some L _ g) by assumption. unfold ArrayBobbins.sizeof_int.
    replace (4 * elements / 4) with elements
      by (rewrite Z.mul_comm, Z.div_mul; lia).
    pose proof (reverse_array_loop_reads_past input_array (Z.to_nat elements)
                  (length input_array) (Z.to_nat elements) fuel
                  (g <$> seqZ 0 elements)) as H.
    rewrite Z2Nat.id in H by lia. apply H; try lia.
    now rewrite length_fmap, length_seqZ.
Qed.

Lemma reverse_array_edge_cases_witness :
  ArrayBobbins.reverse_array ArrayBobbins.libc_without_memory 0 [70; 71] 0 = Done None /\
  ArrayBobbins.reverse_array ArrayBobbins.libc_without_memory 1 [70; 71] 2 = Fault /\
  ArrayBobbins.reverse_array ArrayBobbins.sample_libc 1 [70; 71] 4611686018427387904
    = Fault /\
  ArrayBobbins.reverse_array ArrayBobbins.sample_libc 3 [70; 71] 3 = Fault.
Proof.
  destruct (reverse_array_edge_cases ArrayBobbins.libc_without_memory [70; 71])
    as (H1 & H2 & _).
  destruct (reverse_array_edge_cases ArrayBobbins.sample_libc [70; 71])
    as (_ & _ & H3 & H4).
  split; [apply H1|]. split; [|split].
  - apply H2; [unfold SIZE_MAX; lia | reflexivity].
  - apply H3; unfold SIZE_MAX, ArrayBobbins.sizeof_int; lia.
  - apply (H4 3%nat 3 (fun _ => 7));
      [simpl; lia | vm_compute; discriminate | reflexivity | simpl; lia].
Defined.

(** ** [shuffle_array] *)

Lemma size_div_Done a b : b <> 0 -> ArrayBobbins.size_div a b = Done (a / b).
Proof.
  intros Hb. unfold ArrayBobbins.size_div.
  now assert ((b =? 0) = false) as -> by (now apply Z.eqb_neq).
Qed.

Lemma shuffle_pick_in_range M r n :
  0 <= r <= M -> 0 < n -> 0 <= r / (M / n + 1) < n.
Proof.
  intros Hr Hn.
  assert (0 <= M / n) by (apply Z.div_pos; lia).
  split; [apply Z.div_pos; lia|].
  apply Z.div_lt_upper_bound; [lia|].
  pose proof (Z.div_mod M n ltac:(lia)). pose proof (Z.mod_pos_bound M n Hn). nia.
Qed.

Lemma insert_swap_head {A} (l : list A) : forall (j : nat) t a,
  l !! j = Some t -> t :: <[j := a]> l ≡ₚ a :: l.
Proof.
  induction l as [|b l IH]; intros [|j] t a H; simpl in *; try discriminate.
  - injection H as ->. apply perm_swap.
  - rewrite (perm_swap b t), (IH j t a H). apply perm_swap.
Qed.

(** Exchanging two elements of a list rearranges it. *)
Lemma swap_perm {A} (l : list A) : forall (i j : nat) x t,
  l !! i = Some x -> l !! j = Some t -> <[i := t]> (<[j := x]> l) ≡ₚ l.
Proof.
  induction l as [|a l IH]; intros [|i] [|j] x t Hi Hj; simpl in *; try discriminate.
  - injection Hi as ->. now injection Hj as ->.
  - injection Hi as ->. now apply insert_swap_head.
  - injection Hj as ->. now apply insert_swap_head.
  - now rewrite (IH i j x t).
Qed.

Lemma shuffle_array_loop_done L fuel seed calls n i p :
  size_t (n - 1) <= i ->
  ArrayBobbins.shuffle_array_loop L fuel seed calls n i p = Done p.
Proof.
  intros Hi. assert (E : (i <? size_t (n - 1)) = false)
    by (apply Z.ltb_ge; lia).
  destruct fuel; simpl; now rewrite E.
Qed.

(** One execution of the body of the loop: the element at [i] is
    exchanged with the one at [j], and [j] is between [i] and the end of
    the array whatever [rand()] returned. *)
Lemma shuffle_array_loop_iteration L fuel seed calls n i (a : list Z) :
  0 <= ArrayBobbins.RAND_MAX L <= INT_MAX ->
  0 <= ArrayBobbins.rand_after L seed calls <= ArrayBobbins.RAND_MAX L ->
  n <= SIZE_MAX -> Z.of_nat (length a) = n -> 0 <= i < n - 1 ->
  exists j x t,
    j = i + ArrayBobbins.rand_after L seed calls
            / (ArrayBobbins.RAND_MAX L / (n - i) + 1) /\
    i <= j < n /\
    a !! Z.to_nat i = Some x /\ a !! Z.to_nat j = Some t /\
    ArrayBobbins.shuffle_array_loop L (S fuel) seed calls n i (Some a) =
      ArrayBobbins.shuffle_array_loop L fuel seed (S calls) n (i + 1)
        (Some (<[Z.to_nat i := t]> (<[Z.to_nat j := x]> a))).
Proof.
  intros HM Hr Hn Hlen Hi.
  set (M := ArrayBobbins.RAND_MAX L) in *.
  set (r := ArrayBobbins.rand_after L seed calls) in *.
  assert (HS : INT_MAX < SIZE_MAX) by reflexivity.
  pose proof (shuffle_pick_in_range M r (n - i) Hr ltac:(lia)) as Hq.
  assert (HMd : 0 <= M / (n - i) <= M).
  { split; [apply Z.div_pos; lia|]. apply Z.div_le_upper_bound; nia. }
  destruct (lookup_lt_is_Some_2 a (Z.to_nat i)) as [x Hx]; [lia|].
  destruct (lookup_lt_is_Some_2 a (Z.to_nat (i + r / (M / (n - i) + 1))))
    as [t Ht]; [lia|].
  exists (i + r / (M / (n - i) + 1)), x, t.
  split; [reflexivity|]. split; [lia|]. split; [assumption|]. split; [assumption|].
  cbn [ArrayBobbins.shuffle_array_loop].
  rewrite (size_t_small (n - 1)) by lia.
  assert ((i <? n - 1) = true) as -> by (apply Z.ltb_lt; lia).
  fold M. fold r.
  rewrite (size_t_small M), (size_t_small (n - i)), (size_t_small r) by lia.
  rewrite (size_div_Done M (n - i)) by lia.
  cbn [mbind outcome_bind].
  rewrite (size_t_small (M / (n - i) + 1)) by lia.
  rewrite (size_div_Done r (M / (n - i) + 1)) by lia.
  cbn [mbind outcome_bind].
  rewrite (size_t_small (i + r / (M / (n - i) + 1))), (size_t_small (i + 1)) by lia.
  unfold ArrayBobbins.load.
  rewrite (array_get_Done a (i + r / (M / (n - i) + 1)) t) by (assumption || lia).
  cbn [mbind outcome_bind].
  rewrite (array_get_Done a i x) by (assumption || lia).
  cbn [mbind outcome_bind]. unfold ArrayBobbins.store.
  rewrite array_set_Done by lia. cbn [mbind outcome_bind].
  rewrite array_set_Done by (rewrite length_insert; lia).
  reflexivity.
Qed.

(** The loop rearranges the array and leaves alone what is before [i]. *)
Lemma shuffle_array_loop_spec L seed n :
  0 <= ArrayBobbins.RAND_MAX L <= INT_MAX ->
  (forall calls, 0 <= ArrayBobbins.rand_after L seed calls <= ArrayBobbins.RAND_MAX L) ->
  1 <= n <= SIZE_MAX ->
  forall fuel i calls (a : list Z),
    Z.of_nat (length a) = n -> 0 <= i -> n - 1 - i <= Z.of_nat fuel ->
    exists a',
      ArrayBobbins.shuffle_array_loop L fuel seed calls n i (Some a) = Done (Some a') /\
      a' ≡ₚ a /\ take (Z.to_nat i) a' = take (Z.to_nat i) a.
Proof.
  intros HM Hr Hn. induction fuel as [|fuel IH]; intros i calls a Hlen Hi Hfuel.
  - exists a. split; [|auto].
    apply shuffle_array_loop_done. rewrite size_t_small; lia.
  - destruct (Z.lt_ge_cases i (n - 1)) as [Hlt|Hge].
    + destruct (shuffle_array_loop_iteration L fuel seed calls n i a HM (Hr calls)
                  ltac:(lia) Hlen ltac:(lia))
        as (j & x & t & _ & Hj & Hx & Ht & ->).
      destruct (IH (i + 1) (S calls) (<[Z.to_nat i := t]> (<[Z.to_nat j := x]> a)))
        as (a' & Hrun & Hperm & Htake); [now rewrite !length_insert | lia | lia |].
      exists a'. split; [exact Hrun|]. split.
      * rewrite Hperm. now apply swap_perm.
      * replace (Z.to_nat i) with (Z.to_nat i `min` Z.to_nat (i + 1))%nat by lia.
        rewrite <- !take_take, Htake, !take_take.
        replace (Z.to_nat i `min` Z.to_nat (i + 1))%nat with (Z.to_nat i) by lia.
        rewrite !take_insert_ge by lia. reflexivity.
    + exists a. split; [|auto].
      apply shuffle_array_loop_done. rewrite size_t_small; lia.
Qed.

Lemma shuffle_array_copy L fuel (input_array : list Z) elements g seed :
  0 <= elements <= Z.of_nat (length input_array) ->
  ArrayBobbins.sizeof_int * elements <= SIZE_MAX ->
  ArrayBobbins.malloc_block L (ArrayBobbins.sizeof_int * elements) = Some g ->
  ArrayBobbins.dev_random L = Some seed ->
  ArrayBobbins.shuffle_array L fuel input_array elements =
    if 1 <? elements
    then ArrayBobbins.shuffle_array_loop L fuel seed 0 elements 0
           (Some (take (Z.to_nat elements) input_array))
    else Done (Some (take (Z.to_nat elements) input_array)).
Proof.
  intros He Hsize Hg Hseed. unfold ArrayBobbins.shuffle_array, ArrayBobbins.randomize.
  rewrite Hseed. cbn [mbind outcome_bind].
  unfold ArrayBobbins.sizeof_int in *.
  rewrite size_t_small by lia.
  rewrite (malloc_Some L _ g) by assumption. unfold ArrayBobbins.sizeof_int.
  replace (4 * elements / 4) with elements
    by (rewrite Z.mul_comm, Z.div_mul; lia).
  unfold ArrayBobbins.memcpy, ArrayBobbins.sizeof_int.
  replace (4 * elements / 4) with elements
    by (rewrite Z.mul_comm, Z.div_mul; lia).
  rewrite length_fmap, length_seqZ.
  assert ((Z.to_nat elements <=? Z.to_nat elements)%nat = true) as ->
    by (apply Nat.leb_le; lia).
  assert ((Z.to_nat elements <=? length input_array)%nat = true) as ->
    by (apply Nat.leb_le; lia).
  cbn [andb mbind outcome_bind].
  rewrite drop_ge by (rewrite length_fmap, length_seqZ; lia).
  now rewrite app_nil_r.
Qed.

(** X13: [shuffle_array] is safe and returns a rearrangement.  Whatever
    values in [0, RAND_MAX] the calls of [rand()] return, every index the
    loop computes is inside the block, and the array returned holds the
    first [elements] of the input, each as many times as the input has
    it, in some order.  With one element or none it is a copy. *)
Theorem shuffle_array_permutes L fuel (input_array : list Z) elements g seed :
  0 <= elements <= Z.of_nat (length input_array) ->
  ArrayBobbins.sizeof_int * elements <= SIZE_MAX ->
  ArrayBobbins.malloc_block L (ArrayBobbins.sizeof_int * elements) = Some g ->
  ArrayBobbins.dev_random L = Some seed ->
  0 <= ArrayBobbins.RAND_MAX L <= INT_MAX ->
  (forall calls, 0 <= ArrayBobbins.rand_after L seed calls <= ArrayBobbins.RAND_MAX L) ->
  elements - 1 <= Z.of_nat fuel ->
  exists return_array,
    ArrayBobbins.shuffle_array L fuel input_array elements = Done (Some return_array) /\
    return_array ≡ₚ take (Z.to_nat elements) input_array /\
    Z.of_nat (length return_array) = elements /\
    (elements <= 1 -> return_array = take (Z.to_nat elements) input_array).
Proof.
  intros He Hsize Hg Hseed HM Hr Hfuel.
  rewrite (shuffle_array_copy L fuel input_array elements g seed) by assumption.
  assert (Hlen : Z.of_nat (length (take (Z.to_nat elements) input_array)) = elements)
    by (rewrite length_take; lia).
  destruct (1 <? elements) eqn:E.
  - apply Z.ltb_lt in E.
    destruct (shuffle_array_loop_spec L seed elements HM Hr
                ltac:(unfold ArrayBobbins.sizeof_int in *; lia)
                fuel 0 0%nat _ Hlen ltac:(lia) ltac:(lia)) as (a' & Hrun & Hperm & _).
    exists a'. split; [exact Hrun|]. split; [exact Hperm|].
    split; [|lia]. now rewrite Hperm.
  - apply Z.ltb_ge in E. eexists. split; [reflexivity|]. auto.
Qed.

Lemma shuffle_array_permutes_witness :
  exists return_array,
    ArrayBobbins.shuffle_array ArrayBobbins.sample_libc 3 [70; 71; 72; 73] 4
      = Done (Some return_array) /\
    return_array ≡ₚ take (Z.to_nat 4) [70; 71; 72; 73] /\
    Z.of_nat (length return_array) = 4.
Proof.
  destruct (shuffle_array_permutes ArrayBobbins.sample_libc 3 [70; 71; 72; 73] 4
              (fun _ => 7) 42) as (a & H1 & H2 & H3 & _).
  - simpl. lia.
  - vm_compute. discriminate.
  - reflexivity.
  - reflexivity.
  - vm_compute. split; discriminate.
  - intros calls. simpl.
    pose proof (Z.mod_pos_bound (Z.of_nat (S calls) * 9) 32768 ltac:(lia)). lia.
  - lia.
  - exists a. auto.
Defined.

(** X14: where the first element comes from.  With two elements or
    more, the first element of the shuffled array is the element of the
    input at the quotient of the first value of [rand()] by
    [RAND_MAX / elements + 1].  That index is never above the quotient of
    [RAND_MAX] by the same divisor: an element of the input further on
    does not come first, whatever [rand()] returns. *)
Theorem shuffle_array_first_element L fuel (input_array : list Z) elements g seed :
  2 <= elements <= Z.of_nat (length input_array) ->
  ArrayBobbins.sizeof_int * elements <= SIZE_MAX ->
  ArrayBobbins.malloc_block L (ArrayBobbins.sizeof_int * elements) = Some g ->
  ArrayBobbins.dev_random L = Some seed ->
  0 <= ArrayBobbins.RAND_MAX L <= INT_MAX ->
  (forall calls, 0 <= ArrayBobbins.rand_after L seed calls <= ArrayBobbins.RAND_MAX L) ->
  elements - 1 <= Z.of_nat fuel ->
  exists return_array j,
    ArrayBobbins.shuffle_array L fuel input_array elements = Done (Some return_array) /\
    j = ArrayBobbins.rand_after L seed 0 / (ArrayBobbins.RAND_MAX L / elements + 1) /\
    0 <= j <= ArrayBobbins.RAND_MAX L / (ArrayBobbins.RAND_MAX L / elements + 1) /\
    j < elements /\
    return_array !! 0%nat = input_array !! Z.to_nat j.
Proof.
  intros He Hsize Hg Hseed HM Hr Hfuel.
  rewrite (shuffle_array_copy L fuel input_array elements g seed)
    by (assumption || lia).
  assert ((1 <? elements) = true) as -> by (apply Z.ltb_lt; lia).
  assert (Hlen : Z.of_nat (length (take (Z.to_nat elements) input_array)) = elements)
    by (rewrite length_take; lia).
  assert (Hn : elements <= SIZE_MAX)
    by (unfold ArrayBobbins.sizeof_int in *; lia).
  destruct fuel as [|fuel]; [lia|].
  destruct (shuffle_array_loop_iteration L fuel seed 0 elements 0 _ HM (Hr 0%nat)
              Hn Hlen ltac:(lia)) as (j & x & t & Hjeq & Hj & Hx & Ht & ->).
  rewrite Z.add_0_l, Z.sub_0_r in Hjeq.
  destruct (shuffle_array_loop_spec L seed elements HM Hr ltac:(lia) fuel (0 + 1) 1%nat
              (<[Z.to_nat 0 := t]> (<[Z.to_nat j := x]> (take (Z.to_nat elements) input_array))))
    as (a' & Hrun & _ & Htake); [now rewrite !length_insert | lia | lia |].
  exists a', j. split; [exact Hrun|]. split; [exact Hjeq|].
  assert (0 <= ArrayBobbins.RAND_MAX L / elements) by (apply Z.div_pos; lia).
  split; [|split; [lia|]].
  - split; [lia|]. rewrite Hjeq. apply Z.div_le_mono; [lia|]. apply Hr.
  - change (Z.to_nat (0 + 1)) with 1%nat in Htake.
    rewrite <- (lookup_take_lt a' 1 0) by lia. rewrite Htake.
    rewrite lookup_take_lt by lia. change (Z.to_nat 0) with 0%nat.
    rewrite list_lookup_insert_eq by (rewrite length_insert; lia).
    rewrite lookup_take_lt in Ht by lia. now rewrite Ht.
Qed.

Lemma shuffle_array_first_element_witness :
  exists return_array j,
    ArrayBobbins.shuffle_array ArrayBobbins.sample_libc 3 [70; 71; 72; 73] 4
      = Done (Some return_array) /\
    j = ArrayBobbins.rand_after ArrayBobbins.sample_libc 42 0
        / (ArrayBobbins.RAND_MAX ArrayBobbins.sample_libc / 4 + 1) /\
    return_array !! 0%nat = [70; 71; 72; 73] !! Z.to_nat j.
Proof.
  destruct (shuffle_array_first_element ArrayBobbins.sample_libc 3 [70; 71; 72; 73] 4
              (fun _ => 7) 42) as (a & j & H1 & H2 & _ & _ & H5).
  - simpl. lia.
  - vm_compute. discriminate.
  - reflexivity.
  - reflexivity.
  - vm_compute. split; discriminate.
  - intros calls. simpl.
    pose proof (Z.mod_pos_bound (Z.of_nat (S calls) * 9) 32768 ltac:(lia)). lia.
  - lia.
  - exists a, j. auto.
Defined.

(** X15: what makes [shuffle_array] go wrong.  Without ["/dev/random"]
    the call of [randomize] reads from the null stream, whatever the
    array, even one that needs no shuffling.  With one element or more, a
    [malloc] that returns null makes [memcpy] write through the null
    pointer, and an input shorter than [elements] makes it read past the
    end of the input. *)
Theorem shuffle_array_edge_cases L (input_array : list Z) :
  (ArrayBobbins.dev_random L = None ->
   forall fuel elements,
     ArrayBobbins.shuffle_array L fuel input_array elements = Fault) /\
  (forall fuel elements, 0 < elements ->
     ArrayBobbins.malloc_block L
       (size_t (ArrayBobbins.sizeof_int * elements)) = None ->
     ArrayBobbins.shuffle_array L fuel input_array elements = Fault) /\
  (forall fuel elements g, Z.of_nat (length input_array) < elements ->
     ArrayBobbins.sizeof_int * elements <= SIZE_MAX ->
     ArrayBobbins.malloc_block L (ArrayBobbins.sizeof_int * elements) = Some g ->
     ArrayBobbins.shuffle_array L fuel input_array elements = Fault).
Proof.
  split; [|split].
  - intros Hnone fuel elements.
    unfold ArrayBobbins.shuffle_array, ArrayBobbins.randomize. now rewrite Hnone.
  - intros fuel elements He Hnull.
    unfold ArrayBobbins.shuffle_array, ArrayBobbins.randomize, ArrayBobbins.malloc.
    rewrite Hnull. now destruct (ArrayBobbins.dev_random L).
  - intros fuel elements g Hlen Hsize Hg.
    unfold ArrayBobbins.shuffle_array, ArrayBobbins.randomize.
    destruct (ArrayBobbins.dev_random L); [|reflexivity].
    cbn [mbind outcome_bind]. unfold ArrayBobbins.sizeof_int in *.
    rewrite size_t_small by lia.
    rewrite (malloc_Some L _ g) by assumption.
    unfold ArrayBobbins.memcpy, ArrayBobbins.sizeof_int.
    replace (4 * elements / 4) with elements
      by (rewrite Z.mul_comm, Z.div_mul; lia).
    assert ((Z.to_nat elements <=? length input_array)%nat = false) as ->
      by (apply Nat.leb_gt; lia).
    now rewrite andb_false_r.
Qed.

Lemma shuffle_array_edge_cases_witness :
  ArrayBobbins.shuffle_array ArrayBobbins.libc_without_dev_random 0 [70] 1 = Fault /\
  ArrayBobbins.shuffle_array ArrayBobbins.libc_without_memory 1 [70; 71] 2 = Fault /\
  ArrayBobbins.shuffle_array ArrayBobbins.sample_libc 2 [70; 71] 3 = Fault.
Proof.
  destruct (shuffle_array_edge_cases ArrayBobbins.libc_without_dev_random [70])
    as (H1 & _ & _).
  destruct (shuffle_array_edge_cases ArrayBobbins.libc_without_memory [70; 71])
    as (_ & H2 & _).
  destruct (shuffle_array_edge_cases ArrayBobbins.sample_libc [70; 71])
    as (_ & _ & H3).
  split; [apply H1; reflexivity|]. split.
  - apply H2; [lia | reflexivity].
  - apply (H3 2%nat 3 (fun _ => 7)); [simpl; lia | vm_compute; discriminate | reflexivity].
Defined.

(** * dump_bits.c *)

Lemma dumpbits_for_loop_fuel fuel : forall fuel' byte iterator finalhash r,
  DumpBits.for_loop fuel byte iterator finalhash = Done r -> (fuel <= fuel')%nat ->
  DumpBits.for_loop fuel' byte iterator finalhash = Done r.
Proof.
  induction fuel as [|fuel IH]; intros fuel' byte iterator finalhash r H Hle.
  - simpl in H. destruct (iterator <? 8) eqn:E; [discriminate|].
    destruct fuel'; simpl; now rewrite E.
  - destruct fuel' as [|fuel']; [lia|]. simpl in *.
    destruct (iterator <? 8); [|assumption].
    apply bind_Done_inv in H as (mask & -> & H). cbn [mbind outcome_bind].
    apply bind_Done_inv in H as (index & -> & H). cbn [mbind outcome_bind].
    apply bind_Done_inv in H as (finalhash' & -> & H). cbn [mbind outcome_bind].
    apply bind_Done_inv in H as (iterator' & -> & H). cbn [mbind outcome_bind].
    apply IH; [assumption | lia].
Qed.

Lemma dumpbits_fuel fuel byte s :
  DumpBits.dumpbits 8 byte = Done s -> (8 <= fuel)%nat ->
  DumpBits.dumpbits fuel byte = Done s.
Proof.
  unfold DumpBits.dumpbits. intros H Hfuel.
  apply bind_Done_inv in H as (hi & -> & H). cbn [mbind outcome_bind].
  apply bind_Done_inv in H as (f0 & -> & H). cbn [mbind outcome_bind].
  apply bind_Done_inv in H as (lo & -> & H). cbn [mbind outcome_bind].
  apply bind_Done_inv in H as (f1 & -> & H). cbn [mbind outcome_bind].
  apply bind_Done_inv in H as (f2 & -> & H). cbn [mbind outcome_bind].
  apply bind_Done_inv in H as (f3 & Hloop & H).
  now rewrite (dumpbits_for_loop_fuel 8 fuel _ _ _ _ Hloop Hfuel).
Qed.

(** Every value of a [char], tried in turn. *)
Lemma dumpbits_every_byte :
  forallb (fun byte =>
    match DumpBits.dumpbits 8 byte with
    | Done s =>
        String.eqb s
          (String.substring (Z.to_nat (byte mod 256 / 16)) 1 "0123456789abcdef"
           +:+ String.substring (Z.to_nat (byte mod 16)) 1 "0123456789abcdef"
           +:+ " "
           +:+ foldr (fun i bits => (if Z.testbit byte i then "1" else "0") +:+ bits)
                 "" (seqZ 0 8)
           +:+ " ")
        && match DumpBits.read_hex s, DumpBits.read_bits s with
           | Some h, Some b => (h =? byte mod 256) && (b =? byte mod 256)
           | _, _ => false
           end
        && (String.length s =? 12)%nat
    | _ => false
    end) (seqZ (-128) 384) = true.
Proof. vm_compute. reflexivity. Qed.

Lemma dumpbits_checked fuel byte :
  -128 <= byte <= 255 -> (8 <= fuel)%nat ->
  exists s, DumpBits.dumpbits fuel byte = Done s /\
    s = String.substring (Z.to_nat (byte mod 256 / 16)) 1 "0123456789abcdef"
        +:+ String.substring (Z.to_nat (byte mod 16)) 1 "0123456789abcdef"
        +:+ " "
        +:+ foldr (fun i bits => (if Z.testbit byte i then "1" else "0") +:+ bits)
              "" (seqZ 0 8)
        +:+ " " /\
    DumpBits.read_hex s = Some (byte mod 256) /\
    DumpBits.read_bits s = Some (byte mod 256) /\
    String.length s = 12%nat.
Proof.
  intros Hbyte Hfuel.
  pose proof (proj1 (forallb_forall _ _) dumpbits_every_byte byte) as H.
  cbv beta in H.
  destruct (DumpBits.dumpbits 8 byte) as [s| |] eqn:E;
    [|discriminate H; apply list_elem_of_In, elem_of_seqZ; lia
     |discriminate H; apply list_elem_of_In, elem_of_seqZ; lia].
  assert (Hin : In byte (seqZ (-128) 384)) by (apply list_elem_of_In, elem_of_seqZ; lia).
  apply H in Hin. apply andb_true_iff in Hin as [Hin Hlen].
  apply andb_true_iff in Hin as [Hs Hread].
  exists s. split; [now apply dumpbits_fuel|].
  apply String.eqb_eq in Hs. split; [exact Hs|].
  destruct (DumpBits.read_hex s) as [h|]; [|discriminate].
  destruct (DumpBits.read_bits s) as [b|]; [|discriminate].
  apply andb_true_iff in Hread as [Hh%Z.eqb_eq Hb%Z.eqb_eq].
  apply Nat.eqb_eq in Hlen. subst h b. auto.
Qed.

(** X16: what [dumpbits] prints.  For every value of a [char], signed or
    not, the output is twelve characters: the two hexadecimal digits of
    the byte, in lower case and the high one first, a space, the eight
    bits of the byte from the bit of weight 1 to the bit of weight 128,
    and a space.  A negative [char] prints as the byte that represents
    it, its value plus 256.  No access leaves [hexval], [mask_table] or
    [finalhash], and eight iterations are enough. *)
Theorem dumpbits_prints_hex_and_bits fuel byte :
  -128 <= byte <= 255 -> (8 <= fuel)%nat ->
  DumpBits.dumpbits fuel byte =
    Done (String.substring (Z.to_nat (byte mod 256 / 16)) 1 "0123456789abcdef"
          +:+ String.substring (Z.to_nat (byte mod 16)) 1 "0123456789abcdef"
          +:+ " "
          +:+ foldr (fun i bits => (if Z.testbit byte i then "1" else "0") +:+ bits)
                "" (seqZ 0 8)
          +:+ " ").
Proof.
  intros Hbyte Hfuel.
  destruct (dumpbits_checked fuel byte Hbyte Hfuel) as (s & -> & -> & _).
  reflexivity.
Qed.

Lemma dumpbits_prints_hex_and_bits_witness :
  DumpBits.main 8 = Done "63 11000110 " /\
  DumpBits.dumpbits 8 (-1) = Done "ff 11111111 " /\
  DumpBits.dumpbits 8 99 =
    Done (String.substring (Z.to_nat (99 mod 256 / 16)) 1 "0123456789abcdef"
          +:+ String.substring (Z.to_nat (99 mod 16)) 1 "0123456789abcdef"
          +:+ " "
          +:+ foldr (fun i bits => (if Z.testbit 99 i then "1" else "0") +:+ bits)
                "" (seqZ 0 8)
          +:+ " ").
Proof.
  split; [vm_compute; reflexivity|]. split; [vm_compute; reflexivity|].
  apply (dumpbits_prints_hex_and_bits 8 99); lia.
Defined.

(** X17: the output of [dumpbits] can be read back.  The two
    hexadecimal digits and the eight binary digits both give the byte,
    the binary digits being read with the first as the bit of weight 1;
    two values of a [char] that print the same are the same byte. *)
Theorem dumpbits_output_determines_byte fuel byte :
  -128 <= byte <= 255 -> (8 <= fuel)%nat ->
  exists s, DumpBits.dumpbits fuel byte = Done s /\
    DumpBits.read_hex s = Some (byte mod 256) /\
    DumpBits.read_bits s = Some (byte mod 256) /\
    forall byte', -128 <= byte' <= 255 ->
      DumpBits.dumpbits fuel byte' = Done s -> byte' mod 256 = byte mod 256.
Proof.
  intros Hbyte Hfuel.
  destruct (dumpbits_checked fuel byte Hbyte Hfuel) as (s & Hs & _ & Hhex & Hbits & _).
  exists s. split; [exact Hs|]. split; [exact Hhex|]. split; [exact Hbits|].
  intros byte' Hbyte' Hs'.
  destruct (dumpbits_checked fuel byte' Hbyte' Hfuel) as (s' & Hs'' & _ & Hhex' & _).
  rewrite Hs' in Hs''. injection Hs'' as <-. congruence.
Qed.

Lemma dumpbits_output_determines_byte_witness :
  exists s, DumpBits.dumpbits 8 (-100) = Done s /\
    DumpBits.read_hex s = Some ((-100) mod 256) /\
    DumpBits.read_bits s = Some ((-100) mod 256) /\
    (-100) mod 256 = 156.
Proof.
  destruct (dumpbits_output_determines_byte 8 (-100) ltac:(lia) ltac:(lia))
    as (s & H1 & H2 & H3 & _).
  exists s. auto.
Defined.

(** * disk_info.c *)

(** X18: the accounts of [diskUsage].  The three sizes are computed in
    [unsigned long]: whatever [statvfs] left in [buf], [used] plus [free]
    is [size] modulo 2 to the number of bits of [unsigned long].  When
    the fragment size, the number of blocks and the size of the file
    system in bytes fit in an [unsigned long] and no more blocks are free
    than there are, [size] is the fragment size
    times the number of blocks, [free] the fragment size times the number
    of free blocks and [used] what the blocks that are not free hold; a
    file system too large for [unsigned long] is reported smaller than
    it is.  Neither [function] nor the value [statvfs] returned is looked
    at. *)
Theorem diskUsage_accounts ulong_bits statvfs path function ret buf :
  0 <= ulong_bits -> statvfs path = (ret, buf) ->
  (DiskInfo.used (DiskInfo.diskUsage ulong_bits statvfs path function)
   + DiskInfo.free (DiskInfo.diskUsage ulong_bits statvfs path function))
    mod 2 ^ ulong_bits
  = DiskInfo.size (DiskInfo.diskUsage ulong_bits statvfs path function) /\
  DiskInfo.size (DiskInfo.diskUsage ulong_bits statvfs path function)
  = (DiskInfo.f_frsize buf * DiskInfo.f_blocks buf) mod 2 ^ ulong_bits /\
  (0 <= DiskInfo.f_frsize buf < 2 ^ ulong_bits ->
   DiskInfo.f_blocks buf < 2 ^ ulong_bits ->
   0 <= DiskInfo.f_bfree buf <= DiskInfo.f_blocks buf ->
   DiskInfo.f_frsize buf * DiskInfo.f_blocks buf < 2 ^ ulong_bits ->
   DiskInfo.diskUsage ulong_bits statvfs path function =
     {| DiskInfo.size := DiskInfo.f_frsize buf * DiskInfo.f_blocks buf;
        DiskInfo.used :=
          DiskInfo.f_frsize buf * (DiskInfo.f_blocks buf - DiskInfo.f_bfree buf);
        DiskInfo.free := DiskInfo.f_frsize buf * DiskInfo.f_bfree buf;
        DiskInfo.blockSize := DiskInfo.f_frsize buf;
        DiskInfo.blocks := DiskInfo.f_blocks buf |}) /\
  (forall statvfs' function' ret', statvfs' path = (ret', buf) ->
     DiskInfo.diskUsage ulong_bits statvfs' path function' =
     DiskInfo.diskUsage ulong_bits statvfs path function).
Proof.
  intros Hw Hbuf.
  assert (HM : 0 < 2 ^ ulong_bits) by (apply Z.pow_pos_nonneg; lia).
  unfold DiskInfo.diskUsage, DiskInfo.ulong. rewrite Hbuf. cbn.
  split; [|split; [|split]].
  - rewrite Z.add_mod_idemp_l by lia.
    rewrite Z.sub_add. apply Z.mod_mod. lia.
  - now rewrite Z.mul_mod_idemp_l, Z.mul_mod_idemp_r by lia.
  - intros Hfr Hblocks Hfree Hfit.
    rewrite (Z.mod_small (DiskInfo.f_frsize buf)) by lia.
    rewrite (Z.mod_small (DiskInfo.f_blocks buf)) by lia.
    rewrite (Z.mod_small (DiskInfo.f_bfree buf)) by lia.
    rewrite (Z.mod_small (_ * DiskInfo.f_blocks buf)) by nia.
    rewrite (Z.mod_small (_ * DiskInfo.f_bfree buf)) by nia.
    rewrite Z.mod_small by nia. f_equal. lia.
  - intros statvfs' function' ret' Hbuf'. now rewrite Hbuf'.
Qed.

Lemma diskUsage_accounts_witness :
  DiskInfo.diskUsage 64
    (fun _ => (0, {| DiskInfo.f_frsize := 4096; DiskInfo.f_blocks := 1000;
                     DiskInfo.f_bfree := 250 |})) "/" 9
  = {| DiskInfo.size := 4096 * 1000; DiskInfo.used := 4096 * (1000 - 250);
       DiskInfo.free := 4096 * 250; DiskInfo.blockSize := 4096;
       DiskInfo.blocks := 1000 |} /\
  DiskInfo.size (DiskInfo.diskUsage 32
    (fun _ => (0, {| DiskInfo.f_frsize := 4096; DiskInfo.f_blocks := 1048577;
                     DiskInfo.f_bfree := 0 |})) "/" 9) = 4096.
Proof.
  split.
  - apply (proj1 (proj2 (proj2 (diskUsage_accounts 64
             (fun _ => (0, {| DiskInfo.f_frsize := 4096; DiskInfo.f_blocks := 1000;
                              DiskInfo.f_bfree := 250 |})) "/" 9 0 _
             ltac:(lia) eq_refl))));
      simpl; lia.
  - reflexivity.
Defined.

(** * Reversals.c: [reversewords] and [main] *)

Lemma bind_not_Timeout {A B} (x : outcome A) (f : A -> outcome B) :
  x <> Timeout -> (forall a, f a <> Timeout) -> x ≫= f <> Timeout.
Proof. intros Hx Hf. destruct x; simpl; [apply Hf | congruence | discriminate]. Qed.

Lemma int_sub_not_Timeout a b : int_sub a b <> Timeout.
Proof. unfold int_sub. now destruct (_ && _). Qed.

Lemma array_get_not_Timeout {A} (a : list A) i : array_get a i <> Timeout.
Proof. destruct (array_get_cases a i) as [[x ->]| ->]; discriminate. Qed.

Lemma array_set_not_Timeout {A} (a : list A) i x : array_set a i x <> Timeout.
Proof. unfold array_set. now destruct (_ && _). Qed.

Lemma c_string_not_Timeout a : c_string a <> Timeout.
Proof.
  induction a as [|c a IH]; simpl; [discriminate|].
  destruct (Ascii.eqb c Ascii.zero); [discriminate|].
  apply bind_not_Timeout; [assumption | discriminate].
Qed.

Lemma write_string_not_Timeout s : forall a k, write_string a k s <> Timeout.
Proof.
  induction s as [|c s IH]; intros a k; simpl.
  - apply array_set_not_Timeout.
  - apply bind_not_Timeout; [apply array_set_not_Timeout | intros a'; apply IH].
Qed.

Lemma fill_not_Timeout n : forall dst d, Reversals.fill n dst d <> Timeout.
Proof.
  induction n as [|n IH]; intros dst d; simpl; [discriminate|].
  apply bind_not_Timeout; [apply array_set_not_Timeout | intros a'; apply IH].
Qed.

Lemma strncpy_from_not_Timeout n : forall dst d src s,
  Reversals.strncpy_from n dst d src s <> Timeout.
Proof.
  induction n as [|n IH]; intros dst d src s; simpl; [discriminate|].
  apply bind_not_Timeout; [apply array_get_not_Timeout | intros c].
  apply bind_not_Timeout; [apply array_set_not_Timeout | intros dst'].
  destruct (Ascii.eqb c Ascii.zero); [apply fill_not_Timeout | apply IH].
Qed.

Lemma strncpy_not_Timeout dst src offset n :
  Reversals.strncpy dst src offset n <> Timeout.
Proof.
  destruct dst as [d|]; simpl; [|discriminate].
  apply bind_not_Timeout; [apply strncpy_from_not_Timeout | discriminate].
Qed.

Lemma sprintf_not_Timeout L temp_string test_string :
  Reversals.sprintf L temp_string test_string <> Timeout.
Proof.
  destruct temp_string as [t|], test_string as [s|]; simpl; try discriminate.
  apply bind_not_Timeout; [apply c_string_not_Timeout | intros s1].
  apply bind_not_Timeout; [apply c_string_not_Timeout | intros s2].
  destruct (_ && _); [|discriminate].
  apply bind_not_Timeout; [apply write_string_not_Timeout | discriminate].
Qed.

(** With a unit of fuel for each index from [i] down to 0 the loop of
    [reversewords] does not run out of fuel. *)
Lemma reversewords_loop_not_Timeout L succeeds input_string length fuel :
  forall callocs i j temp_string,
    i < Z.of_nat fuel ->
    Reversals.reversewords_loop L succeeds fuel callocs input_string length i j
      temp_string <> Timeout.
Proof.
  induction fuel as [|fuel IH]; intros callocs i j temp_string Hi; simpl.
  - now assert ((0 <=? i) = false) as -> by (apply Z.leb_gt; lia).
  - destruct (0 <=? i) eqn:E; [|discriminate]. apply Z.leb_le in E.
    apply bind_not_Timeout; [apply array_get_not_Timeout | intros c].
    destruct (_ || _).
    + apply bind_not_Timeout; [apply int_sub_not_Timeout | intros d].
      apply bind_not_Timeout; [apply int_add_not_Timeout | intros size].
      apply bind_not_Timeout; [apply int_add_not_Timeout | intros start].
      apply bind_not_Timeout.
      { destruct (i =? 0); [discriminate|].
        apply bind_not_Timeout; [apply int_sub_not_Timeout | discriminate]. }
      intros less.
      apply bind_not_Timeout; [apply int_sub_not_Timeout | intros n].
      apply bind_not_Timeout; [apply strncpy_not_Timeout | intros test'].
      apply bind_not_Timeout; [apply sprintf_not_Timeout | intros temp'].
      destruct (int_sub i 1) as [i'| |] eqn:Ei; simpl;
        [|now apply int_sub_not_Timeout in Ei | discriminate].
      unfold int_sub in Ei. destruct (_ && _); [|discriminate].
      injection Ei as <-. apply IH. lia.
    + destruct (int_sub i 1) as [i'| |] eqn:Ei; simpl;
        [|now apply int_sub_not_Timeout in Ei | discriminate].
      unfold int_sub in Ei. destruct (_ && _); [|discriminate].
      injection Ei as <-. apply IH. lia.
Qed.

(** When [sprintf] cannot go well on [temp_string], the loop cannot
    either: it comes to a call of [sprintf] at index 0 at the latest. *)
Lemma reversewords_loop_stuck L succeeds input_string length temp_string fuel :
  (forall test_string r, Reversals.sprintf L temp_string test_string <> Done r) ->
  forall callocs i j r, 0 <= i ->
    Reversals.reversewords_loop L succeeds fuel callocs input_string length i j
      temp_string <> Done r.
Proof.
  intros Hstuck. induction fuel as [|fuel IH]; intros callocs i j r Hi H; simpl in H.
  - now assert ((0 <=? i) = true) as E by (apply Z.leb_le; lia); rewrite E in H.
  - assert ((0 <=? i) = true) as E by (apply Z.leb_le; lia). rewrite E in H.
    apply bind_Done_inv in H as (c & _ & H).
    destruct (Ascii.eqb c _ || (i =? 0)) eqn:Etrig.
    + apply bind_Done_inv in H as (d & _ & H).
      apply bind_Done_inv in H as (size & _ & H).
      apply bind_Done_inv in H as (start & _ & H).
      apply bind_Done_inv in H as (less & _ & H).
      apply bind_Done_inv in H as (n & _ & H).
      apply bind_Done_inv in H as (test' & _ & H).
      apply bind_Done_inv in H as (temp' & Hs & _).
      now apply Hstuck in Hs.
    + apply orb_false_iff in Etrig as [_ Ei0%Z.eqb_neq].
      apply bind_Done_inv in H as (i' & Hi' & H).
      unfold int_sub in Hi'. destruct (_ && _); [|discriminate].
      injection Hi' as <-. apply IH in H; [assumption | lia].
Qed.

Lemma c_string_head a c s : c_string a = Done (String c s) -> c <> Ascii.zero.
Proof.
  destruct a as [|c' a]; simpl; [discriminate|].
  destruct (Ascii.eqb c' Ascii.zero) eqn:E; [discriminate|].
  intros H. apply bind_Done_inv in H as (s' & _ & H). injection H as <- _.
  now apply Ascii.eqb_neq in E.
Qed.

Lemma write_string_lookup_lt s : forall a k a' (idx : nat),
  write_string a k s = Done a' -> Z.of_nat idx < k -> a' !! idx = a !! idx.
Proof.
  induction s as [|c s IH]; intros a k a' idx H Hidx; simpl in H.
  - apply array_set_inv in H as [_ ->]. apply list_lookup_insert_ne. lia.
  - apply bind_Done_inv in H as (a1 & H1 & H).
    apply array_set_inv in H1 as [_ ->].
    rewrite (IH _ _ _ idx H) by lia. apply list_lookup_insert_ne. lia.
Qed.

Lemma write_string_head a c s a' :
  write_string a 0 (String c s) = Done a' -> a' !! 0%nat = Some c.
Proof.
  simpl. intros H. apply bind_Done_inv in H as (a1 & H1 & H).
  apply array_set_inv in H1 as [Hlen ->].
  rewrite (write_string_lookup_lt _ _ _ _ 0%nat H) by lia.
  apply list_lookup_insert_eq. lia.
Qed.

(** Where [sprintf] has gone well, [temp_string] is not empty any
    more. *)
Lemma sprintf_Done_nonnull L temp_string test_string r :
  Reversals.sprintf L temp_string test_string = Done r ->
  exists t c, r = Some t /\ t !! 0%nat = Some c /\ c <> Ascii.zero.
Proof.
  unfold Reversals.sprintf. intros H.
  destruct temp_string as [t|], test_string as [s|]; try discriminate.
  apply bind_Done_inv in H as (s1 & _ & H).
  apply bind_Done_inv in H as (s2 & Hs2 & H).
  destruct (_ && _); [|discriminate].
  apply bind_Done_inv in H as (t' & Ht' & H). injection H as <-.
  destruct s2 as [|c s2].
  - exists t', (Ascii.ascii_of_nat 32). split; [reflexivity|].
    split; [exact (write_string_head _ _ _ _ Ht') | discriminate].
  - exists t', c. split; [reflexivity|].
    split; [exact (write_string_head _ _ _ _ Ht') | exact (c_string_head _ _ _ Hs2)].
Qed.

(** And on a [temp_string] that is not empty [sprintf] does not go
    well. *)
Lemma sprintf_nonnull L t c test_string r :
  t !! 0%nat = Some c -> c <> Ascii.zero ->
  Reversals.sprintf L (Some t) test_string <> Done r.
Proof.
  intros Ht Hc H. unfold Reversals.sprintf in H.
  destruct test_string as [s|]; [|discriminate].
  apply bind_Done_inv in H as (s1 & Hs1 & H).
  apply bind_Done_inv in H as (s2 & _ & H).
  destruct t as [|c' t]; [discriminate|]. injection Ht as ->.
  simpl in Hs1. apply Ascii.eqb_neq in Hc. rewrite Hc in Hs1.
  apply bind_Done_inv in Hs1 as (s' & _ & Hs1). injection Hs1 as <-.
  discriminate H.
Qed.

(** With a space after the first character, the loop comes to a second
    call of [sprintf]. *)
Lemma reversewords_loop_two_words L succeeds input_string length k fuel :
  1 <= k -> input_string !! Z.to_nat k = Some (Ascii.ascii_of_nat 32) ->
  forall callocs i j temp_string r, k <= i ->
    Reversals.reversewords_loop L succeeds fuel callocs input_string length i j
      temp_string <> Done r.
Proof.
  intros Hk Hspace.
  induction fuel as [|fuel IH]; intros callocs i j temp_string r Hi H; simpl in H.
  - now assert ((0 <=? i) = true) as E by (apply Z.leb_le; lia); rewrite E in H.
  - assert ((0 <=? i) = true) as E by (apply Z.leb_le; lia). rewrite E in H.
    apply bind_Done_inv in H as (c & Hc & H).
    destruct (Ascii.eqb c _ || (i =? 0)) eqn:Etrig.
    + apply bind_Done_inv in H as (d & _ & H).
      apply bind_Done_inv in H as (size & _ & H).
      apply bind_Done_inv in H as (start & _ & H).
      apply bind_Done_inv in H as (less & _ & H).
      apply bind_Done_inv in H as (n & _ & H).
      apply bind_Done_inv in H as (test' & _ & H).
      apply bind_Done_inv in H as (temp' & Hs & H).
      apply bind_Done_inv in H as (i' & Hi' & H).
      unfold int_sub in Hi'. destruct (_ && _); [|discriminate].
      injection Hi' as <-.
      apply sprintf_Done_nonnull in Hs as (t & c0 & -> & Ht & Hc0).
      revert H. apply reversewords_loop_stuck; [|lia].
      intros test_string r'. now apply (sprintf_nonnull L t c0).
    + apply orb_false_iff in Etrig as [Ec%Ascii.eqb_neq _].
      apply bind_Done_inv in H as (i' & Hi' & H).
      unfold int_sub in Hi'. destruct (_ && _); [|discriminate].
      injection Hi' as <-. apply IH in H; [assumption|].
      destruct (Z.eq_dec i k) as [->|Hne]; [|lia].
      apply array_get_inv in Hc as [_ Hc]. rewrite Hspace in Hc.
      injection Hc as <-. now contradict Ec.
Qed.

(** X19: [reversewords] has no defined outcome on two words.  Whenever
    the string has a space after its first character, the loop calls
    [sprintf(temp_string, "%s%s ", temp_string, test_string)] a second
    time, with a [temp_string] that the first call has filled: the
    characters of [temp_string] are to be copied onto [temp_string], which
    the C standard leaves undefined.  This holds whatever [calloc]
    returns, whatever the array holds elsewhere, and however the library
    treats the first call. *)
Theorem reversewords_undefined_on_two_words L succeeds fuel
    (input_string : list Ascii.ascii) length k :
  1 <= k < length -> length <= INT_MAX ->
  input_string !! Z.to_nat k = Some (Ascii.ascii_of_nat 32) ->
  length <= Z.of_nat fuel ->
  Reversals.reversewords L succeeds fuel input_string length = Fault.
Proof.
  intros Hk Hint Hspace Hfuel. unfold Reversals.reversewords.
  rewrite int_sub_Done by (unfold is_int, INT_MIN; lia). cbn [mbind outcome_bind].
  destruct (int_add length 1) as [size| |] eqn:Esize;
    [|now apply int_add_not_Timeout in Esize | reflexivity].
  cbn [mbind outcome_bind].
  destruct (Reversals.reversewords_loop L succeeds fuel 1 input_string length
              (length - 1) (length - 1)
              (Reversals.calloc (succeeds 0%nat) size)) as [r| |] eqn:E.
  - exfalso. revert E.
    apply (reversewords_loop_two_words L succeeds input_string length k);
      [lia | assumption | lia].
  - exfalso. revert E. apply reversewords_loop_not_Timeout. lia.
  - reflexivity.
Qed.

Lemma reversewords_undefined_on_two_words_witness :
  Reversals.reversewords Reversals.sample_libc (fun _ => true) 5
    (String.list_ascii_of_string "ab cd" ++ [Ascii.zero]) 5 = Fault.
Proof.
  apply (reversewords_undefined_on_two_words Reversals.sample_libc (fun _ => true) 5
           (String.list_ascii_of_string "ab cd" ++ [Ascii.zero]) 5 2).
  - lia.
  - unfold INT_MAX. lia.
  - reflexivity.
  - lia.
Defined.

Lemma write_string_overflow s : forall a k,
  0 <= k -> Z.of_nat (length a) <= k + Z.of_nat (String.length s) ->
  write_string a k s = Fault.
Proof.
  induction s as [|c s IH]; intros a k Hk Hlen; simpl in *.
  - unfold array_set.
    assert ((k <? Z.of_nat (length a)) = false) as -> by (apply Z.ltb_ge; lia).
    now rewrite andb_false_r.
  - destruct (array_set a k c) as [a'| |] eqn:E; simpl;
      [|now apply array_set_not_Timeout in E | reflexivity].
    apply array_set_inv in E as [_ ->]. apply IH; [lia|].
    rewrite length_insert. lia.
Qed.

(** X20: [main] writes past the block it allocates.  The block has
    [strlen(sentence)] bytes and [strcpy] writes the characters of the
    sentence and a null character into it, one byte more than it holds:
    whatever [malloc] returns, the program has no defined outcome from
    line 35 on. *)
Theorem main_overruns_its_block L fuel : Reversals.main L fuel = Fault.
Proof.
  unfold Reversals.main.
  assert (Hs : c_string (String.list_ascii_of_string Reversals.sentence ++ [Ascii.zero])
               = Done Reversals.sentence) by (vm_compute; reflexivity).
  assert (Hn : strlen (String.list_ascii_of_string Reversals.sentence ++ [Ascii.zero])
               = Done 78) by (vm_compute; reflexivity).
  cbv zeta. rewrite Hn. cbn [mbind outcome_bind].
  change (size_t (78 * 1)) with 78.
  unfold Reversals.malloc.
  destruct (Reversals.malloc_block L _) as [g|]; [|reflexivity].
  cbn [mbind option_bind Reversals.strcpy]. rewrite Hs. cbn [mbind outcome_bind].
  rewrite write_string_overflow; [reflexivity | lia |].
  rewrite length_fmap, length_seqZ. vm_compute. discriminate.
Qed.

Lemma outcome_bind_Done {A B} (a : A) (f : A -> outcome B) : Done a ≫= f = f a.
Proof. reflexivity. Qed.

Lemma sprintf_no_overlap L temp_string test_string r :
  Reversals.empty_overlap_defined L = false ->
  Reversals.sprintf L temp_string test_string <> Done r.
Proof.
  intros Hno H. unfold Reversals.sprintf in H.
  destruct temp_string as [t|], test_string as [s|]; try discriminate.
  apply bind_Done_inv in H as (s1 & _ & H).
  apply bind_Done_inv in H as (s2 & _ & H).
  rewrite Hno, andb_false_r in H. discriminate.
Qed.

Lemma string_of_list_ascii_snoc l c :
  String.string_of_list_ascii l +:+ String c EmptyString
  = String.string_of_list_ascii (l ++ [c]).
Proof. induction l as [|c' l IH]; simpl; [reflexivity | now rewrite <- IH]. Qed.

Lemma c_string_spec l rest :
  (forall c, c ∈ l -> c <> Ascii.zero) ->
  c_string (l ++ Ascii.zero :: rest) = Done (String.string_of_list_ascii l).
Proof.
  induction l as [|c l IH]; intros Hl; simpl; [reflexivity|].
  assert (Ascii.eqb c Ascii.zero = false) as ->
    by (apply Ascii.eqb_neq, Hl, list_elem_of_here).
  rewrite IH by (intros c' Hc'; apply Hl; now apply list_elem_of_further).
  reflexivity.
Qed.

Lemma write_string_spec l : forall (a : list Ascii.ascii) (k : nat),
  (k + length l < length a)%nat ->
  write_string a (Z.of_nat k) (String.string_of_list_ascii l)
  = Done (take k a ++ l ++ Ascii.zero :: drop (k + length l + 1) a).
Proof.
  induction l as [|c l IH]; intros a k Hk; cbn [String.string_of_list_ascii write_string].
  - rewrite array_set_Done by (cbn [length] in Hk; lia).
    rewrite Nat2Z.id, insert_take_drop by (cbn [length] in Hk; lia).
    cbn [length app]. now replace (k + 0 + 1)%nat with (S k) by lia.
  - cbn [length] in Hk. rewrite array_set_Done by lia.
    cbn [mbind outcome_bind]. rewrite Nat2Z.id.
    replace (Z.of_nat k + 1) with (Z.of_nat (S k)) by lia.
    rewrite IH by (rewrite length_insert; lia).
    rewrite (take_S_r _ k c) by (apply list_lookup_insert_eq; lia).
    rewrite take_insert_ge, drop_insert_lt by lia.
    cbn [length]. rewrite <- app_assoc. cbn [app].
    now replace (S k + length l + 1)%nat with (k + S (length l) + 1)%nat by lia.
Qed.

Lemma strncpy_from_copy n : forall (dst src : list Ascii.ascii) (d s : nat),
  (d + n <= length dst)%nat -> (s + n <= length src)%nat ->
  (forall idx : nat, (s <= idx < s + n)%nat -> src !! idx <> Some Ascii.zero) ->
  Reversals.strncpy_from n dst (Z.of_nat d) src (Z.of_nat s)
  = Done (take d dst ++ take n (drop s src) ++ drop (d + n) dst).
Proof.
  induction n as [|n IH]; intros dst src d s Hd Hs Hnul; cbn [Reversals.strncpy_from].
  - rewrite take_0, Nat.add_0_r. cbn [app]. now rewrite take_drop.
  - destruct (lookup_lt_is_Some_2 src s) as [c Hc]; [lia|].
    rewrite (array_get_Done src _ c) by (try lia; now rewrite Nat2Z.id).
    cbn [mbind outcome_bind]. rewrite array_set_Done by lia.
    cbn [mbind outcome_bind]. rewrite Nat2Z.id.
    assert (Ascii.eqb c Ascii.zero = false) as ->.
    { apply Ascii.eqb_neq. intros ->. apply (Hnul s); [lia | assumption]. }
    replace (Z.of_nat d + 1) with (Z.of_nat (S d)) by lia.
    replace (Z.of_nat s + 1) with (Z.of_nat (S s)) by lia.
    rewrite IH; [|rewrite length_insert; lia | lia | intros idx Hidx; apply Hnul; lia].
    rewrite (take_S_r _ d c) by (apply list_lookup_insert_eq; lia).
    rewrite take_insert_ge, drop_insert_lt by lia.
    rewrite (drop_S src c s) by assumption. cbn [take].
    rewrite <- app_assoc. cbn [app].
    now replace (S d + n)%nat with (d + S n)%nat by lia.
Qed.

(** From [i] down to 1 over characters that are no spaces the loop only
    counts [i] down. *)
Lemma reversewords_loop_scan L succeeds (input_string : list Ascii.ascii) length
    (steps : nat) : forall fuel callocs i j temp_string,
  Z.of_nat steps <= i <= INT_MAX ->
  (forall idx : nat, i - Z.of_nat steps < Z.of_nat idx <= i ->
     exists c, input_string !! idx = Some c /\ c <> Ascii.ascii_of_nat 32) ->
  Reversals.reversewords_loop L succeeds (steps + fuel) callocs input_string length
    i j temp_string
  = Reversals.reversewords_loop L succeeds fuel callocs input_string length
      (i - Z.of_nat steps) j temp_string.
Proof.
  induction steps as [|steps IH]; intros fuel callocs i j temp_string Hi Hscan.
  - now rewrite Z.sub_0_r.
  - cbn [Nat.add Reversals.reversewords_loop].
    assert ((0 <=? i) = true) as -> by (apply Z.leb_le; lia).
    destruct (Hscan (Z.to_nat i) ltac:(lia)) as (c & Hc & Hsp).
    rewrite (array_get_Done input_string i c) by (assumption || lia).
    cbn [mbind outcome_bind].
    assert (Ascii.eqb c (Ascii.ascii_of_nat 32) = false) as E1
      by (now apply Ascii.eqb_neq).
    assert ((i =? 0) = false) as E2 by (apply Z.eqb_neq; lia).
    change (Ascii.Ascii false false false false false true false false)
      with (Ascii.ascii_of_nat 32).
    rewrite E1, E2. cbn [orb].
    rewrite int_sub_Done by (unfold is_int, INT_MIN; lia).
    cbn [mbind outcome_bind]. rewrite IH.
    + f_equal. lia.
    + lia.
    + intros idx Hidx. apply Hscan. lia.
Qed.

Lemma reversewords_loop_below_0 L succeeds fuel callocs input_string length i j
    temp_string :
  i < 0 ->
  Reversals.reversewords_loop L succeeds fuel callocs input_string length i j
    temp_string = Done temp_string.
Proof.
  intros Hi. assert (E : (0 <=? i) = false) by (apply Z.leb_gt; lia).
  destruct fuel; simpl; now rewrite E.
Qed.

Lemma size_t_of_nat (n : nat) : Z.of_nat n <= INT_MAX -> Z.to_nat (size_t (Z.of_nat n)) = n.
Proof.
  intros Hn. rewrite size_t_small; [lia|].
  unfold INT_MAX, SIZE_MAX in *. lia.
Qed.

(** The one call of [sprintf] on a single word of [S m] characters. *)
Lemma reversewords_single_word_spec L succeeds fuel (input_string : list Ascii.ascii)
    (m : nat) :
  (S m <= length input_string)%nat -> Z.of_nat (S m) < INT_MAX ->
  (forall idx : nat, (1 <= idx < S m)%nat ->
     input_string !! idx <> Some (Ascii.ascii_of_nat 32)) ->
  (forall idx : nat, (idx < m)%nat -> input_string !! idx <> Some Ascii.zero) ->
  (S m <= fuel)%nat ->
  Reversals.empty_overlap_defined L = true ->
  succeeds 0%nat = true -> succeeds 1%nat = true ->
  Reversals.reversewords L succeeds fuel input_string (Z.of_nat (S m))
  = Done (take m input_string ++ [Ascii.ascii_of_nat 32] ++ drop (S m) input_string).
Proof.
  intros Hlen Hint Hsp Hnul Hfuel Hover H0 H1. unfold Reversals.reversewords.
  rewrite int_sub_Done by (unfold is_int, INT_MIN; lia).
  rewrite !outcome_bind_Done; cbv beta.
  rewrite int_add_Done by (unfold is_int, INT_MIN; lia).
  rewrite !outcome_bind_Done; cbv beta.
  replace (Z.of_nat (S m) - 1) with (Z.of_nat m) by lia.
  replace (Z.of_nat (S m) + 1) with (Z.of_nat (S (S m))) by lia.
  replace fuel with (m + (fuel - m))%nat by lia.
  rewrite reversewords_loop_scan; [|lia|].
  2:{ intros idx Hidx. destruct (lookup_lt_is_Some_2 input_string idx) as [c Hc]; [lia|].
      exists c. split; [assumption|]. intros ->. apply (Hsp idx); [lia | assumption]. }
  rewrite Z.sub_diag.
  destruct (fuel - m)%nat as [|fuel'] eqn:Efuel; [lia|].
  cbn [Reversals.reversewords_loop]. change (0 <=? 0) with true. cbv iota.
  destruct (lookup_lt_is_Some_2 input_string 0) as [c0 Hc0]; [lia|].
  rewrite (array_get_Done input_string 0 c0) by (assumption || lia).
  rewrite !outcome_bind_Done; cbv beta. change (0 =? 0) with true. rewrite orb_true_r.
  rewrite (int_sub_Done (Z.of_nat m) 0) by (unfold is_int, INT_MIN; lia).
  rewrite !outcome_bind_Done; cbv beta. rewrite Z.sub_0_r.
  rewrite (int_add_Done (Z.of_nat m) 1) by (unfold is_int, INT_MIN; lia).
  rewrite !outcome_bind_Done; cbv beta. change (0 <? 0) with false. cbv iota.
  rewrite (int_add_Done 0 0) by (unfold is_int, INT_MIN, INT_MAX; lia).
  rewrite !outcome_bind_Done; cbv beta.
  rewrite (int_sub_Done (Z.of_nat m) 0) by (unfold is_int, INT_MIN; lia).
  rewrite !outcome_bind_Done; cbv beta. rewrite Z.sub_0_r.
  rewrite H0, H1. unfold Reversals.calloc, Reversals.strncpy.
  replace (Z.of_nat m + 1) with (Z.of_nat (S m)) by lia.
  rewrite !size_t_of_nat by lia.
  change (0 + 0) with 0.
  pose proof (strncpy_from_copy m (replicate (S m) Ascii.zero) input_string 0 0)
    as Hcopy.
  change (Z.of_nat 0) with 0 in Hcopy.
  rewrite Hcopy;
    [|rewrite length_replicate; lia | lia | intros idx Hidx; apply Hnul; lia].
  clear Hcopy.
  rewrite !outcome_bind_Done; cbv beta. rewrite take_0, drop_0. cbn [app Nat.add].
  replace (drop m (replicate (S m) Ascii.zero)) with [Ascii.zero]
    by (rewrite drop_replicate; now replace (S m - m)%nat with 1%nat by lia).
  unfold Reversals.sprintf.
  change (c_string (replicate (S (S m)) Ascii.zero)) with (Done (A:=string) EmptyString).
  rewrite !outcome_bind_Done; cbv beta.
  rewrite c_string_spec.
  2:{ intros c [idx Hidx]%list_elem_of_lookup_1 ->.
      pose proof (lookup_lt_Some _ _ _ Hidx) as Hlt. rewrite length_take in Hlt.
      rewrite lookup_take_lt in Hidx by lia. apply (Hnul idx); [lia | assumption]. }
  rewrite !outcome_bind_Done; cbv beta. rewrite Hover. cbn [String.eqb andb].
  change (String.string_of_list_ascii (take m input_string) +:+ " ")
    with (String.string_of_list_ascii (take m input_string)
          +:+ String (Ascii.ascii_of_nat 32) EmptyString).
  rewrite string_of_list_ascii_snoc.
  pose proof (write_string_spec (take m input_string ++ [Ascii.ascii_of_nat 32])
                (replicate (S (S m)) Ascii.zero) 0) as Hwrite.
  change (Z.of_nat 0) with 0 in Hwrite.
  rewrite Hwrite
    by (rewrite length_app, length_take, length_replicate; cbn [length]; lia).
  clear Hwrite.
  rewrite !outcome_bind_Done; cbv beta. rewrite take_0. cbn [app Nat.add].
  rewrite (int_sub_Done 0 1) by (unfold is_int, INT_MIN, INT_MAX; lia).
  rewrite !outcome_bind_Done; cbv beta.
  rewrite reversewords_loop_below_0 by lia.
  rewrite !outcome_bind_Done; cbv beta. unfold Reversals.memcpy.
  rewrite size_t_of_nat by lia.
  assert (Hm : length (take m input_string) = m) by (rewrite length_take; lia).
  assert ((S m <=? length input_string)%nat = true) as -> by (apply Nat.leb_le; lia).
  rewrite drop_ge by (rewrite length_replicate, length_app, Hm; cbn [length]; lia).
  assert ((S m <=? length ((take m input_string ++ [Ascii.ascii_of_nat 32])
                            ++ [Ascii.zero]))%nat = true) as ->
    by (apply Nat.leb_le; rewrite !length_app, Hm; cbn [length]; lia).
  cbn [andb]. f_equal.
  rewrite take_app_length' by (rewrite length_app, Hm; cbn [length]; lia).
  now rewrite <- app_assoc.
Qed.

(** X21: what [reversewords] does to a single word.  On a string of one
    character or more it comes to [sprintf] with [temp_string] as
    destination and as source.  Where the library does not put up with
    that, there is no defined outcome at all.  Where it does while
    [temp_string] is empty, and the string has no space after its first
    character, the only call of [strncpy] copies [length - 1] characters:
    the word loses its last character, which a space replaces; the rest
    of the array is left alone. *)
Theorem reversewords_single_word L succeeds fuel (input_string : list Ascii.ascii) n :
  1 <= n <= Z.of_nat (length input_string) -> n < INT_MAX -> n <= Z.of_nat fuel ->
  (Reversals.empty_overlap_defined L = false ->
   Reversals.reversewords L succeeds fuel input_string n = Fault) /\
  (Reversals.empty_overlap_defined L = true ->
   succeeds 0%nat = true -> succeeds 1%nat = true ->
   (forall idx : nat, 1 <= Z.of_nat idx < n ->
      input_string !! idx <> Some (Ascii.ascii_of_nat 32)) ->
   (forall idx : nat, Z.of_nat idx < n - 1 -> input_string !! idx <> Some Ascii.zero) ->
   Reversals.reversewords L succeeds fuel input_string n
   = Done (take (Z.to_nat n - 1) input_string ++ [Ascii.ascii_of_nat 32]
           ++ drop (Z.to_nat n) input_string)).
Proof.
  intros Hn Hint Hfuel. split.
  - intros Hno. unfold Reversals.reversewords.
    rewrite int_sub_Done by (unfold is_int, INT_MIN; lia). cbn [mbind outcome_bind].
    rewrite int_add_Done by (unfold is_int, INT_MIN; lia). cbn [mbind outcome_bind].
    destruct (Reversals.reversewords_loop L succeeds fuel 1 input_string n
                (n - 1) (n - 1) (Reversals.calloc (succeeds 0%nat) (n + 1)))
      as [r| |] eqn:E.
    + exfalso. revert E. apply reversewords_loop_stuck; [|lia].
      intros test_string r'. now apply sprintf_no_overlap.
    + exfalso. revert E. apply reversewords_loop_not_Timeout. lia.
    + reflexivity.
  - intros Hover H0 H1 Hsp Hnul.
    pose proof (reversewords_single_word_spec L succeeds fuel input_string
                  (Z.to_nat n - 1)) as H.
    replace (S (Z.to_nat n - 1)) with (Z.to_nat n) in H by lia.
    rewrite Z2Nat.id in H by lia.
    apply H; try assumption; try lia.
    + intros idx Hidx. apply Hsp. lia.
    + intros idx Hidx. apply Hnul. lia.
Qed.

Lemma reversewords_single_word_witness :
  Reversals.reversewords Reversals.sample_libc (fun _ => true) 3
    (String.list_ascii_of_string "abc" ++ [Ascii.zero]) 3
  = Done (String.list_ascii_of_string "ab " ++ [Ascii.zero]).
Proof.
  apply (proj2 (reversewords_single_word Reversals.sample_libc (fun _ => true) 3
                  (String.list_ascii_of_string "abc" ++ [Ascii.zero]) 3
                  ltac:(simpl; lia) ltac:(unfold INT_MAX; lia) ltac:(lia))
           eq_refl eq_refl eq_refl).
  - intros [|[|[|idx]]] Hidx; try lia; discriminate.
  - intros [|[|idx]] Hidx; try lia; discriminate.
Defined.
